(** * xFasterTransformer: the forward orchestrator of [CommonDecoder]

    A shallow embedding of [src/models/common_decoder.h] (class
    [CommonDecoder]: constructor, [getDecoderContext], [prepareBuffers],
    [getAttnMask], both [forward] entry points), of
    [OptDecoder::prepareAttnMask] and [OptDecoder::embeddingForward], and of
    the accumulation kernel [xft::addto], followed by the properties the
    specification states about them (Part II) and by further properties of
    the code (Part III).

    Conventions.
    - A C++ [int] is a [Z]; every [int] operation of the source is written
      with the wrapping operators of module [Int] ([+i], [-i], [*i]), and
      the conversion from [int64_t] is [Int.of_int64].  Signed overflow is
      undefined behaviour in C++; theorems whose arithmetic could overflow
      carry the range hypotheses under which the source is defined.
    - A [float] is its IEEE-754 binary32 bit pattern (a [Z] in [0, 2^32)).
      A buffer is a function from element offsets to elements; a pointer
      into the activation buffer is its element offset from
      [actBuffers->Data()].
    - The build is the CPU build: [XFT_GPU] and [XFT_DEBUG] are undefined.
      [PIPELINE_PARALLEL] and the template parameter [ATTN_MLP_PARALLEL] are
      fields of [Model].
    - Numeric kernels that the repository keeps in other files (attention,
      FFN, embedding, collectives, KV-cache manager) are calls to an
      external handler: each call is appended to the decoder's [trace] and
      its effect on memory is the handler's. *)

From Stdlib Require Import ZArith List Bool Lia.
From stdpp Require Import base numbers list list_numbers option strings gmap.

Local Open Scope Z_scope.

(* ===================================================================== *)
(** * Part I: the model                                                   *)
(* ===================================================================== *)

(** ** Machine integers *)

Module Int.

Definition min_int : Z := - 2 ^ 31.
Definition max_int : Z := 2 ^ 31 - 1.

Definition in_range (x : Z) : Prop := min_int <= x <= max_int.

(** Two's-complement wrap-around to 32 bits. *)
Definition wrap (x : Z) : Z := (x + 2 ^ 31) `mod` 2 ^ 32 - 2 ^ 31.

Definition add (a b : Z) : Z := wrap (a + b).
Definition sub (a b : Z) : Z := wrap (a - b).
Definition mul (a b : Z) : Z := wrap (a * b).
(** C's [/] truncates toward zero, and [%] is its remainder. *)
Definition quot (a b : Z) : Z := wrap (Z.quot a b).
Definition rem (a b : Z) : Z := Z.rem a b.
(** [a / b] and [a % b] have no defined result when [b] is zero, nor for
    [INT_MIN / -1]: the behaviour is undefined, and on x86 the division traps
    (SIGFPE).  [quot] and [rem] are the results where this holds. *)
Definition div_defined (a b : Z) : bool :=
  negb (b =? 0) && negb ((a =? min_int) && (b =? -1)).
(** The narrowing conversion [int x = dims[k]] from [int64_t]. *)
Definition of_int64 (x : Z) : Z := wrap x.
(** [step + this->prefixSharing]: a [bool] promoted to [int]. *)
Definition of_bool (b : bool) : Z := if b then 1 else 0.

End Int.

Infix "+i" := Int.add (at level 50, left associativity).
Infix "-i" := Int.sub (at level 50, left associativity).
Infix "*i" := Int.mul (at level 40, left associativity).

(** [for (int k = lo; k < hi; ++k)]: the values the loop variable takes. *)
Definition for_range (lo hi : Z) : list Z := seqZ lo (hi - lo).

(** [for (int k = hi - 1; k >= 0; --k)]. *)
Definition for_down (hi : Z) : list Z := reverse (seqZ 0 hi).

(** ** Floats and buffers *)

(** A [float] by its binary32 bit pattern. *)
Definition f32 : Type := Z.

(** [memset(p, 0, n * sizeof(float))] writes all-zero bytes: [+0.0f]. *)
Definition f32_zero : f32 := 0.

(** [std::numeric_limits<float>::lowest()]: sign 1, exponent 254, mantissa
    all ones, the most negative finite value [-(2 - 2^-23) * 2^127]. *)
Definition f32_lowest : f32 := 0xFF7FFFFF.

Definition f32_sign (x : f32) : Z := Z.land (Z.shiftr x 31) 1.
Definition f32_exponent (x : f32) : Z := Z.land (Z.shiftr x 23) 0xFF.
Definition f32_mantissa (x : f32) : Z := Z.land x 0x7FFFFF.
Definition f32_finite (x : f32) : bool := negb (f32_exponent x =? 0xFF).

(** The order of two finite, non-zero-sign-ambiguous binary32 values read off
    their patterns: negative values order by decreasing magnitude. *)
Definition f32_magnitude (x : f32) : Z := Z.land x 0x7FFFFFFF.
Definition f32_leb (x y : f32) : bool :=
  match f32_sign x =? 1, f32_sign y =? 1 with
  | true, true => f32_magnitude y <=? f32_magnitude x
  | true, false => true
  | false, true => (f32_magnitude x =? 0) && (f32_magnitude y =? 0)
  | false, false => f32_magnitude x <=? f32_magnitude y
  end.

Definition Mem : Type := Z -> f32.

Definition in_block (p n a : Z) : bool := (p <=? a) && (a <? p + n).

(** Store [n] elements at [p], element [k] of them being [g k]. *)
Definition mem_store (m : Mem) (p n : Z) (g : Z -> f32) : Mem :=
  fun a => if in_block p n a then g (a - p) else m a.

(** The [n] elements at [p]. *)
Definition mem_load (m : Mem) (p n : Z) : list f32 :=
  (fun k => m (p + k)) <$> seqZ 0 n.

(** [memcpy(dst, src, n * sizeof(float))], source and destination disjoint. *)
Definition memcpy (m : Mem) (dst src n : Z) : Mem :=
  mem_store m dst n (fun k => m (src + k)).

(** The attention mask buffer: [None] is memory that [xft::alloc] returned
    and nothing has written yet. *)
Definition MaskMem : Type := Z -> option f32.

Definition mask_fill (m : MaskMem) (p n : Z) (v : f32) : MaskMem :=
  fun a => if in_block p n a then Some v else m a.

Record MaskBuf : Type := mkMaskBuf {
  maskSize : Z;          (* size of allocated attnMask *)
  attnMask : MaskMem
}.

(** [CommonDecoder::getAttnMask]: the buffer is replaced by a fresh one when
    it is too small, and kept (with its contents) otherwise. *)
Definition getAttnMask (mb : MaskBuf) (sizeRequired : Z) : MaskBuf :=
  if maskSize mb <? sizeRequired
  then {| maskSize := sizeRequired; attnMask := fun _ => None |}
  else mb.

(** ** Outcomes of a call *)

Inductive HangReason : Type :=
| RecvWithoutMessage     (* MPI_Recv with no matching send *)
| PushBlockedOnFullQueue (* a blocking push on a full ready queue *)
| SpinOnEmptyQueue.      (* while (TaskWaitingQueue::getInstance().empty()); *)

Inductive Outcome (A : Type) : Type :=
| Returns (a : A)
| Exits (code : Z) (diagnostic : string)   (* std::exit(code) after printing *)
| Hangs (why : HangReason).
Arguments Returns {A} a.
Arguments Exits {A} code diagnostic.
Arguments Hangs {A} why.

Definition newline : string := String (Ascii.ascii_of_nat 10) EmptyString.

(** ** The execution context *)

(** The fields of [DecoderContext] the orchestrator reads (the class itself is
    declared in transformer_ctx.h). *)
Record DecoderContext : Type := mkDecoderContext {
  ctx_layers : Z;
  hiddenSize : Z;
  attHeadSize : Z;
  attHeadNum : Z;
  kvHeadNum : Z;
  intermediateSize : Z;
  vocabSize : Z;
  embeddingSize : Z;
  maxPositions : Z;
  maxPosEmbed : Z;
  maxSeqLength : Z;
  tpRank : Z;
  tpSize : Z;
  ppSize : Z;
  ppRank : Z;
  (* per-call shape, set by resize *)
  batchSize : Z;
  inputSeqLen : Z;
  pastSeqLen : Z
}.

(** Modelled from the spec: [DecoderContext::resize(batchSize, seqLen,
    pastSeqLen)] is declared in transformer_ctx.h; section 4.1 says that it
    recomputes the per-call shape fields from its arguments. *)
Definition ctx_resize (c : DecoderContext) (bs sl psl : Z) : DecoderContext :=
  {| ctx_layers := ctx_layers c; hiddenSize := hiddenSize c;
     attHeadSize := attHeadSize c; attHeadNum := attHeadNum c;
     kvHeadNum := kvHeadNum c; intermediateSize := intermediateSize c;
     vocabSize := vocabSize c; embeddingSize := embeddingSize c;
     maxPositions := maxPositions c; maxPosEmbed := maxPosEmbed c;
     maxSeqLength := maxSeqLength c; tpRank := tpRank c; tpSize := tpSize c;
     ppSize := ppSize c; ppRank := ppRank c;
     batchSize := bs; inputSeqLen := sl; pastSeqLen := psl |}.

(** What [Messenger] and [Env] report to the constructor. *)
Record Topology : Type := mkTopology {
  msg_size : Z;        (* messenger.getSize(): ranks of the TP group *)
  msg_rank : Z;        (* messenger.getRank() *)
  msg_color : Z;       (* messenger.getColor(): the PP stage *)
  pipelineStage : Z    (* env.getPipelineStage() *)
}.

(** The arguments of [getDecoderContext] that end up in the context. *)
Record ContextArgs : Type := mkContextArgs {
  a_layers : Z; a_hiddenSize : Z; a_headSize : Z; a_attHeadNum : Z;
  a_kvHeadNum : Z; a_imSize : Z; a_vocabSize : Z; a_embeddingSize : Z;
  a_maxPositions : Z; a_maxPosEmbed : Z; a_maxSeqLength : Z
}.

Definition new_DecoderContext (a : ContextArgs) (t : Topology) : DecoderContext :=
  {| ctx_layers := a_layers a; hiddenSize := a_hiddenSize a;
     attHeadSize := a_headSize a; attHeadNum := a_attHeadNum a;
     kvHeadNum := a_kvHeadNum a; intermediateSize := a_imSize a;
     vocabSize := a_vocabSize a; embeddingSize := a_embeddingSize a;
     maxPositions := a_maxPositions a; maxPosEmbed := a_maxPosEmbed a;
     maxSeqLength := a_maxSeqLength a;
     tpRank := msg_rank t; tpSize := msg_size t;
     ppSize := pipelineStage t; ppRank := msg_color t;
     batchSize := 0; inputSeqLen := 0; pastSeqLen := 0 |}.

Definition context_mismatch_msg : string :=
  "Different context size not unsupported!" +:+ newline.

(** [CommonDecoder::getDecoderContext]: [context] is the member
    [this->context] ([None] is the null [shared_ptr]); the result is the
    member afterwards, which is also the pointer returned. *)
Definition getDecoderContext (context : option DecoderContext)
    (a : ContextArgs) (t : Topology) : Outcome DecoderContext :=
  let tpRank' := msg_rank t in
  match context with
  | Some c =>
      if (hiddenSize c =? a_hiddenSize a) && (attHeadNum c =? a_attHeadNum a)
         && (kvHeadNum c =? a_kvHeadNum a) && (intermediateSize c =? a_imSize a)
         && (tpRank c =? tpRank')
      then Returns c
      else Exits (-1) context_mismatch_msg
  | None => Returns (new_DecoderContext a t)
  end.

(** ** Outcomes as an error monad *)

Definition outcome_bind {A B : Type} (m : Outcome A) (k : A -> Outcome B) : Outcome B :=
  match m with
  | Returns a => k a
  | Exits code msg => Exits code msg
  | Hangs why => Hangs why
  end.

Notation "'do' x <- m ; k" := (outcome_bind m (fun x => k))
  (at level 10, x pattern, m at level 100, k at level 200,
   format "'[v' 'do'  x  <-  m ; '/' k ']'").

Definition returned {A : Type} (o : Outcome A) : bool :=
  match o with Returns _ => true | _ => false end.

(** Modelled from the spec: the macro [REQUIRES(cond, message)] comes from a
    header outside this slice; section 7 makes a failed configuration
    requirement fatal, the process terminating with the diagnostic. *)
Definition REQUIRES (cond : bool) (message : string) : Outcome unit :=
  if cond then Returns tt else Exits (-1) message.

(** ** The output projection *)

(** Modelled from the spec: [DistLinear] (dist_linear.h) is the TP-sharded
    output projection of section 4.5 step 10: rank [splitIdx] of [splits]
    owns the columns [splitOffset, splitOffset + splitSize) of the
    vocabulary, the shards being contiguous and tiling it, so that the caller
    can reassemble full logits from the [(offset, size)] pairs.  The tiling is
    the balanced one; the properties below use the single-shard case only.
    [dl_column row k] is logit [k] of the shard for one hidden row. *)
Record DistLinear : Type := mkDistLinear {
  dl_inputSize : Z;
  dl_outputSize : Z;
  dl_splitIdx : Z;
  dl_splits : Z;
  dl_column : list f32 -> Z -> f32
}.

Definition getSplitSize (p : DistLinear) : Z :=
  dl_outputSize p `quot` dl_splits p
  + (if dl_splitIdx p <? dl_outputSize p `rem` dl_splits p then 1 else 0).

Definition getSplitOffset (p : DistLinear) : Z :=
  dl_splitIdx p * (dl_outputSize p `quot` dl_splits p)
  + Z.min (dl_splitIdx p) (dl_outputSize p `rem` dl_splits p).

(** A row-wise kernel: row [r] of the output, [width] elements at
    [out + r * width], is [f] of row [r] of the input, [hidden] elements at
    [inp + r * hidden].  All input rows are read before any output is
    written. *)
Definition rowwise (f : list f32 -> Z -> f32) (hidden width : Z)
    (m : Mem) (inp out rows : Z) : Mem :=
  foldl (fun acc r =>
           mem_store acc (out + r * width) width (f (mem_load m (inp + r * hidden) hidden)))
        m (seqZ 0 rows).

(** [predictor->forward(ctx, input, output, rows)]. *)
Definition DistLinear_forward (p : DistLinear) (m : Mem) (inp out rows : Z) : Mem :=
  rowwise (dl_column p) (dl_inputSize p) (getSplitSize p) m inp out rows.

(** ** Pipeline-parallel scheduling state *)

(** Modelled from the spec: [SequenceGroupMeta], [SequencePool], [InputQueue]
    and [TaskWaitingQueue] are declared in sequence.h.  Sections 3 and 4.4
    describe them: a sequence group carries its identifier, its lengths and a
    copy of its activation buffer; the pool is the registry keyed by the
    sequence identifier; the input queue holds locally originated requests;
    the ready queue is bounded by a configured capacity, and (section 8) a push
    against a full ready queue is rejected or blocks. *)
Record SequenceGroupMeta : Type := mkSequenceGroupMeta {
  sequenceID : Z;
  sg_inputSeqLen : Z;
  sg_pastSeqLen : Z;
  sg_hiddenStates : list f32
}.

Definition newGroupMeta (sequenceID seqLen : Z) : SequenceGroupMeta :=
  {| sequenceID := sequenceID; sg_inputSeqLen := seqLen;
     sg_pastSeqLen := 0; sg_hiddenStates := [] |}.

Definition setPastSeqLen (g : SequenceGroupMeta) (past : Z) : SequenceGroupMeta :=
  {| sequenceID := sequenceID g; sg_inputSeqLen := sg_inputSeqLen g;
     sg_pastSeqLen := past; sg_hiddenStates := sg_hiddenStates g |}.

(** [allocBuffer<T>(hiddenSize, buf)]: the group's own copy of its
    [inputSeqLen] rows. *)
Definition allocBuffer (g : SequenceGroupMeta) (hidden : Z) (m : Mem) (buf : Z)
    : SequenceGroupMeta :=
  {| sequenceID := sequenceID g; sg_inputSeqLen := sg_inputSeqLen g;
     sg_pastSeqLen := sg_pastSeqLen g;
     sg_hiddenStates := mem_load m buf (sg_inputSeqLen g * hidden) |}.

Module TaskWaitingQueue.

(** What a push against a full queue does: the specification allows both. *)
Inductive FullPolicy : Type := RejectWhenFull | BlockWhenFull.

(** The queue holds pointers to pooled sequence groups; a pointer is the key
    under which the pool holds the group. *)
Record t : Type := mk {
  items : list Z;
  capacity : Z;
  on_full : FullPolicy
}.

Definition size (q : t) : Z := Z.of_nat (length (items q)).
Definition empty (q : t) : bool := match items q with [] => true | _ => false end.
Definition isFull (q : t) : bool := capacity q <=? size q.

(** Appending behind the last entry, without any check. *)
Definition enqueue (q : t) (x : Z) : t :=
  {| items := items q ++ [x]; capacity := capacity q; on_full := on_full q |}.

Inductive PushResult : Type :=
| Pushed (q' : t)
| Rejected
| Blocked.

Definition push (q : t) (x : Z) : PushResult :=
  if isFull q
  then match on_full q with RejectWhenFull => Rejected | BlockWhenFull => Blocked end
  else Pushed (enqueue q x).

Definition pop (q : t) : option (Z * t) :=
  match items q with
  | [] => None
  | x :: rest => Some (x, {| items := rest; capacity := capacity q; on_full := on_full q |})
  end.

Definition bounded (q : t) : Prop := size q <= capacity q.

End TaskWaitingQueue.

Record PipelineState : Type := mkPipelineState {
  readyQueue : TaskWaitingQueue.t;              (* TaskWaitingQueue::getInstance() *)
  inputQueue : list SequenceGroupMeta;          (* InputQueue::getInstance() *)
  sequencePool : gmap Z SequenceGroupMeta;      (* SequencePool::getInstance() *)
  inbox : list (Z * list f32)                   (* what the previous stage has sent *)
}.

Definition set_readyQueue (q : TaskWaitingQueue.t) (s : PipelineState) : PipelineState :=
  {| readyQueue := q; inputQueue := inputQueue s;
     sequencePool := sequencePool s; inbox := inbox s |}.
Definition set_inputQueue (q : list SequenceGroupMeta) (s : PipelineState) : PipelineState :=
  {| readyQueue := readyQueue s; inputQueue := q;
     sequencePool := sequencePool s; inbox := inbox s |}.
Definition set_sequencePool (p : gmap Z SequenceGroupMeta) (s : PipelineState) : PipelineState :=
  {| readyQueue := readyQueue s; inputQueue := inputQueue s;
     sequencePool := p; inbox := inbox s |}.
Definition set_inbox (i : list (Z * list f32)) (s : PipelineState) : PipelineState :=
  {| readyQueue := readyQueue s; inputQueue := inputQueue s;
     sequencePool := sequencePool s; inbox := i |}.

(** ** External calls *)

Inductive Ptr : Type :=
| ActPtr (off : Z)     (* actBuffers->Data() + off *)
| TmpPtr (off : Z)     (* getContext()->tmpBuf.Data() + off *)
| NullPtr.

Inductive Event : Type :=
| EvCtxResize (batchSize seqLen pastSeqLen : Z)
| EvCtxResizeTotal (totInSeqLen totAccSeqLen : Z)
| EvActResize (rows cols : Z)
| EvKVResize (maxPositions width headsPerSplit headSize : Z) (prefix : bool)
| EvGetPositionIds (ids : list Z) (batchSize seqLen step : Z)
| EvEmbedding (ids : list Z) (out : Ptr) (tokenSize : Z)
| EvExpandPrefixCache (layer userSideBS prefixSeqLen : Z)
| EvForwardAttention (layer : Z) (inp imBuf out : Ptr)
    (inputSeqLen pastSeqLen : Z) (useSelfAttn doLnBefore : bool)
| EvExpandCache (layer userSideBS beamSize seqLen : Z)
| EvReduceAdd (src dst : Ptr) (count : Z)
| EvForwardFFN (layer : Z) (inp out : Ptr) (iStride oStride : Z) (doLnBefore : bool)
| EvDecoderBlockForward (sequenceIDs : list Z) (inp out : Ptr)
| EvLastLayerNorm (inp out : Ptr) (rows : Z)
| EvPredictor (inp out : Ptr) (rows : Z)
| EvRecv (source tag sequenceID count : Z)
| EvSend (dest tag sequenceID count : Z) (payload : list f32)
| EvReorderCache (idx : list Z) (size initSeqLen accSeqLen : Z).

(** ** The decoder *)

Record Heap : Type := mkHeap {
  act : Mem;         (* actBuffers *)
  tmpBuf : Mem;      (* context->tmpBuf *)
  kvCache : Mem      (* the storage behind kvCacheMgr *)
}.

Definition set_act (m : Mem) (h : Heap) : Heap :=
  {| act := m; tmpBuf := tmpBuf h; kvCache := kvCache h |}.

Record Decoder : Type := mkDecoder {
  context : DecoderContext;
  messenger : Topology;
  initSeqLen : Z;
  accSeqLen : Z;
  prefixSeqLen : Z;
  prefixSharing : bool;
  mask : MaskBuf;
  heap : Heap;
  decoderBlock_size : Z;       (* decoderBlock->size() *)
  predictor : DistLinear;
  trace : list Event;
  pipeline : PipelineState
}.

Definition set_context (c : DecoderContext) (d : Decoder) : Decoder :=
  {| context := c; messenger := messenger d; initSeqLen := initSeqLen d;
     accSeqLen := accSeqLen d; prefixSeqLen := prefixSeqLen d;
     prefixSharing := prefixSharing d; mask := mask d; heap := heap d;
     decoderBlock_size := decoderBlock_size d; predictor := predictor d;
     trace := trace d; pipeline := pipeline d |}.
Definition set_initSeqLen (v : Z) (d : Decoder) : Decoder :=
  {| context := context d; messenger := messenger d; initSeqLen := v;
     accSeqLen := accSeqLen d; prefixSeqLen := prefixSeqLen d;
     prefixSharing := prefixSharing d; mask := mask d; heap := heap d;
     decoderBlock_size := decoderBlock_size d; predictor := predictor d;
     trace := trace d; pipeline := pipeline d |}.
Definition set_accSeqLen (v : Z) (d : Decoder) : Decoder :=
  {| context := context d; messenger := messenger d; initSeqLen := initSeqLen d;
     accSeqLen := v; prefixSeqLen := prefixSeqLen d;
     prefixSharing := prefixSharing d; mask := mask d; heap := heap d;
     decoderBlock_size := decoderBlock_size d; predictor := predictor d;
     trace := trace d; pipeline := pipeline d |}.
Definition set_prefix (sharing : bool) (len : Z) (d : Decoder) : Decoder :=
  {| context := context d; messenger := messenger d; initSeqLen := initSeqLen d;
     accSeqLen := accSeqLen d; prefixSeqLen := len;
     prefixSharing := sharing; mask := mask d; heap := heap d;
     decoderBlock_size := decoderBlock_size d; predictor := predictor d;
     trace := trace d; pipeline := pipeline d |}.
Definition set_mask (mb : MaskBuf) (d : Decoder) : Decoder :=
  {| context := context d; messenger := messenger d; initSeqLen := initSeqLen d;
     accSeqLen := accSeqLen d; prefixSeqLen := prefixSeqLen d;
     prefixSharing := prefixSharing d; mask := mb; heap := heap d;
     decoderBlock_size := decoderBlock_size d; predictor := predictor d;
     trace := trace d; pipeline := pipeline d |}.
Definition set_heap (h : Heap) (d : Decoder) : Decoder :=
  {| context := context d; messenger := messenger d; initSeqLen := initSeqLen d;
     accSeqLen := accSeqLen d; prefixSeqLen := prefixSeqLen d;
     prefixSharing := prefixSharing d; mask := mask d; heap := h;
     decoderBlock_size := decoderBlock_size d; predictor := predictor d;
     trace := trace d; pipeline := pipeline d |}.
Definition set_trace (t : list Event) (d : Decoder) : Decoder :=
  {| context := context d; messenger := messenger d; initSeqLen := initSeqLen d;
     accSeqLen := accSeqLen d; prefixSeqLen := prefixSeqLen d;
     prefixSharing := prefixSharing d; mask := mask d; heap := heap d;
     decoderBlock_size := decoderBlock_size d; predictor := predictor d;
     trace := t; pipeline := pipeline d |}.
Definition set_pipeline (p : PipelineState) (d : Decoder) : Decoder :=
  {| context := context d; messenger := messenger d; initSeqLen := initSeqLen d;
     accSeqLen := accSeqLen d; prefixSeqLen := prefixSeqLen d;
     prefixSharing := prefixSharing d; mask := mask d; heap := heap d;
     decoderBlock_size := decoderBlock_size d; predictor := predictor d;
     trace := trace d; pipeline := p |}.

(** The template parameters, build switches and subclass overrides of one
    instantiation of [CommonDecoder], and the handler of its external calls. *)
Record Model : Type := mkModel {
  ATTN_MLP_PARALLEL : bool;
  PIPELINE_PARALLEL : bool;
  (** [embeddingForward] is overridden; the base class prints and exits. *)
  embeddingForward_overridden : bool;
  (** [lastLayerNormForward], when overridden: element [k] of the normalised
      row, for one hidden row. *)
  lastLayerNormForward_row : option (list f32 -> Z -> f32);
  (** The pure virtual [prepareAttnMask(ids, step)]: it reads the context
      and [accSeqLen] and owns the mask buffer. *)
  prepareAttnMask : DecoderContext -> Z -> MaskBuf -> list Z -> Z -> MaskBuf;
  (** [SplitUtil::getHeadRange(attHeadNum, kvHeadNum, workers, rank)]: the
      query and key/value head ranges of this rank. *)
  getHeadRange : Z -> Z -> Z -> Z -> (Z * Z) * (Z * Z);
  (** [std::ceil(1.0f * logitRows * vocabSize / hiddenSize)] of
      [prepareBuffer], a binary32 computation. *)
  ceil_ratio : Z -> Z -> Z -> Z;
  (** The memory left by an external call, given the decoder it ran on. *)
  extern : Event -> Decoder -> Heap
}.

(** [OptDecoder::prepareAttnMask] (the model-specific override for OPT):
    [ctx] is [this->getContext()], [acc] is [this->accSeqLen], [mb] the mask
    buffer members of the base class. *)
Module OptDecoder.

(** One row [i] of the causal mask of one batch item: columns [0..i] are
    zeroed by [memset], columns [i+1..seqLen-1] are set by [std::fill_n]. *)
Definition mask_row (seqLen pmask : Z) (m : MaskMem) (i : Z) : MaskMem :=
  let m := mask_fill m (pmask + i *i seqLen) (i +i 1) f32_zero in
  mask_fill m (pmask + i *i seqLen + i + 1) (seqLen -i i -i 1) f32_lowest.

Definition mask_batch (seqLen : Z) (m : MaskMem) (b : Z) : MaskMem :=
  let pmask := b *i seqLen *i seqLen in
  foldl (mask_row seqLen pmask) m (for_range 0 seqLen).

Definition prepareAttnMask (ctx : DecoderContext) (acc : Z) (mb : MaskBuf)
    (ids : list Z) (step : Z) : MaskBuf :=
  let seqLen := inputSeqLen ctx in
  if step =? 0 then
    let sizeRequired := batchSize ctx *i seqLen *i seqLen in
    let mb := getAttnMask mb sizeRequired in
    {| maskSize := maskSize mb;
       attnMask := foldl (mask_batch seqLen) (attnMask mb) (for_range 0 (batchSize ctx)) |}
  else
    let sizeRequired := batchSize ctx *i acc in
    let mb := getAttnMask mb sizeRequired in
    {| maskSize := maskSize mb;
       attnMask := mask_fill (attnMask mb) 0 sizeRequired f32_zero |}.

End OptDecoder.

(** [OptDecoder::embeddingForward(ids, buf, batchSize, seqLen)] (the same
    file): the positions it computes for the positional embedding. *)

(** A stack array of [int]s: [None] is an element that nothing has written. *)
Definition IntArray : Type := Z -> option Z.

Definition array_set (arr : IntArray) (k v : Z) : IntArray :=
  fun a => if a =? k then Some v else arr a.

Module OptDecoderEmbedding.

(** The inner loop over [i] for one batch item [b]. *)
Definition position_row (acc seqLen : Z) (positions : IntArray) (b : Z) : IntArray :=
  foldl (fun ps i => array_set ps (b *i seqLen +i i) (i +i acc))
        positions (for_range 0 seqLen).

(** [int positions[batchSize * seqLen]] once both loops are done. *)
Definition positions (acc batchSize seqLen : Z) : IntArray :=
  foldl (position_row acc seqLen) (fun _ => None) (for_range 0 batchSize).

(** The arguments of [embedding->forward(ids, positions, buf, batchSize,
    seqLen)]. *)
Record EmbeddingCall : Type := mkEmbeddingCall {
  ec_ids : list Z;
  ec_positions : IntArray;
  ec_buf : Z;
  ec_batchSize : Z;
  ec_seqLen : Z
}.

(** [acc] is [this->accSeqLen]; the result is the call handed to the
    embedding. *)
Definition embeddingForward (acc : Z) (ids : list Z) (buf batchSize seqLen : Z)
    : EmbeddingCall :=
  {| ec_ids := ids; ec_positions := positions acc batchSize seqLen; ec_buf := buf;
     ec_batchSize := batchSize; ec_seqLen := seqLen |}.

End OptDecoderEmbedding.

(** ** Construction *)

(** The keys of the model's section of config.ini that the constructor reads
    into the decoder; [None] is a missing key with a default.  An integer
    field is the value of the [int] local that the constructor initialises
    from [reader.GetInteger]. *)
Record ModelConfig : Type := mkModelConfig {
  head_num : Z;
  kv_head_num : option Z;
  size_per_head : Z;
  inter_size : Z;
  num_layer : Z;
  vocab_size : Z;
  max_pos_seq_len : option Z;
  model_max_length : option Z;
  seq_length : option Z;
  hidden_size : option Z;
  quant_qweight_data_type : string;
  quant_scales_data_type : string;
  quant_zeros_data_type : string;
  quant_groupsize : option Z
}.

Definition layers_msg : string :=
  "Warning: layers cannot be evenly divided by pipeline parallel stage size(ppSize)."
  +:+ newline.

Definition quant_checks (cfg : ModelConfig) : Outcome unit :=
  if String.eqb (quant_qweight_data_type cfg) "int8"
     || String.eqb (quant_qweight_data_type cfg) "uint4"
  then
    do _ <- REQUIRES (String.eqb (quant_scales_data_type cfg) "fp32")
                     "scales should be fp32 data type.";
    do _ <- REQUIRES (String.eqb (quant_zeros_data_type cfg) "fp32")
                     "zeros should be fp32 data type.";
    REQUIRES (default (-1) (quant_groupsize cfg) =? -1)
             "Quantization with groupsize is not supported."
  else Returns tt.

Definition context_args (cfg : ModelConfig) : ContextArgs :=
  let attHeadNum := head_num cfg in
  let kvHeadNum := default attHeadNum (kv_head_num cfg) in
  let headSize := size_per_head cfg in
  let maxPosEmbed := default 0 (max_pos_seq_len cfg) in
  let maxPositions := default maxPosEmbed (model_max_length cfg) in
  let hiddenSize := default (attHeadNum *i headSize) (hidden_size cfg) in
  {| a_layers := num_layer cfg; a_hiddenSize := hiddenSize; a_headSize := headSize;
     a_attHeadNum := attHeadNum; a_kvHeadNum := kvHeadNum; a_imSize := inter_size cfg;
     a_vocabSize := vocab_size cfg; a_embeddingSize := hiddenSize;
     a_maxPositions := maxPositions; a_maxPosEmbed := maxPosEmbed;
     a_maxSeqLength := default (-1) (seq_length cfg) |}.

(** How the constructor ends: as a call does (it returns, or exits after a
    diagnostic), or in the undefined behaviour of an integer division that
    has no result, where the process is killed by the trap without any
    diagnostic. *)
Inductive Construction : Type :=
| Ends (o : Outcome Decoder)
| UndefinedDivision.

(** The constructor [CommonDecoder(modelPath, modelType)].  [weight] is the
    content of model.lm_head.weight.bin as the projection it defines, [h0] the
    memory and [ps0] the process-wide queues at construction.  Line 280
    evaluates [layers % ctx->ppSize] whatever [ppSize] is.

    Modelled from the spec: [DecoderBlock]'s constructor is in
    decoder_block.h; by section 4.4 each PP stage owns a fixed contiguous
    subset of the layers, [layers / ppSize] of them. *)
Definition new_CommonDecoder (cfg : ModelConfig) (t : Topology)
    (weight : list f32 -> Z -> f32) (h0 : Heap) (ps0 : PipelineState) : Construction :=
  let a := context_args cfg in
  let layers := a_layers a in
  match (do _ <- quant_checks cfg;
         (* this->context is still null here *)
         getDecoderContext None a t) with
  | Returns ctx =>
      if negb (Int.div_defined layers (ppSize ctx)) then UndefinedDivision
      else if negb (Int.rem layers (ppSize ctx) =? 0) then Ends (Exits (-1) layers_msg)
      else
        let workers := msg_size t in
        let rank := msg_rank t in
        Ends (Returns {| context := ctx; messenger := t;
                         initSeqLen := 0; accSeqLen := 0;
                         prefixSeqLen := 0; prefixSharing := false;
                         mask := {| maskSize := 0; attnMask := fun _ => None |};
                         heap := h0;
                         decoderBlock_size := Int.quot layers (ppSize ctx);
                         predictor := {| dl_inputSize := a_hiddenSize a;
                                         dl_outputSize := a_vocabSize a;
                                         dl_splitIdx := rank; dl_splits := workers;
                                         dl_column := weight |};
                         trace := []; pipeline := ps0 |})
  | Exits code diagnostic => Ends (Exits code diagnostic)
  | Hangs why => Ends (Hangs why)
  end.

(** ** The orchestrator *)

(** A step of a call: it runs on the decoder and returns a value, exits the
    process or never returns; the decoder is what the step left behind. *)
Definition Run (A : Type) : Type := Decoder -> Decoder * Outcome A.

Definition run_ret {A : Type} (a : A) : Run A := fun d => (d, Returns a).

Definition run_bind {A B : Type} (m : Run A) (k : A -> Run B) : Run B :=
  fun d =>
    match m d with
    | (d', Returns a) => k a d'
    | (d', Exits code msg) => (d', Exits code msg)
    | (d', Hangs why) => (d', Hangs why)
    end.

Definition modify (f : Decoder -> Decoder) : Run unit := fun d => (f d, Returns tt).

Notation "'run' x <- m ; k" := (run_bind m (fun x => k))
  (at level 10, x pattern, m at level 100, k at level 200,
   format "'[v' 'run'  x  <-  m ; '/' k ']'").

(** What [forward] returns: [(finalOut, splitOffset, splitSize)] with
    [finalOut] an offset into the activation buffer, or [(nullptr, 0, 0)]. *)
Inductive ForwardResult : Type :=
| Logits (finalOut splitOffset splitSize : Z)
| NullResult.

(** The locals of [forward(ids, dims, step, logitsAll)] once the context is
    prepared. *)
Record Locals : Type := mkLocals {
  l_ids : list Z;
  l_userSideBS : Z;
  l_beamSize : Z;
  l_batchSize : Z;
  l_seqLen : Z;
  l_pastSeqLen : Z;
  l_inputSeqLen : Z;
  l_hiddenSize : Z;
  l_step : Z;
  l_logitsAll : bool
}.

Definition embBuf : Z := 0.
Definition outBuf (L : Locals) : Z :=
  embBuf + l_batchSize L *i l_inputSeqLen L *i l_hiddenSize L.
Definition attnOut : Ptr := TmpPtr 0.

Definition upd_act (f : Mem -> Mem) (d : Decoder) : Decoder :=
  set_heap (set_act (f (act (heap d))) (heap d)) d.

Definition log (e : Event) (d : Decoder) : Decoder := set_trace (trace d ++ [e]) d.

(** [ids + off], [n] tokens. *)
Definition ids_slice (ids : list Z) (off n : Z) : list Z :=
  take (Z.to_nat n) (drop (Z.to_nat off) ids).

Section Orchestrator.

Variable M : Model.

(** An external call: the handler's memory, and the call in the trace. *)
Definition call (e : Event) (d : Decoder) : Decoder :=
  log e (set_heap (extern M e d) d).

Definition resize_context (bs sl psl : Z) (d : Decoder) : Decoder :=
  set_context (ctx_resize (context d) bs sl psl) (call (EvCtxResize bs sl psl) d).

(** [CommonDecoder::prepareBuffers]. *)
Definition prepareBuffers (userSideBS beamSize : Z) (logitsAll prefix : bool)
    (d : Decoder) : Decoder :=
  let ctx := context d in
  let bs := batchSize ctx in
  let hidden := hiddenSize ctx in
  let seqLen := inputSeqLen ctx in
  let vocab := vocabSize ctx in
  let workers := msg_size (messenger d) in
  let rank := msg_rank (messenger d) in
  let logitsLen := if logitsAll then bs *i seqLen else userSideBS *i beamSize in
  let actRows := bs *i seqLen in
  let outRows :=
    if logitsLen *i vocab >? actRows *i hidden
    then Int.quot (logitsLen *i vocab) hidden +i 1
    else actRows in
  let d := call (EvActResize (actRows +i outRows) hidden) d in
  let sizeRequired := bs *i seqLen *i seqLen in
  let d := set_mask (getAttnMask (mask d) sizeRequired) d in
  let ranges := getHeadRange M (attHeadNum ctx) (kvHeadNum ctx) workers rank in
  let kvRange := snd ranges in
  let headsPerSplit := snd kvRange -i fst kvRange in
  call (EvKVResize (if prefix then prefixSeqLen d else maxPositions ctx)
                   (userSideBS *i beamSize) headsPerSplit (attHeadSize ctx) prefix) d.

(** Lines 321-357 of [forward]: the locals, the context, the reset at step 0,
    the split of the input under prefix sharing, the buffers. *)
Definition forward_setup (ids : list Z) (dims : Z * Z * Z) (step : Z) (logitsAll : bool)
    (d : Decoder) : Decoder * Locals :=
  let '(dims0, dims1, dims2) := dims in
  let userSideBS := Int.of_int64 dims0 in
  let beamSize := Int.of_int64 dims1 in
  let bs := if step =? 0 then userSideBS else userSideBS *i beamSize in
  let seqLen := Int.of_int64 dims2 in
  let pastSeqLen := if step =? 0 then 0 else accSeqLen d in
  let inputSeqLen := seqLen in
  let d := resize_context bs seqLen pastSeqLen d in
  let hidden := hiddenSize (context d) in
  let mk ids' past input :=
    {| l_ids := ids'; l_userSideBS := userSideBS; l_beamSize := beamSize;
       l_batchSize := bs; l_seqLen := seqLen; l_pastSeqLen := past;
       l_inputSeqLen := input; l_hiddenSize := hidden;
       l_step := step; l_logitsAll := logitsAll |} in
  if step =? 0 then
    (* Reset initial and accumulated sequence length at the first step *)
    let d := set_accSeqLen 0 (set_initSeqLen seqLen d) in
    if prefixSharing d then
      let pastSeqLen := prefixSeqLen d in
      let inputSeqLen := seqLen -i pastSeqLen in
      let prefixIDs :=
        concat ((fun b => ids_slice ids (seqLen *i b) pastSeqLen) <$> for_range 0 userSideBS) in
      let newIDs :=
        concat ((fun b => ids_slice ids (seqLen *i b + pastSeqLen) inputSeqLen)
                  <$> for_range 0 userSideBS) in
      let d := call (EvGetPositionIds prefixIDs bs pastSeqLen 0) d in
      let d := resize_context bs inputSeqLen pastSeqLen d in
      (prepareBuffers userSideBS beamSize logitsAll false d, mk newIDs pastSeqLen inputSeqLen)
    else
      (prepareBuffers userSideBS beamSize logitsAll false d, mk ids pastSeqLen inputSeqLen)
  else (d, mk ids pastSeqLen inputSeqLen).

Definition embedding_msg : string :=
  "embeddingForward(float) must be implemented." +:+ newline.
Definition lastLayerNorm_msg : string :=
  "lastLayerNormForward(float) must be implemented." +:+ newline.

(** [this->embeddingForward(ids, embBuf, tokenSize)]. *)
Definition embeddingForward (ids : list Z) (out tokenSize : Z) : Run unit :=
  fun d =>
    if embeddingForward_overridden M
    then (call (EvEmbedding ids (ActPtr out) tokenSize) d, Returns tt)
    else (d, Exits (-1) embedding_msg).

(** Lines 374-379: the attention mask and the position ids. *)
Definition prepare_mask_and_positions (L : Locals) (d : Decoder) : Decoder :=
  let step' := l_step L +i Int.of_bool (prefixSharing d) in
  let d := set_mask (prepareAttnMask M (context d) (accSeqLen d) (mask d) (l_ids L) step') d in
  call (EvGetPositionIds (l_ids L) (l_batchSize L) (l_inputSeqLen L) step') d.

(** *** Pipeline-parallel admission (lines 382-422, [#ifdef PIPELINE_PARALLEL]) *)

Definition activation_count (L : Locals) : Z :=
  l_batchSize L *i l_inputSeqLen L *i l_hiddenSize L.

(** [TaskWaitingQueue::getInstance().push(p)] as a statement: the call's
    result, if it has one, is not looked at. *)
Definition push_ready (x : Z) : Run unit :=
  fun d =>
    match TaskWaitingQueue.push (readyQueue (pipeline d)) x with
    | TaskWaitingQueue.Pushed q' =>
        (set_pipeline (set_readyQueue q' (pipeline d)) d, Returns tt)
    | TaskWaitingQueue.Rejected => (d, Returns tt)
    | TaskWaitingQueue.Blocked => (d, Hangs PushBlockedOnFullQueue)
    end.

(** The group registered for the activations now in [embBuf]. *)
Definition admitted_group (g : SequenceGroupMeta) (L : Locals) (d : Decoder)
    : SequenceGroupMeta :=
  allocBuffer (setPastSeqLen g (l_pastSeqLen L)) (l_hiddenSize L) (act (heap d)) embBuf.

(** Lines 384-401: a stage that is not the first receives the sequence
    identifier and the activations of the previous stage, registers the
    sequence group if it is new, and pushes it on the ready queue. *)
Definition pp_recv (L : Locals) : Run unit :=
  fun d =>
    let ctx := context d in
    if PIPELINE_PARALLEL M && (ppSize ctx >? 1) && (ppRank ctx >? 0) then
      let curr_world_rank := ppRank ctx *i tpSize ctx +i tpRank ctx in
      let prev_world_rank := (ppRank ctx -i 1) *i tpSize ctx +i tpRank ctx in
      let count := activation_count L in
      match inbox (pipeline d) with
      | [] => (d, Hangs RecvWithoutMessage)
      | (sequenceID, payload) :: rest =>
          let d := set_pipeline (set_inbox rest (pipeline d)) d in
          let d := upd_act (fun m => mem_store m embBuf count
                                        (fun k => nth (Z.to_nat k) payload 0)) d in
          let d := log (EvRecv prev_world_rank curr_world_rank sequenceID count) d in
          let pool := sequencePool (pipeline d) in
          let pool :=
            match pool !! sequenceID with
            | Some _ => pool
            | None =>
                <[sequenceID := admitted_group (newGroupMeta sequenceID (l_seqLen L)) L d]> pool
            end in
          let d := set_pipeline (set_sequencePool pool (pipeline d)) d in
          push_ready sequenceID d
      end
    else (d, Returns tt).

(** Lines 403-412: one locally queued request is admitted if the ready queue
    is not full. *)
Definition pp_input (L : Locals) : Run unit :=
  fun d =>
    if PIPELINE_PARALLEL M then
      match inputQueue (pipeline d) with
      | [] => (d, Returns tt)
      | groupMeta :: rest =>
          if TaskWaitingQueue.isFull (readyQueue (pipeline d)) then (d, Returns tt)
          else
            let d := set_pipeline (set_inputQueue rest (pipeline d)) d in
            let g := admitted_group groupMeta L d in
            let pool := <[sequenceID g := g]> (sequencePool (pipeline d)) in
            let d := set_pipeline (set_sequencePool pool (pipeline d)) d in
            push_ready (sequenceID g) d
      end
    else (d, Returns tt).

(** Lines 414-421: wait for a ready sequence group and pop it.  The result is
    [sequenceID] and whether the layer loop is entered. *)
Definition pp_select : Run (Z * bool) :=
  fun d =>
    if PIPELINE_PARALLEL M then
      if TaskWaitingQueue.empty (readyQueue (pipeline d))
      then (d, Hangs SpinOnEmptyQueue)
      else
        match TaskWaitingQueue.pop (readyQueue (pipeline d)) with
        | Some (runningTask, q') =>
            (set_pipeline (set_readyQueue q' (pipeline d)) d, Returns (runningTask, true))
        | None => (d, Returns (-1, false))
        end
    else (d, Returns (-1, true)).

Definition pp_admission (L : Locals) : Run (Z * bool) :=
  run _ <- pp_recv L;
  run _ <- pp_input L;
  pp_select.

(** Lines 492-502: a stage that is not the last sends the activations on and
    the call returns [(nullptr, 0, 0)]; the result says whether it did. *)
Definition pp_send (L : Locals) (sequenceID : Z) : Run bool :=
  fun d =>
    let ctx := context d in
    if PIPELINE_PARALLEL M && (ppSize ctx >? 1) && (ppRank ctx <? ppSize ctx -i 1) then
      let next_world_rank := (ppRank ctx +i 1) *i tpSize ctx +i tpRank ctx in
      let count := activation_count L in
      (log (EvSend next_world_rank next_world_rank sequenceID count
                   (mem_load (act (heap d)) embBuf count)) d, Returns true)
    else (d, Returns false).

(** *** The per-layer loop (lines 436-487) *)

Definition layer_step (L : Locals) (d : Decoder) (i : Z) : Decoder :=
  let workers := msg_size (messenger d) in
  let step := l_step L in
  let hidden := l_hiddenSize L in
  let emb := ActPtr embBuf in
  let out := ActPtr (outBuf L) in
  let d :=
    if (step =? 0) && prefixSharing d
    then call (EvExpandPrefixCache i (l_userSideBS L) (prefixSeqLen d)) d
    else d in
  let d := call (EvForwardAttention i emb out attnOut
                   (l_inputSeqLen L) (l_pastSeqLen L) (step =? 0) true) d in
  (* Expand the KV cache as it only has values for beam 0 *)
  let d :=
    if (step =? 0) && (l_beamSize L >? 1)
    then call (EvExpandCache i (l_userSideBS L) (l_beamSize L) (l_seqLen L)) d
    else d in
  (* Merge the result of attention *)
  let d :=
    if negb (ATTN_MLP_PARALLEL M) then
      if workers >? 1 then call (EvReduceAdd attnOut attnOut (activation_count L)) d else d
    else d in
  if ATTN_MLP_PARALLEL M then
    if workers >? 1 then
      let d := call (EvForwardFFN i emb out hidden hidden true) d in
      call (EvReduceAdd out emb (activation_count L)) d
    else call (EvForwardFFN i emb emb hidden hidden true) d
  else
    if workers >? 1 then
      let d := call (EvForwardFFN i attnOut out hidden hidden true) d in
      call (EvReduceAdd out emb (activation_count L)) d
    else call (EvForwardFFN i attnOut emb hidden hidden true) d.

Definition layer_loop (L : Locals) (d : Decoder) : Decoder :=
  let layers_per_pp_stage := decoderBlock_size d in
  foldl (layer_step L) d (for_range 0 layers_per_pp_stage).

(** *** Final normalisation, projection and beam replication (lines 505-588) *)

(** Lines 510-514: the last row of every batch item, gathered at [lnIn]. *)
Definition copy_last_rows (L : Locals) (lnIn : Z) (m : Mem) : Mem :=
  let hidden := l_hiddenSize L in
  foldl (fun m b =>
           memcpy m (lnIn + b *i hidden)
                    (embBuf + ((b +i 1) *i l_inputSeqLen L -i 1) *i hidden) hidden)
        m (for_range 0 (l_batchSize L)).

(** Lines 573-581: the row of prompt [b] copied to the rows of its beams. *)
Definition replicate_prompt (beamSize splitSize finalOut : Z) (m : Mem) (b : Z) : Mem :=
  let src := finalOut + b *i splitSize in
  foldl (fun m idx =>
           if idx =? b then m
           else memcpy m (finalOut + idx *i splitSize) src splitSize)
        m (for_range (b *i beamSize) ((b +i 1) *i beamSize)).

Definition beam_replicate (userSideBS beamSize splitSize finalOut : Z) (m : Mem) : Mem :=
  foldl (replicate_prompt beamSize splitSize finalOut) m (for_down userSideBS).

(** The number of rows normalised and projected. *)
Definition logit_rows (L : Locals) : Z :=
  if l_logitsAll L then l_batchSize L *i l_seqLen L else l_batchSize L.

Definition needs_copy (L : Locals) : bool :=
  (l_inputSeqLen L >? 1) && negb (l_logitsAll L).

Definition final_stage (L : Locals) : Run ForwardResult :=
  fun d =>
    let hidden := l_hiddenSize L in
    let lnIn := if needs_copy L then outBuf L else embBuf in
    let d := if needs_copy L then upd_act (copy_last_rows L lnIn) d else d in
    (* LN, as it supports inplace computing, input and output can be the same *)
    let lnOut := embBuf in
    match lastLayerNormForward_row M with
    | None => (d, Exits (-1) lastLayerNorm_msg)
    | Some ln =>
        let d := upd_act (fun m => rowwise ln hidden hidden m lnIn lnOut (logit_rows L)) d in
        let d := log (EvLastLayerNorm (ActPtr lnIn) (ActPtr lnOut) (logit_rows L)) d in
        (* Predictor *)
        let splitSize := getSplitSize (predictor d) in
        let finalOut := outBuf L in
        let d := upd_act (fun m => DistLinear_forward (predictor d) m lnOut finalOut
                                     (logit_rows L)) d in
        let d := log (EvPredictor (ActPtr lnOut) (ActPtr finalOut) (logit_rows L)) d in
        (* Expand the result to make it cover multiple beams *)
        let d :=
          if (l_step L =? 0) && (l_beamSize L >? 1)
          then upd_act (beam_replicate (l_userSideBS L) (l_beamSize L) splitSize finalOut) d
          else d in
        (d, Returns (Logits finalOut (getSplitOffset (predictor d)) (getSplitSize (predictor d))))
    end.

(** *** [forward(ids, dims, step, logitsAll)] *)

(** Lines 359-502: embedding, the accumulated length, mask and positions,
    admission, the layers, the hand-over to the next stage.  The result says
    whether the activations were sent on. *)
Definition forward_layers (L : Locals) : Run bool :=
  run _ <- embeddingForward (l_ids L) embBuf (l_batchSize L *i l_inputSeqLen L);
  run _ <- modify (fun d => set_accSeqLen (accSeqLen d +i l_seqLen L) d);
  run _ <- modify (prepare_mask_and_positions L);
  run task <- pp_admission L;
  run _ <- modify (fun d => if snd task then layer_loop L d else d);
  pp_send L (fst task).

Definition forward_from (L : Locals) : Run ForwardResult :=
  run sent <- forward_layers L;
  if sent then run_ret NullResult else final_stage L.

Definition forward (ids : list Z) (dims : Z * Z * Z) (step : Z) (logitsAll : bool)
    : Run ForwardResult :=
  fun d => forward_from (snd (forward_setup ids dims step logitsAll d))
                        (fst (forward_setup ids dims step logitsAll d)).

(** The locals of a call, as [forward] computes them. *)
Definition locals_of (ids : list Z) (dims : Z * Z * Z) (step : Z) (logitsAll : bool)
    (d : Decoder) : Locals :=
  snd (forward_setup ids dims step logitsAll d).

(** The decoder of a call when its layers are done, before the final
    normalisation: its activation buffer holds the hidden states. *)
Definition hidden_state (ids : list Z) (dims : Z * Z * Z) (step : Z) (logitsAll : bool)
    (d : Decoder) : Decoder :=
  fst (forward_layers (locals_of ids dims step logitsAll d)
                      (fst (forward_setup ids dims step logitsAll d))).

(** *** [forward(seqs, logitsAll)], the continuous-batch entry point *)

Record SequenceMeta : Type := mkSequenceMeta {
  sm_sequenceID : Z;
  sm_inputSeqLen : Z;       (* getInputSeqLen() *)
  sm_pastSeqLen : Z;        (* getPastSeqLen() *)
  sm_step : Z;              (* getStep() *)
  sm_inputTokens : list Z   (* getInputTokens() *)
}.

(** Lines 646-653: the last row of every sequence, gathered in place. *)
Definition gather_last_rows (hidden : Z) (seqs : list SequenceMeta) (m : Mem) : Mem :=
  snd (foldl (fun '(offset, m) '(b, seq) =>
                let offset := offset +i sm_inputSeqLen seq in
                (offset, memcpy m (embBuf + b *i hidden) (embBuf + offset *i hidden) hidden))
             (-1, m) (zip (seqZ 0 (Z.of_nat (length seqs))) seqs)).

Definition forward_seqs (seqs : list SequenceMeta) (logitsAll : bool) : Run ForwardResult :=
  fun d =>
    match seqs with
    | [] => (d, Returns NullResult)
    | seq0 :: _ =>
        let ctx := context d in
        let bs := Z.of_nat (length seqs) in
        let hidden := hiddenSize ctx in
        (* Prepare input *)
        let totInputSeqLen := foldl (fun a s => a +i sm_inputSeqLen s) 0 seqs in
        let totPastSeqLen := foldl (fun a s => a +i sm_pastSeqLen s) 0 seqs in
        let allInputIds := concat (sm_inputTokens <$> seqs) in
        (* Prepare context *)
        let d := call (EvCtxResizeTotal totInputSeqLen (totInputSeqLen +i totPastSeqLen)) d in
        (* Prepare buffers *)
        let logitRows :=
          if negb logitsAll && (sm_step seq0 =? 0) then bs else totInputSeqLen in
        let outRows := ceil_ratio M logitRows (vocabSize ctx) hidden in
        let d := call (EvActResize (totInputSeqLen +i outRows) hidden) d in
        let out := embBuf + totInputSeqLen *i hidden in
        (run _ <- embeddingForward allInputIds embBuf totInputSeqLen;
         (* Decoder block (all layers) *)
         run _ <- modify (call (EvDecoderBlockForward (sm_sequenceID <$> seqs)
                                  (ActPtr embBuf) (ActPtr embBuf)));
         run _ <- modify (fun d =>
                    if negb (logitRows =? totInputSeqLen)
                    then upd_act (gather_last_rows hidden seqs) d else d);
         fun d =>
           match lastLayerNormForward_row M with
           | None => (d, Exits (-1) lastLayerNorm_msg)
           | Some ln =>
               let d := upd_act (fun m => rowwise ln hidden hidden m embBuf embBuf logitRows) d in
               let d := log (EvLastLayerNorm (ActPtr embBuf) (ActPtr embBuf) logitRows) d in
               let d := upd_act (fun m => DistLinear_forward (predictor d) m embBuf out
                                            logitRows) d in
               let d := log (EvPredictor (ActPtr embBuf) (ActPtr out) logitRows) d in
               (d, Returns (Logits out (getSplitOffset (predictor d))
                                   (getSplitSize (predictor d))))
           end) d
    end.

(** *** The small entry points *)

Definition unsetPrefix (d : Decoder) : Decoder := set_prefix false (prefixSeqLen d) d.

Definition reorderCache (idx : list Z) (size : Z) (d : Decoder) : Decoder :=
  call (EvReorderCache idx size (initSeqLen d) (accSeqLen d)) d.

(** When first step is skipped, call this function to make everything aligned. *)
Definition skipFirstStep (initSeqLen' : Z) (d : Decoder) : Decoder :=
  set_accSeqLen initSeqLen' (set_initSeqLen initSeqLen' d).

(** *** A generation: one step-0 call followed by the calls of steps 1..N *)

Record Call : Type := mkCall {
  c_ids : list Z;
  c_dims : Z * Z * Z;
  c_logitsAll : bool
}.

Definition c_seqLen (c : Call) : Z := Int.of_int64 (snd (c_dims c)).
Definition c_beamSize (c : Call) : Z := Int.of_int64 (snd (fst (c_dims c))).
Definition c_userSideBS (c : Call) : Z := Int.of_int64 (fst (fst (c_dims c))).

(** The decoder and the outcome after each call, the [k]-th call being made
    with [step = first + k]; nothing is called after a call that did not
    return. *)
Fixpoint generation (first : Z) (calls : list Call) (d : Decoder)
    : list (Decoder * Outcome ForwardResult) :=
  match calls with
  | [] => []
  | c :: rest =>
      let r := forward (c_ids c) (c_dims c) first (c_logitsAll c) d in
      r :: (if returned (snd r) then generation (first + 1) rest (fst r) else [])
  end.

End Orchestrator.

(** ** The accumulation kernel [xft::addto] *)

(** A [__m512] register: 16 binary32 lanes, lane [k] at index [k]. *)
Definition m512 : Type := Z -> f32.

Definition kStep : Z := 16.

(** The masked unaligned load and store of AVX-512 on a [float] buffer
    ([_mm512_maskz_loadu_ps] and [_mm512_mask_storeu_ps]): lane [k] is read
    from, or written to, [p + k] when bit [k] of the mask is set; a lane that
    is not selected is read as [+0.0f] and is not written. *)
Definition mm512_maskz_loadu_ps (mask : Z) (m : Mem) (p : Z) : m512 :=
  fun k => if Z.testbit mask k then m (p + k) else f32_zero.

Definition mm512_mask_storeu_ps (m : Mem) (p : Z) (mask : Z) (v : m512) : Mem :=
  fun a => if in_block p kStep a && Z.testbit mask (a - p) then v (a - p) else m a.

(** The conversion of an [int] to [__mmask16]. *)
Definition mmask16 (x : Z) : Z := Z.land x 0xFFFF.

Section Addto.

(** [load_avx512(mask, p)] and [store_avx512(p, mask, v)] are the helpers of
    intrinsics_util.h that [addto] calls; what they do is a parameter here. *)
Variable load_avx512 : Z -> Mem -> Z -> m512.
Variable store_avx512 : Mem -> Z -> Z -> m512 -> Mem.

(** Binary32 addition and fused multiply-add [a * b + c], which
    [_mm512_add_ps] and [_mm512_fmadd_ps] apply lane by lane. *)
Variable add_ps : f32 -> f32 -> f32.
Variable fmadd_ps : f32 -> f32 -> f32 -> f32.

Definition mm512_add_ps (a b : m512) : m512 := fun k => add_ps (a k) (b k).
Definition mm512_fmadd_ps (a b c : m512) : m512 := fun k => fmadd_ps (a k) (b k) (c k).
Definition mm512_set1_ps (x : f32) : m512 := fun _ => x.

(** [addto(dst, src, size)] with [T1 = T2 = float]: [dst] and [src] are
    element offsets into one memory. *)
Definition addto (dst src size : Z) (m : Mem) : Mem :=
  let blockSize := Int.quot size kStep in
  let remainder := Int.rem size kStep in
  let m :=
    foldl (fun m i =>
             let u := load_avx512 0xffff m (dst + i *i kStep) in
             let v := load_avx512 0xffff m (src + i *i kStep) in
             store_avx512 m (dst + i *i kStep) 0xffff (mm512_add_ps u v))
          m (for_range 0 blockSize) in
  if negb (remainder =? 0) then
    let mask := mmask16 (Z.shiftr 0xFFFF (kStep -i remainder)) in
    let u := load_avx512 mask m (dst + size - remainder) in
    let v := load_avx512 mask m (src + size - remainder) in
    store_avx512 m (dst + size - remainder) mask (mm512_add_ps u v)
  else m.

(** [addto(dst, src, scale, size)]. *)
Definition addto_scale (dst src : Z) (scale : f32) (size : Z) (m : Mem) : Mem :=
  let blockSize := Int.quot size kStep in
  let remainder := Int.rem size kStep in
  let scale_v := mm512_set1_ps scale in
  let m :=
    foldl (fun m i =>
             let u := load_avx512 0xffff m (dst + i *i kStep) in
             let v := load_avx512 0xffff m (src + i *i kStep) in
             store_avx512 m (dst + i *i kStep) 0xffff (mm512_fmadd_ps v scale_v u))
          m (for_range 0 blockSize) in
  if negb (remainder =? 0) then
    let mask := mmask16 (Z.shiftr 0xFFFF (kStep -i remainder)) in
    let u := load_avx512 mask m (dst + size - remainder) in
    let v := load_avx512 mask m (src + size - remainder) in
    store_avx512 m (dst + size - remainder) mask (mm512_fmadd_ps v scale_v u)
  else m.

End Addto.

(** The shape the two overloads share when the helpers are the masked load
    and store: [op u v] is the register stored, [u] loaded from [dst] and [v]
    from [src]. *)
Definition addto_kernel (op : m512 -> m512 -> m512) (dst src size : Z) (m : Mem) : Mem :=
  let blockSize := Int.quot size kStep in
  let remainder := Int.rem size kStep in
  let m :=
    foldl (fun m i =>
             let u := mm512_maskz_loadu_ps 0xffff m (dst + i *i kStep) in
             let v := mm512_maskz_loadu_ps 0xffff m (src + i *i kStep) in
             mm512_mask_storeu_ps m (dst + i *i kStep) 0xffff (op u v))
          m (for_range 0 blockSize) in
  if negb (remainder =? 0) then
    let mask := mmask16 (Z.shiftr 0xFFFF (kStep -i remainder)) in
    let u := mm512_maskz_loadu_ps mask m (dst + size - remainder) in
    let v := mm512_maskz_loadu_ps mask m (src + size - remainder) in
    mm512_mask_storeu_ps m (dst + size - remainder) mask (op u v)
  else m.

(** Element-wise accumulation: what the kernel is to compute. *)
Definition accumulate (combine : f32 -> f32 -> f32) (dst src size : Z) (m : Mem) : Mem :=
  fun a => if in_block dst size a then combine (m a) (m (src + (a - dst))) else m a.

(** ** Vocabulary for stating the properties *)

Definition sumZ (l : list Z) : Z := foldr Z.add 0 l.

Definition c_dims2 (c : Call) : Z := snd (c_dims c).

(** The decoder a generation ends in. *)
Definition final_decoder (runs : list (Decoder * Outcome ForwardResult)) (d : Decoder)
    : Decoder :=
  match last runs with Some r => fst r | None => d end.

(** The calls that [d'] has made since [d]. *)
Definition events_since (d d' : Decoder) : list Event :=
  drop (length (trace d)) (trace d').

Definition is_expandCache (e : Event) : bool :=
  match e with EvExpandCache _ _ _ _ => true | _ => false end.
Definition is_expandCache_of (i : Z) (e : Event) : bool :=
  match e with EvExpandCache layer _ _ _ => layer =? i | _ => false end.
Definition is_attention_of (i : Z) (e : Event) : bool :=
  match e with EvForwardAttention layer _ _ _ _ _ _ _ => layer =? i | _ => false end.
Definition is_layer_event (e : Event) : bool :=
  match e with
  | EvExpandPrefixCache _ _ _ | EvForwardAttention _ _ _ _ _ _ _ _ | EvExpandCache _ _ _ _
  | EvReduceAdd _ _ _ | EvForwardFFN _ _ _ _ _ _ => true
  | _ => false
  end.
Definition is_reduce_or_ffn (e : Event) : bool :=
  match e with EvReduceAdd _ _ _ | EvForwardFFN _ _ _ _ _ _ => true | _ => false end.

(** [d'] is [d] after some steps that keep the topology, the prefix setting,
    the layers and the projection, and whose external calls all satisfy [P]. *)
Record advances (P : Event -> Prop) (d d' : Decoder) : Prop := mkAdvances {
  adv_messenger : messenger d' = messenger d;
  adv_prefixSeqLen : prefixSeqLen d' = prefixSeqLen d;
  adv_prefixSharing : prefixSharing d' = prefixSharing d;
  adv_block : decoderBlock_size d' = decoderBlock_size d;
  adv_predictor : predictor d' = predictor d;
  adv_trace : exists E, trace d' = trace d ++ E /\ Forall P E;
  (* the context but for its per-call shape *)
  adv_context : ctx_resize (context d') 0 0 0 = ctx_resize (context d) 0 0 0
}.

Definition not_layer_event (e : Event) : Prop := is_layer_event e = false.
Definition any_event (e : Event) : Prop := True.

(** The calls of one iteration of the layer loop up to the cache expansion. *)
Definition attention_events (L : Locals) (sharing : bool) (prefixLen : Z) (i : Z)
    : list Event :=
  (if (l_step L =? 0) && sharing
   then [EvExpandPrefixCache i (l_userSideBS L) prefixLen] else [])
  ++ [EvForwardAttention i (ActPtr embBuf) (ActPtr (outBuf L)) attnOut
        (l_inputSeqLen L) (l_pastSeqLen L) (l_step L =? 0) true]
  ++ (if (l_step L =? 0) && (l_beamSize L >? 1)
      then [EvExpandCache i (l_userSideBS L) (l_beamSize L) (l_seqLen L)] else []).

(** The reduction protocol of section 4.5, steps 7b and 7c, in the
    specification's words: without attention/FFN parallelism the attention
    output is all-reduced when the TP group has more than one rank, FFN runs
    on it and its result is reduced into the running buffer when the group has
    more than one rank; with parallelism FFN runs on the layer's input and
    attention is not reduced on its own. *)
Definition reduction_protocol (parallel : bool) (workers : Z) (L : Locals) (i : Z)
    : list Event :=
  let emb := ActPtr embBuf in
  let out := ActPtr (outBuf L) in
  let n := activation_count L in
  let h := l_hiddenSize L in
  match parallel, workers >? 1 with
  | false, true =>
      [EvReduceAdd attnOut attnOut n; EvForwardFFN i attnOut out h h true;
       EvReduceAdd out emb n]
  | false, false => [EvForwardFFN i attnOut emb h h true]
  | true, true => [EvForwardFFN i emb out h h true; EvReduceAdd out emb n]
  | true, false => [EvForwardFFN i emb emb h h true]
  end.

(** The ready queue of the decoder's process. *)
Definition ready (d : Decoder) : TaskWaitingQueue.t := readyQueue (pipeline d).

(** A step keeps a property of the decoder, however it ends. *)
Definition preserves {A : Type} (I : Decoder -> Prop) (m : Run A) : Prop :=
  forall d, I d -> I (fst (m d)).

(** The calls of iteration [i] of the layer loop. *)
Definition layer_events (M : Model) (L : Locals) (d : Decoder) (i : Z) : list Event :=
  attention_events L (prefixSharing d) (prefixSeqLen d) i
  ++ reduction_protocol (ATTN_MLP_PARALLEL M) (msg_size (messenger d)) L i.

Definition loop_events (M : Model) (L : Locals) (d : Decoder) : list Event :=
  concat (layer_events M L d <$> for_range 0 (decoderBlock_size d)).

Definition no_expandCache (e : Event) : Prop := is_expandCache e = false.

(** The hidden row of the last input token of batch item [b]. *)
Definition last_token_row (L : Locals) (m : Mem) (b : Z) : list f32 :=
  mem_load m (embBuf + ((b + 1) * l_inputSeqLen L - 1) * l_hiddenSize L) (l_hiddenSize L).

(** The hidden row of input position [r] (over all batch items). *)
Definition hidden_row (L : Locals) (m : Mem) (r : Z) : list f32 :=
  mem_load m (embBuf + r * l_hiddenSize L) (l_hiddenSize L).

(** The logits row of one hidden row: final normalisation, then projection
    onto this rank's shard of the vocabulary. *)
Definition logits_row (p : DistLinear) (ln : list f32 -> Z -> f32) (row : list f32)
    : list f32 :=
  dl_column p (ln row <$> seqZ 0 (dl_inputSize p)) <$> seqZ 0 (getSplitSize p).

(** Row [idx] of the logits a call returned. *)
Definition returned_row (d' : Decoder) (finalOut splitSize idx : Z) : list f32 :=
  mem_load (act (heap d')) (finalOut + idx * splitSize) splitSize.

(** The activation buffer once the rows are normalised and projected, before
    they are replicated over the beams. *)
Definition projected_memory (ln : list f32 -> Z -> f32) (L : Locals) (d : Decoder) : Mem :=
  let m := act (heap d) in
  let lnIn := if needs_copy L then outBuf L else embBuf in
  let m := if needs_copy L then copy_last_rows L lnIn m else m in
  let m := rowwise ln (l_hiddenSize L) (l_hiddenSize L) m lnIn embBuf (logit_rows L) in
  DistLinear_forward (predictor d) m embBuf (outBuf L) (logit_rows L).


(** The projection of a decoder agrees with its context and topology, as the
    constructor makes it. *)
Definition consistent (d : Decoder) : Prop :=
  dl_inputSize (predictor d) = hiddenSize (context d)
  /\ dl_outputSize (predictor d) = vocabSize (context d)
  /\ dl_splits (predictor d) = msg_size (messenger d)
  /\ dl_splitIdx (predictor d) = msg_rank (messenger d).

(** *** Vocabulary for the calls of [forward] *)

(** [d'] is [d] with the same context, lengths and mask buffer. *)
Record keeps (d d' : Decoder) : Prop := mkKeeps {
  k_context : context d' = context d;
  k_initSeqLen : initSeqLen d' = initSeqLen d;
  k_accSeqLen : accSeqLen d' = accSeqLen d;
  k_mask : mask d' = mask d
}.

(** What an attention call is given: layer, [inputSeqLen], [pastSeqLen],
    [useSelfAttn]. *)
Definition attention_of (e : Event) : option (Z * Z * Z * bool) :=
  match e with
  | EvForwardAttention layer _ _ _ inputSeqLen pastSeqLen useSelfAttn _ =>
      Some (layer, inputSeqLen, pastSeqLen, useSelfAttn)
  | _ => None
  end.

(** The rank of a process in [MPI_COMM_WORLD]: stage after stage, the ranks
    of a stage's TP group in order ([curr_world_rank] of line 385). *)
Definition world_rank (c : DecoderContext) : Z := ppRank c *i tpSize c +i tpRank c.

(** The conditions of lines 384 and 493: this stage receives its input from
    the previous one; this stage sends its output to the next one. *)
Definition stage_receives (M : Model) (c : DecoderContext) : bool :=
  PIPELINE_PARALLEL M && (ppSize c >? 1) && (ppRank c >? 0).
Definition stage_sends (M : Model) (c : DecoderContext) : bool :=
  PIPELINE_PARALLEL M && (ppSize c >? 1) && (ppRank c <? ppSize c -i 1).

(** The calls of lines 363 and 379, and those of lines 532-551. *)
Definition embedding_events (L : Locals) (sharing : bool) : list Event :=
  [EvEmbedding (l_ids L) (ActPtr embBuf) (l_batchSize L *i l_inputSeqLen L);
   EvGetPositionIds (l_ids L) (l_batchSize L) (l_inputSeqLen L)
     (l_step L +i Int.of_bool sharing)].

Definition final_events (L : Locals) : list Event :=
  [EvLastLayerNorm (ActPtr (if needs_copy L then outBuf L else embBuf)) (ActPtr embBuf)
     (logit_rows L);
   EvPredictor (ActPtr embBuf) (ActPtr (outBuf L)) (logit_rows L)].

Definition is_setup_event (e : Event) : bool :=
  match e with
  | EvCtxResize _ _ _ | EvActResize _ _ | EvKVResize _ _ _ _ _ | EvGetPositionIds _ _ _ _ =>
      true
  | _ => false
  end.

Definition is_final_call (e : Event) : bool :=
  match e with EvLastLayerNorm _ _ _ | EvPredictor _ _ _ => true | _ => false end.

(** [actBuffers->Resize] and [kvCacheMgr->resize]. *)
Definition is_buffer_resize (e : Event) : bool :=
  match e with EvActResize _ _ | EvKVResize _ _ _ _ _ => true | _ => false end.

(** *** Vocabulary for [forward(seqs, logitsAll)] *)

(** The decoder of [forward(seqs, logitsAll)] when the decoder block has run
    (lines 599-641), before the last rows are gathered: its activation buffer
    holds the hidden states. *)
Definition seqs_hidden_state (M : Model) (seqs : list SequenceMeta) (logitsAll : bool)
    (d : Decoder) : Decoder :=
  let ctx := context d in
  let bs := Z.of_nat (length seqs) in
  let hidden := hiddenSize ctx in
  let totInputSeqLen := foldl (fun a s => a +i sm_inputSeqLen s) 0 seqs in
  let totPastSeqLen := foldl (fun a s => a +i sm_pastSeqLen s) 0 seqs in
  let allInputIds := concat (sm_inputTokens <$> seqs) in
  let d := call M (EvCtxResizeTotal totInputSeqLen (totInputSeqLen +i totPastSeqLen)) d in
  let logitRows :=
    if negb logitsAll && (default 0 (sm_step <$> head seqs) =? 0)
    then bs else totInputSeqLen in
  let outRows := ceil_ratio M logitRows (vocabSize ctx) hidden in
  let d := call M (EvActResize (totInputSeqLen +i outRows) hidden) d in
  let d := call M (EvEmbedding allInputIds (ActPtr embBuf) totInputSeqLen) d in
  call M (EvDecoderBlockForward (sm_sequenceID <$> seqs) (ActPtr embBuf) (ActPtr embBuf)) d.

(** The tokens of all the sequences. *)
Definition total_input (seqs : list SequenceMeta) : Z := sumZ (sm_inputSeqLen <$> seqs).

(** The row of the last token of sequence [b] among the rows of all the
    sequences. *)
Definition last_row_offset (seqs : list SequenceMeta) (b : Z) : Z :=
  total_input (take (Z.to_nat b + 1) seqs) - 1.

(** ** A small instance to run the model on *)

Module Toy.

(** The embedding writes [10 * token + column] in the row of each token;
    every other external call leaves memory as it is. *)
Definition handler (e : Event) (d : Decoder) : Heap :=
  match e with
  | EvEmbedding ids (ActPtr out) tokenSize =>
      let h := hiddenSize (context d) in
      set_act (mem_store (act (heap d)) out (tokenSize * h)
                 (fun k => 10 * nth (Z.to_nat (k `quot` h)) ids 0 + k `rem` h))
              (heap d)
  | _ => heap d
  end.

Definition layerNorm (row : list f32) (k : Z) : f32 := nth (Z.to_nat k) row 0 + 1.

Definition weight (row : list f32) (k : Z) : f32 := 100 * sumZ row + k.

Definition model (pipeline parallel : bool) : Model :=
  {| ATTN_MLP_PARALLEL := parallel;
     PIPELINE_PARALLEL := pipeline;
     embeddingForward_overridden := true;
     lastLayerNormForward_row := Some layerNorm;
     prepareAttnMask := OptDecoder.prepareAttnMask;
     getHeadRange := fun heads kvHeads workers rank => ((0, heads), (0, kvHeads));
     ceil_ratio := fun rows vocab hidden => (rows * vocab + hidden - 1) `quot` hidden;
     extern := handler |}.

Definition config : ModelConfig :=
  {| head_num := 2; kv_head_num := None; size_per_head := 1; inter_size := 4;
     num_layer := 2; vocab_size := 3; max_pos_seq_len := Some 16;
     model_max_length := None; seq_length := None; hidden_size := None;
     quant_qweight_data_type := ""; quant_scales_data_type := "";
     quant_zeros_data_type := ""; quant_groupsize := None |}.

Definition topology_of (workers rank stages : Z) : Topology :=
  {| msg_size := workers; msg_rank := rank; msg_color := 0; pipelineStage := stages |}.
Definition topology (workers stages : Z) : Topology := topology_of workers 0 stages.

Definition heap0 : Heap :=
  {| act := fun _ => 0; tmpBuf := fun _ => 0; kvCache := fun _ => 0 |}.

Definition queue0 (cap : Z) : TaskWaitingQueue.t :=
  {| TaskWaitingQueue.items := []; TaskWaitingQueue.capacity := cap;
     TaskWaitingQueue.on_full := TaskWaitingQueue.RejectWhenFull |}.

Definition pipeline0 (cap : Z) : PipelineState :=
  {| readyQueue := queue0 cap; inputQueue := []; sequencePool := ∅; inbox := [] |}.

(** The decoder the constructor builds for [config], or an empty one. *)
Definition decoder (workers : Z) : Decoder :=
  match new_CommonDecoder config (topology workers 1) weight heap0 (pipeline0 2) with
  | Ends (Returns d) => d
  | _ =>
      {| context := new_DecoderContext (context_args config) (topology workers 1);
         messenger := topology workers 1; initSeqLen := 0; accSeqLen := 0;
         prefixSeqLen := 0; prefixSharing := false;
         mask := {| maskSize := 0; attnMask := fun _ => None |}; heap := heap0;
         decoderBlock_size := 0;
         predictor := {| dl_inputSize := 0; dl_outputSize := 0; dl_splitIdx := 0;
                         dl_splits := 1; dl_column := weight |};
         trace := []; pipeline := pipeline0 2 |}
  end.

(** A generation of three calls on a decoder that has served before. *)
Definition calls : list Call :=
  [ {| c_ids := [1; 2; 3]; c_dims := (1, 1, 3); c_logitsAll := false |};
    {| c_ids := [4]; c_dims := (1, 1, 1); c_logitsAll := false |};
    {| c_ids := [5]; c_dims := (1, 1, 1); c_logitsAll := false |} ].
Definition start : Decoder := skipFirstStep 7 (decoder 1).
Definition run_at (k : nat) : Decoder * Outcome ForwardResult :=
  default (start, Hangs SpinOnEmptyQueue)
          (generation (model false false) 0 calls start !! k).


(** A generation with two beams. *)
Definition beam_call0 : Call :=
  {| c_ids := [1; 2; 3]; c_dims := (1, 2, 3); c_logitsAll := false |}.
Definition beam_rest : list Call :=
  [ {| c_ids := [4; 5]; c_dims := (1, 2, 1); c_logitsAll := false |} ].

(** The context of the decoder resized to a shape, and an unallocated mask. *)
Definition shape (bs seqLen past : Z) : DecoderContext :=
  ctx_resize (context (decoder 1)) bs seqLen past.
Definition mask0 : MaskBuf := {| maskSize := 0; attnMask := fun _ => None |}.

End Toy.

(** Two pipeline stages of one TP rank each. *)
Module ToyStages.

Definition topology (stage : Z) : Topology :=
  {| msg_size := 1; msg_rank := 0; msg_color := stage; pipelineStage := 2 |}.

(** The process of a stage, sequence 5 waiting in its ready queue and
    [received] in its inbox. *)
Definition pipeline (received : list (Z * list f32)) : PipelineState :=
  {| readyQueue := {| TaskWaitingQueue.items := [5]; TaskWaitingQueue.capacity := 4;
                      TaskWaitingQueue.on_full := TaskWaitingQueue.RejectWhenFull |};
     inputQueue := []; sequencePool := ∅; inbox := received |}.

Definition decoder (stage : Z) (received : list (Z * list f32)) : Decoder :=
  match new_CommonDecoder Toy.config (topology stage) Toy.weight Toy.heap0
          (pipeline received) with
  | Ends (Returns d) => d
  | _ => Toy.decoder 1
  end.

End ToyStages.


(** Two sequences of a continuous batch: a prompt of two tokens and a prompt
    of one token. *)
Definition toy_prompts : list SequenceMeta :=
  [ {| sm_sequenceID := 1; sm_inputSeqLen := 2; sm_pastSeqLen := 0; sm_step := 0;
       sm_inputTokens := [1; 2] |};
    {| sm_sequenceID := 2; sm_inputSeqLen := 1; sm_pastSeqLen := 0; sm_step := 0;
       sm_inputTokens := [3] |} ].

(* ===================================================================== *)
(** * Part II: properties                                                 *)
(* ===================================================================== *)

(** ** Machine integers *)

Lemma wrap_in_range x : Int.in_range x -> Int.wrap x = x.
Proof.
  unfold Int.in_range, Int.wrap, Int.min_int, Int.max_int. intros H.
  rewrite Z.mod_small; lia.
Qed.

Lemma wrap_range x : Int.in_range (Int.wrap x).
Proof.
  unfold Int.in_range, Int.wrap, Int.min_int, Int.max_int.
  pose proof (Z.mod_pos_bound (x + 2 ^ 31) (2 ^ 32) ltac:(lia)). lia.
Qed.

Lemma add_exact a b : Int.in_range (a + b) -> a +i b = a + b.
Proof. apply wrap_in_range. Qed.
Lemma sub_exact a b : Int.in_range (a - b) -> a -i b = a - b.
Proof. apply wrap_in_range. Qed.
Lemma mul_exact a b : Int.in_range (a * b) -> a *i b = a * b.
Proof. apply wrap_in_range. Qed.

Lemma rem_zero_divide a b : Int.rem a b = 0 <-> (b | a).
Proof.
  unfold Int.rem. destruct (Z.eq_dec b 0) as [->|Hb].
  - rewrite Z.rem_0_r_ext by reflexivity. split.
    + intros ->. exists 0. lia.
    + intros [k Hk]. lia.
  - apply Z.rem_divide. exact Hb.
Qed.

(** ** Construction (C7, C8) *)

(** C8. When [getDecoderContext] is called while a context exists, it returns
    that context unchanged if the requested hidden size, attention head count,
    KV head count, intermediate size and the TP rank all equal the context's,
    and otherwise exits the process with status -1 after printing its
    diagnostic. *)
Theorem getDecoderContext_existing (c : DecoderContext) (a : ContextArgs) (t : Topology) :
  let same := hiddenSize c = a_hiddenSize a /\ attHeadNum c = a_attHeadNum a
              /\ kvHeadNum c = a_kvHeadNum a /\ intermediateSize c = a_imSize a
              /\ tpRank c = msg_rank t in
  (same -> getDecoderContext (Some c) a t = Returns c)
  /\ (~ same -> getDecoderContext (Some c) a t = Exits (-1) context_mismatch_msg).
Proof.
  cbn zeta. unfold getDecoderContext.
  destruct (hiddenSize c =? a_hiddenSize a) eqn:E1;
    destruct (attHeadNum c =? a_attHeadNum a) eqn:E2;
    destruct (kvHeadNum c =? a_kvHeadNum a) eqn:E3;
    destruct (intermediateSize c =? a_imSize a) eqn:E4;
    destruct (tpRank c =? msg_rank t) eqn:E5; cbn [andb];
    rewrite ?Z.eqb_eq, ?Z.eqb_neq in *;
    split; intros H; first [reflexivity | tauto].
Qed.

Lemma getDecoderContext_existing_witness :
  getDecoderContext (Some (context (Toy.decoder 1))) (context_args Toy.config)
    (Toy.topology 1 1) = Returns (context (Toy.decoder 1))
  /\ getDecoderContext (Some (context (Toy.decoder 1))) (context_args Toy.config)
       (Toy.topology_of 1 3 4) = Exits (-1) context_mismatch_msg.
Proof.
  split.
  - apply (getDecoderContext_existing (context (Toy.decoder 1)) (context_args Toy.config)
             (Toy.topology 1 1)).
    vm_compute. repeat split.
  - apply (getDecoderContext_existing (context (Toy.decoder 1)) (context_args Toy.config)
             (Toy.topology_of 1 3 4)).
    vm_compute. intros (_ & _ & _ & _ & H). discriminate H.
Defined.

Lemma REQUIRES_cases cond msg :
  REQUIRES cond msg = Returns tt \/ REQUIRES cond msg = Exits (-1) msg.
Proof. destruct cond; [left | right]; reflexivity. Qed.

Lemma quant_checks_cases cfg :
  quant_checks cfg = Returns tt \/ exists msg, quant_checks cfg = Exits (-1) msg.
Proof.
  unfold quant_checks.
  destruct (_ || _); [| left; reflexivity].
  destruct (REQUIRES_cases (String.eqb (quant_scales_data_type cfg) "fp32")
              "scales should be fp32 data type.") as [-> | ->]; cbn [outcome_bind];
    [| right; eexists; reflexivity].
  destruct (REQUIRES_cases (String.eqb (quant_zeros_data_type cfg) "fp32")
              "zeros should be fp32 data type.") as [-> | ->]; cbn [outcome_bind];
    [| right; eexists; reflexivity].
  destruct (REQUIRES_cases (default (-1) (quant_groupsize cfg) =? -1)
              "Quantization with groupsize is not supported.") as [-> | ->];
    [left | right; eexists]; reflexivity.
Qed.

Lemma new_CommonDecoder_after_checks cfg t w h0 ps0 :
  quant_checks cfg = Returns tt ->
  new_CommonDecoder cfg t w h0 ps0 =
    if negb (Int.div_defined (num_layer cfg) (pipelineStage t)) then UndefinedDivision
    else if negb (Int.rem (num_layer cfg) (pipelineStage t) =? 0)
    then Ends (Exits (-1) layers_msg)
    else Ends (Returns
           {| context := new_DecoderContext (context_args cfg) t; messenger := t;
              initSeqLen := 0; accSeqLen := 0; prefixSeqLen := 0; prefixSharing := false;
              mask := {| maskSize := 0; attnMask := fun _ => None |}; heap := h0;
              decoderBlock_size := Int.quot (num_layer cfg) (pipelineStage t);
              predictor := {| dl_inputSize := a_hiddenSize (context_args cfg);
                              dl_outputSize := vocab_size cfg;
                              dl_splitIdx := msg_rank t; dl_splits := msg_size t;
                              dl_column := w |};
              trace := []; pipeline := ps0 |}).
Proof. intros Q. unfold new_CommonDecoder. rewrite Q. reflexivity. Qed.

Lemma div_defined_true a b :
  b <> 0 -> a <> Int.min_int \/ b <> -1 -> Int.div_defined a b = true.
Proof.
  intros Hb Hab. unfold Int.div_defined.
  apply andb_true_iff. split; apply negb_true_iff.
  - apply Z.eqb_neq. exact Hb.
  - apply andb_false_iff. destruct Hab as [H | H]; [left | right]; apply Z.eqb_neq; exact H.
Qed.

(** Without any pipeline stage the check of line 280 divides by zero: the
    constructor has no defined behaviour, and prints no diagnostic. *)
Lemma new_CommonDecoder_no_stage cfg t w h0 ps0 :
  quant_checks cfg = Returns tt -> pipelineStage t = 0 ->
  new_CommonDecoder cfg t w h0 ps0 = UndefinedDivision.
Proof.
  intros Q Hz. rewrite (new_CommonDecoder_after_checks _ _ _ _ _ Q), Hz. reflexivity.
Qed.

(** C7. For a layer count and a stage count that are [int]s, the stage
    count not zero (nor [INT_MIN % -1]: [layers % ppSize] is then defined):
    if the layer count is not divisible by the number of pipeline stages,
    construction ends in [exit(-1)] after a diagnostic and no decoder exists;
    the diagnostic is the one of this check whenever the earlier
    quantisation requirements hold, and it is printed in no other case; if
    the layer count is divisible, construction passes the check and yields
    the decoder. *)
Theorem constructor_layers_divisible (cfg : ModelConfig) (t : Topology)
    (w : list f32 -> Z -> f32) (h0 : Heap) (ps0 : PipelineState) :
  let layers := num_layer cfg in
  let stages := pipelineStage t in
  Int.in_range layers -> Int.in_range stages ->
  stages <> 0 -> layers <> Int.min_int \/ stages <> -1 ->
  (~ (stages | layers) ->
   exists msg, new_CommonDecoder cfg t w h0 ps0 = Ends (Exits (-1) msg))
  /\ (quant_checks cfg = Returns tt ->
      (new_CommonDecoder cfg t w h0 ps0 = Ends (Exits (-1) layers_msg)
       <-> ~ (stages | layers)))
  /\ (quant_checks cfg = Returns tt -> (stages | layers) ->
      exists d, new_CommonDecoder cfg t w h0 ps0 = Ends (Returns d)
                /\ ppSize (context d) = stages /\ ctx_layers (context d) = layers).
Proof.
  cbn zeta. intros _ _ Hnz Hmin.
  pose proof (div_defined_true (num_layer cfg) (pipelineStage t) Hnz Hmin) as Hdef.
  split; [| split].
  - intros Hnd. destruct (quant_checks_cases cfg) as [Q | [msg Q]].
    + exists layers_msg. rewrite (new_CommonDecoder_after_checks _ _ _ _ _ Q), Hdef.
      cbn [negb].
      destruct (Int.rem (num_layer cfg) (pipelineStage t) =? 0) eqn:E; [| reflexivity].
      apply Z.eqb_eq, rem_zero_divide in E. contradiction.
    + exists msg. unfold new_CommonDecoder. rewrite Q. reflexivity.
  - intros Q. rewrite (new_CommonDecoder_after_checks _ _ _ _ _ Q), Hdef. cbn [negb].
    destruct (Int.rem (num_layer cfg) (pipelineStage t) =? 0) eqn:E; cbn [negb].
    + apply Z.eqb_eq, rem_zero_divide in E. split; [discriminate | contradiction].
    + apply Z.eqb_neq in E. rewrite rem_zero_divide in E. split; [intros _; exact E | reflexivity].
  - intros Q Hd. rewrite (new_CommonDecoder_after_checks _ _ _ _ _ Q), Hdef. cbn [negb].
    apply rem_zero_divide, Z.eqb_eq in Hd. rewrite Hd. cbn [negb].
    eexists. split; [reflexivity |]. split; reflexivity.
Qed.

Lemma constructor_layers_divisible_witness :
  (exists msg, new_CommonDecoder Toy.config (Toy.topology 1 3) Toy.weight Toy.heap0
                 (Toy.pipeline0 2) = Ends (Exits (-1) msg))
  /\ (exists d, new_CommonDecoder Toy.config (Toy.topology 1 2) Toy.weight Toy.heap0
                  (Toy.pipeline0 2) = Ends (Returns d)
                /\ ppSize (context d) = 2 /\ ctx_layers (context d) = 2).
Proof.
  split.
  - apply (constructor_layers_divisible Toy.config (Toy.topology 1 3) Toy.weight Toy.heap0
             (Toy.pipeline0 2)).
    + vm_compute. split; discriminate.
    + vm_compute. split; discriminate.
    + discriminate.
    + right. discriminate.
    + intros [k Hk]. change (2 = k * 3) in Hk. lia.
  - apply (constructor_layers_divisible Toy.config (Toy.topology 1 2) Toy.weight Toy.heap0
             (Toy.pipeline0 2)).
    + vm_compute. split; discriminate.
    + vm_compute. split; discriminate.
    + discriminate.
    + right. discriminate.
    + reflexivity.
    + exists 1. reflexivity.
Defined.

(** ** The continuous-batch entry point on no sequence (C9) *)

(** C9. [forward(seqs, logitsAll)] on an empty vector returns
    [(nullptr, 0, 0)] and leaves the whole decoder as it was: context, buffers,
    lengths, queues, and no external call is made. *)
Theorem forward_seqs_empty (M : Model) (logitsAll : bool) (d : Decoder) :
  forward_seqs M [] logitsAll d = (d, Returns NullResult).
Proof. reflexivity. Qed.

(** ** Loops that fill a buffer block by block *)

Lemma in_block_true p n a : in_block p n a = true <-> p <= a < p + n.
Proof. unfold in_block. rewrite andb_true_iff, Z.leb_le, Z.ltb_lt. tauto. Qed.

Lemma in_block_false p n a : in_block p n a = false <-> ~ (p <= a < p + n).
Proof. rewrite <- in_block_true. destruct (in_block p n a); split; congruence. Qed.

Lemma for_range_0 n : for_range 0 n = seqZ 0 n.
Proof. unfold for_range. f_equal. lia. Qed.

(** A loop over [k = 0 .. n-1] whose iteration [k] writes block [k] only (the
    [w] elements at [base + k * w]), the value written at column [j] being
    [v k j] as long as the blocks visited so far hold their values and the
    rest is as it was at the start: afterwards every block holds its values
    and the rest is untouched. *)
Lemma foldl_blocks {A : Type} (f : (Z -> A) -> Z -> (Z -> A)) (base w : Z)
    (v : Z -> Z -> A) (m0 : Z -> A) (n : nat) :
  0 <= w ->
  (forall acc k a, 0 <= k < Z.of_nat n ->
     ~ (base + k * w <= a < base + k * w + w) -> f acc k a = acc a) ->
  (forall acc k j, 0 <= k < Z.of_nat n -> 0 <= j < w ->
     (forall a, ~ (base <= a < base + k * w) -> acc a = m0 a) ->
     (forall k' j', 0 <= k' < k -> 0 <= j' < w -> acc (base + k' * w + j') = v k' j') ->
     f acc k (base + k * w + j) = v k j) ->
  let r := foldl f m0 (seqZ 0 (Z.of_nat n)) in
  (forall a, ~ (base <= a < base + Z.of_nat n * w) -> r a = m0 a)
  /\ (forall k j, 0 <= k < Z.of_nat n -> 0 <= j < w -> r (base + k * w + j) = v k j).
Proof.
  intros Hw. induction n as [|n IH]; intros Hout Hin; cbn zeta.
  - split; [reflexivity | intros; lia].
  - rewrite seqZ_S, foldl_app. cbn [foldl]. rewrite Z.add_0_l.
    destruct IH as [IHout IHin].
    + intros; apply Hout; lia.
    + intros; apply Hin; [lia | lia | assumption | assumption].
    + split.
      * intros a Ha. rewrite Hout by nia. apply IHout. nia.
      * intros k j Hk Hj.
        destruct (Z.eq_dec k (Z.of_nat n)) as [-> | Hne].
        -- apply Hin; [lia | lia | exact IHout | exact IHin].
        -- rewrite Hout by nia. apply IHin; lia.
Qed.

Lemma foldl_blocks_Z {A : Type} (f : (Z -> A) -> Z -> (Z -> A)) (base w : Z)
    (v : Z -> Z -> A) (m0 : Z -> A) (n : Z) :
  0 <= w -> 0 <= n ->
  (forall acc k a, 0 <= k < n ->
     ~ (base + k * w <= a < base + k * w + w) -> f acc k a = acc a) ->
  (forall acc k j, 0 <= k < n -> 0 <= j < w ->
     (forall a, ~ (base <= a < base + k * w) -> acc a = m0 a) ->
     (forall k' j', 0 <= k' < k -> 0 <= j' < w -> acc (base + k' * w + j') = v k' j') ->
     f acc k (base + k * w + j) = v k j) ->
  (forall a, ~ (base <= a < base + n * w) -> foldl f m0 (seqZ 0 n) a = m0 a)
  /\ (forall k j, 0 <= k < n -> 0 <= j < w ->
        foldl f m0 (seqZ 0 n) (base + k * w + j) = v k j).
Proof.
  intros Hw Hn Hout Hin.
  pose proof (foldl_blocks f base w v m0 (Z.to_nat n) Hw) as H.
  cbn zeta in H. rewrite !Z2Nat.id in H by exact Hn.
  apply H; assumption.
Qed.

(** ** The causal mask of [OptDecoder] (C10) *)

Lemma getAttnMask_size mb n : n <= maskSize (getAttnMask mb n).
Proof. unfold getAttnMask. destruct (maskSize mb <? n) eqn:E; cbn; lia. Qed.

Lemma mask_fill_in m p n v a : p <= a < p + n -> mask_fill m p n v a = Some v.
Proof. intros H. unfold mask_fill. apply in_block_true in H. rewrite H. reflexivity. Qed.

Lemma mask_fill_out m p n v a : ~ (p <= a < p + n) -> mask_fill m p n v a = m a.
Proof. intros H. unfold mask_fill. apply in_block_false in H. rewrite H. reflexivity. Qed.

Lemma mask_row_exact S pmask m i :
  0 <= i < S -> S * S <= Int.max_int ->
  OptDecoder.mask_row S pmask m i =
    mask_fill (mask_fill m (pmask + i * S) (i + 1) f32_zero)
              (pmask + i * S + i + 1) (S - i - 1) f32_lowest.
Proof.
  intros Hi HS. unfold OptDecoder.mask_row.
  assert (HSr : S <= Int.max_int) by nia.
  rewrite (mul_exact i S) by (unfold Int.in_range, Int.min_int, Int.max_int in *; nia).
  rewrite (add_exact i 1) by (unfold Int.in_range, Int.min_int, Int.max_int in *; lia).
  rewrite (sub_exact S i) by (unfold Int.in_range, Int.min_int, Int.max_int in *; lia).
  rewrite (sub_exact (S - i) 1) by (unfold Int.in_range, Int.min_int, Int.max_int in *; lia).
  reflexivity.
Qed.

Lemma mask_row_in S pmask m i j :
  0 <= i < S -> 0 <= j < S -> S * S <= Int.max_int ->
  OptDecoder.mask_row S pmask m i (pmask + i * S + j)
  = Some (if j <=? i then f32_zero else f32_lowest).
Proof.
  intros Hi Hj HS. rewrite mask_row_exact by assumption.
  destruct (j <=? i) eqn:E.
  - apply Z.leb_le in E. rewrite mask_fill_out by lia. apply mask_fill_in. lia.
  - apply Z.leb_gt in E. apply mask_fill_in. lia.
Qed.

Lemma mask_row_out S pmask m i a :
  0 <= i < S -> S * S <= Int.max_int ->
  ~ (pmask + i * S <= a < pmask + i * S + S) ->
  OptDecoder.mask_row S pmask m i a = m a.
Proof.
  intros Hi HS Ha. rewrite mask_row_exact by assumption.
  rewrite !mask_fill_out by lia. reflexivity.
Qed.

Lemma cube_bounds b B S M :
  0 <= b < B -> 0 <= S -> B * S * S <= M ->
  0 <= b * S <= M /\ 0 <= b * S * S <= M /\ (b + 1) * (S * S) <= M /\ S * S <= M.
Proof.
  intros Hb HS HM.
  assert (H1 : 0 <= b * S) by nia.
  assert (H2 : 0 <= S * S) by nia.
  assert (H3 : (b + 1) * (S * S) <= B * (S * S)) by (apply Z.mul_le_mono_nonneg_r; lia).
  assert (H4 : b * S <= b * S * S).
  { destruct (Z.eq_dec S 0) as [-> | Hne]; [lia |].
    replace (b * S) with (b * S * 1) at 1 by lia.
    apply Z.mul_le_mono_nonneg_l; lia. }
  repeat split; nia.
Qed.

Lemma mask_batch_spec S B m b :
  0 <= b < B -> 0 <= S -> B * S * S <= Int.max_int ->
  let r := OptDecoder.mask_batch S m b in
  (forall a, ~ (b * (S * S) <= a < b * (S * S) + S * S) -> r a = m a)
  /\ (forall i j, 0 <= i < S -> 0 <= j < S ->
        r (b * (S * S) + i * S + j) = Some (if j <=? i then f32_zero else f32_lowest)).
Proof.
  intros Hb HS HB. cbn zeta. unfold OptDecoder.mask_batch.
  destruct (cube_bounds b B S _ Hb HS HB) as (Hb1 & Hb2 & Hb3 & HSS).
  rewrite (mul_exact b S) by (unfold Int.in_range, Int.min_int, Int.max_int in *; lia).
  rewrite (mul_exact (b * S) S) by (unfold Int.in_range, Int.min_int, Int.max_int in *; lia).
  rewrite for_range_0. replace (b * S * S) with (b * (S * S)) by lia.
  destruct (foldl_blocks_Z (OptDecoder.mask_row S (b * (S * S))) (b * (S * S)) S
              (fun i j => Some (if j <=? i then f32_zero else f32_lowest)) m S HS HS)
    as [Hout Hin].
  - intros acc k a Hk Ha. apply mask_row_out; [exact Hk | exact HSS | exact Ha].
  - intros acc k j Hk Hj _ _. apply mask_row_in; assumption.
  - split.
    + intros a Ha. apply Hout. lia.
    + intros i j Hi Hj. apply Hin; assumption.
Qed.

Lemma causal_value_at S i j :
  0 <= i -> 0 <= j < S ->
  (if (i * S + j) `mod` S <=? (i * S + j) `div` S then f32_zero else f32_lowest)
  = (if j <=? i then f32_zero else f32_lowest).
Proof.
  intros Hi Hj.
  rewrite (Z.add_comm (i * S) j), Z.mod_add, Z.div_add by lia.
  rewrite Z.mod_small, Z.div_small by lia. rewrite Z.add_0_l. reflexivity.
Qed.

(** C10. [OptDecoder::prepareAttnMask]: at step 0 the mask buffer is large
    enough for [batchSize * seqLen * seqLen] entries and, for every batch
    item [b], entry [(i, j)] of its [seqLen x seqLen] block is [0.0f] when
    [j <= i] and [numeric_limits<float>::lowest()] when [j > i]; at any other
    step the first [batchSize * accSeqLen] entries are all [0.0f]. *)
Theorem opt_prepareAttnMask_causal (ctx : DecoderContext) (acc : Z) (mb : MaskBuf)
    (ids : list Z) (step : Z) :
  let B := batchSize ctx in
  let S := inputSeqLen ctx in
  let mb' := OptDecoder.prepareAttnMask ctx acc mb ids step in
  0 <= B -> 0 <= S ->
  (step = 0 -> B * S * S <= Int.max_int ->
     B * S * S <= maskSize mb'
     /\ forall b i j, 0 <= b < B -> 0 <= i < S -> 0 <= j < S ->
          attnMask mb' (b * S * S + i * S + j)
          = Some (if j <=? i then f32_zero else f32_lowest))
  /\ (step <> 0 -> Int.in_range (B * acc) ->
      B * acc <= maskSize mb'
      /\ forall k, 0 <= k < B * acc -> attnMask mb' k = Some f32_zero).
Proof.
  cbn zeta. intros HB HS. unfold OptDecoder.prepareAttnMask. split.
  - intros -> HM. cbn [Z.eqb].
    set (B := batchSize ctx) in *. set (S := inputSeqLen ctx) in *.
    assert (HBS : 0 <= B * S <= Int.max_int).
    { destruct (Z.eq_dec S 0) as [E | E]; [rewrite E; unfold Int.max_int; lia |].
      split; [nia |]. transitivity (B * S * S); [| exact HM].
      replace (B * S) with (B * S * 1) at 1 by lia.
      apply Z.mul_le_mono_nonneg_l; nia. }
    assert (HBSS : 0 <= B * S * S) by nia.
    rewrite (mul_exact B S) by (unfold Int.in_range, Int.min_int in *; lia).
    rewrite (mul_exact (B * S) S) by (unfold Int.in_range, Int.min_int in *; lia).
    cbn [maskSize attnMask]. split; [apply getAttnMask_size |].
    intros b i j Hb Hi Hj. rewrite for_range_0.
    assert (HSS : 0 <= S * S) by nia.
    destruct (foldl_blocks_Z (OptDecoder.mask_batch S) 0 (S * S)
                (fun b c => Some (if c `mod` S <=? c `div` S then f32_zero else f32_lowest))
                (attnMask (getAttnMask mb (B * S * S))) B HSS HB) as [_ Hin].
    + intros acc0 k a Hk Ha.
      apply (mask_batch_spec S B acc0 k Hk HS HM). lia.
    + intros acc0 k c Hk Hc _ _.
      destruct (mask_batch_spec S B acc0 k Hk HS HM) as [_ Hrow].
      assert (HSpos : 0 < S) by nia.
      specialize (Hrow (c `div` S) (c `mod` S)).
      rewrite <- (causal_value_at S (c `div` S) (c `mod` S)) in Hrow.
      * replace (c `div` S * S + c `mod` S) with c in Hrow
          by (rewrite (Z.div_mod c S) at 1 by lia; lia).
        replace (0 + k * (S * S) + c)
          with (k * (S * S) + c `div` S * S + c `mod` S)
          by (rewrite (Z.div_mod c S) at 3 by lia; lia).
        apply Hrow.
        -- split; [apply Z.div_pos; lia | apply Z.div_lt_upper_bound; lia].
        -- apply Z.mod_pos_bound; lia.
      * apply Z.div_pos; lia.
      * apply Z.mod_pos_bound; lia.
    + specialize (Hin b (i * S + j)).
      rewrite causal_value_at in Hin by lia.
      replace (b * S * S + i * S + j) with (0 + b * (S * S) + (i * S + j)) by lia.
      apply Hin; [lia | nia].
  - intros Hstep Hr. apply Z.eqb_neq in Hstep. rewrite Hstep.
    rewrite (mul_exact _ _ Hr). cbn [maskSize attnMask].
    split; [apply getAttnMask_size |].
    intros k Hk. apply mask_fill_in. lia.
Qed.

Lemma opt_prepareAttnMask_causal_witness :
  attnMask (OptDecoder.prepareAttnMask (Toy.shape 2 3 0) 0 Toy.mask0 [] 0)
    (1 * 3 * 3 + 1 * 3 + 2) = Some f32_lowest
  /\ attnMask (OptDecoder.prepareAttnMask (Toy.shape 2 3 0) 0 Toy.mask0 [] 0)
       (1 * 3 * 3 + 1 * 3 + 1) = Some f32_zero
  /\ attnMask (OptDecoder.prepareAttnMask (Toy.shape 2 1 3) 4 Toy.mask0 [] 1) 7
     = Some f32_zero.
Proof.
  pose proof (opt_prepareAttnMask_causal (Toy.shape 2 3 0) 0 Toy.mask0 [] 0
                ltac:(cbn; lia) ltac:(cbn; lia)) as [H0 _].
  pose proof (opt_prepareAttnMask_causal (Toy.shape 2 1 3) 4 Toy.mask0 [] 1
                ltac:(cbn; lia) ltac:(cbn; lia)) as [_ H1].
  destruct (H0 eq_refl ltac:(vm_compute; discriminate)) as [_ Hcausal].
  destruct (H1 ltac:(lia) ltac:(split; vm_compute; discriminate)) as [_ Hzero].
  split; [| split].
  - exact (Hcausal 1 1 2 ltac:(cbn; lia) ltac:(cbn; lia) ltac:(cbn; lia)).
  - exact (Hcausal 1 1 1 ltac:(cbn; lia) ltac:(cbn; lia) ltac:(cbn; lia)).
  - exact (Hzero 7 ltac:(cbn; lia)).
Defined.

(** [f32_lowest] is below every finite binary32 value. *)
Lemma f32_lowest_least (x : f32) :
  0 <= x < 2 ^ 32 -> f32_finite x = true -> f32_leb f32_lowest x = true.
Proof.
  intros Hx Hfin. unfold f32_leb.
  change (f32_sign f32_lowest =? 1) with true. cbn match.
  destruct (f32_sign x =? 1); [| reflexivity].
  change (f32_magnitude f32_lowest) with (255 * 2 ^ 23 - 1).
  apply Z.leb_le.
  unfold f32_finite, f32_exponent in Hfin. apply negb_true_iff, Z.eqb_neq in Hfin.
  unfold f32_magnitude.
  change 0x7FFFFFFF with (Z.ones 31). change 0xFF with (Z.ones 8) in Hfin.
  rewrite Z.land_ones in * by lia. rewrite Z.shiftr_div_pow2 in Hfin by lia.
  destruct (Z_lt_le_dec (x `mod` 2 ^ 31) (255 * 2 ^ 23)) as [Hlt | Hge]; [lia |].
  exfalso. apply Hfin.
  pose proof (Z.mod_pos_bound x (2 ^ 31) ltac:(lia)) as Hm.
  rewrite (Z.div_mod x (2 ^ 31)) by lia.
  replace (2 ^ 31 * (x `div` 2 ^ 31) + x `mod` 2 ^ 31)
    with (256 * (x `div` 2 ^ 31) * 2 ^ 23 + x `mod` 2 ^ 31) by lia.
  rewrite Z.div_add_l by lia.
  replace (256 * (x `div` 2 ^ 31) + (x `mod` 2 ^ 31) `div` 2 ^ 23)
    with ((x `mod` 2 ^ 31) `div` 2 ^ 23 + (x `div` 2 ^ 31) * 2 ^ 8) by lia.
  rewrite Z.mod_add by lia.
  assert (Hq : (x `mod` 2 ^ 31) `div` 2 ^ 23 = 255).
  { symmetry. apply (Z.div_unique _ _ 255 (x `mod` 2 ^ 31 - 255 * 2 ^ 23)); lia. }
  rewrite Hq. reflexivity.
Qed.

(** ** How the steps of a call advance the decoder *)

Section Frames.

Variable M : Model.

Lemma advances_refl P d : advances P d d.
Proof.
  split; try reflexivity. exists []. rewrite app_nil_r.
  split; [reflexivity | constructor].
Qed.

Lemma advances_trans P d1 d2 d3 :
  advances P d1 d2 -> advances P d2 d3 -> advances P d1 d3.
Proof.
  intros [? ? ? ? ? (E1 & HE1 & HP1) ?] [? ? ? ? ? (E2 & HE2 & HP2) ?].
  split; try congruence.
  exists (E1 ++ E2). rewrite app_assoc, <- HE1. split; [exact HE2 |].
  apply Forall_app; split; assumption.
Qed.

Lemma advances_weaken (P Q : Event -> Prop) d d' :
  (forall e, P e -> Q e) -> advances P d d' -> advances Q d d'.
Proof.
  intros HPQ [? ? ? ? ? (E & HE & HP) ?]. split; try assumption.
  exists E. split; [exact HE |]. eapply Forall_impl; eauto.
Qed.

Lemma advances_log P d0 d e : advances P d0 d -> P e -> advances P d0 (log e d).
Proof.
  intros [? ? ? ? ? (E & HE & HP) ?] He. split; try assumption.
  exists (E ++ [e]). cbn. rewrite HE, app_assoc. split; [reflexivity |].
  apply Forall_app; split; [assumption | repeat constructor; assumption].
Qed.

Lemma advances_call P d0 d e : advances P d0 d -> P e -> advances P d0 (call M e d).
Proof. intros H He. unfold call. apply advances_log; [| exact He]. destruct H; split; assumption. Qed.

Lemma advances_set_context P d0 d c :
  advances P d0 d -> ctx_resize c 0 0 0 = ctx_resize (context d) 0 0 0 ->
  advances P d0 (set_context c d).
Proof. intros [] Hc; split; try assumption. cbn [context set_context]. congruence. Qed.
Lemma advances_set_initSeqLen P d0 d v : advances P d0 d -> advances P d0 (set_initSeqLen v d).
Proof. intros []; split; assumption. Qed.
Lemma advances_set_accSeqLen P d0 d v : advances P d0 d -> advances P d0 (set_accSeqLen v d).
Proof. intros []; split; assumption. Qed.
Lemma advances_set_mask P d0 d v : advances P d0 d -> advances P d0 (set_mask v d).
Proof. intros []; split; assumption. Qed.
Lemma advances_set_heap P d0 d v : advances P d0 d -> advances P d0 (set_heap v d).
Proof. intros []; split; assumption. Qed.
Lemma advances_set_pipeline P d0 d v : advances P d0 d -> advances P d0 (set_pipeline v d).
Proof. intros []; split; assumption. Qed.
Lemma advances_upd_act P d0 d f : advances P d0 d -> advances P d0 (upd_act f d).
Proof. intros []; split; assumption. Qed.

End Frames.

(** Peels the setters and calls off the decoder on the right of [advances]. *)
Ltac advance :=
  repeat first
    [ assumption
    | apply advances_refl
    | apply advances_set_context; [| reflexivity] | apply advances_set_initSeqLen
    | apply advances_set_accSeqLen | apply advances_set_mask
    | apply advances_set_heap | apply advances_set_pipeline
    | apply advances_upd_act
    | apply advances_log; [| first [reflexivity | exact I]]
    | apply advances_call; [| first [reflexivity | exact I]] ].

Section Phases.

Variable M : Model.

Lemma prepareBuffers_advances d0 d userSideBS beamSize logitsAll prefix :
  advances not_layer_event d0 d ->
  advances not_layer_event d0 (prepareBuffers M userSideBS beamSize logitsAll prefix d).
Proof. intros H. unfold prepareBuffers. advance. Qed.

Lemma resize_context_advances d0 d bs sl psl :
  advances not_layer_event d0 d ->
  advances not_layer_event d0 (resize_context M bs sl psl d).
Proof. intros H. unfold resize_context. advance. Qed.

Lemma forward_setup_advances ids dims step logitsAll d :
  advances not_layer_event d (fst (forward_setup M ids dims step logitsAll d)).
Proof.
  unfold forward_setup. destruct dims as [[dims0 dims1] dims2].
  destruct (step =? 0); [| cbn [fst]; apply resize_context_advances, advances_refl].
  match goal with |- context [if ?b then _ else _] => destruct b end; cbn [fst];
    apply prepareBuffers_advances; repeat (first [apply resize_context_advances | advance]).
Qed.

Lemma run_bind_advances {A B : Type} P (m : Run A) (k : A -> Run B) d :
  advances P d (fst (m d)) ->
  (forall a d1, advances P d1 (fst (k a d1))) ->
  advances P d (fst (run_bind m k d)).
Proof.
  intros Hm Hk. unfold run_bind. destruct (m d) as [d1 [a | c s | w]]; cbn [fst] in *.
  - eapply advances_trans; [exact Hm | apply Hk].
  - exact Hm.
  - exact Hm.
Qed.

Lemma embeddingForward_advances ids out n d :
  advances not_layer_event d (fst (embeddingForward M ids out n d)).
Proof. unfold embeddingForward. destruct (embeddingForward_overridden M); cbn [fst]; advance. Qed.

Lemma prepare_mask_and_positions_advances L d :
  advances not_layer_event d (prepare_mask_and_positions M L d).
Proof. unfold prepare_mask_and_positions. advance. Qed.

Lemma push_ready_advances x d : advances not_layer_event d (fst (push_ready x d)).
Proof.
  unfold push_ready. destruct (TaskWaitingQueue.push _ _); cbn [fst]; advance.
Qed.

Lemma pp_recv_advances L d : advances not_layer_event d (fst (pp_recv M L d)).
Proof.
  unfold pp_recv. destruct (_ && _); [| cbn [fst]; advance].
  destruct (inbox (pipeline d)) as [| [sid payload] rest]; [cbn [fst]; advance |].
  eapply advances_trans; [| apply push_ready_advances]. advance.
Qed.

Lemma pp_input_advances L d : advances not_layer_event d (fst (pp_input M L d)).
Proof.
  unfold pp_input. destruct (PIPELINE_PARALLEL M); [| cbn [fst]; advance].
  destruct (inputQueue (pipeline d)) as [| g rest]; [cbn [fst]; advance |].
  destruct (TaskWaitingQueue.isFull _); [cbn [fst]; advance |].
  eapply advances_trans; [| apply push_ready_advances]. advance.
Qed.

Lemma pp_select_advances d : advances not_layer_event d (fst (pp_select M d)).
Proof.
  unfold pp_select. destruct (PIPELINE_PARALLEL M); [| cbn [fst]; advance].
  destruct (TaskWaitingQueue.empty _); [cbn [fst]; advance |].
  destruct (TaskWaitingQueue.pop _) as [[x q'] |]; cbn [fst]; advance.
Qed.

Lemma pp_admission_advances L d : advances not_layer_event d (fst (pp_admission M L d)).
Proof.
  unfold pp_admission.
  apply run_bind_advances; [apply pp_recv_advances |]. intros _ d1.
  apply run_bind_advances; [apply pp_input_advances |]. intros _ d2.
  apply pp_select_advances.
Qed.

Lemma pp_send_advances L sid d : advances not_layer_event d (fst (pp_send M L sid d)).
Proof. unfold pp_send. destruct (_ && _); cbn [fst]; advance. Qed.

Lemma final_stage_advances L d : advances not_layer_event d (fst (final_stage M L d)).
Proof.
  unfold final_stage. destruct (lastLayerNormForward_row M); cbn [fst].
  - destruct (needs_copy L), (_ && _); advance.
  - destruct (needs_copy L); advance.
Qed.

(** *** The calls of the layer loop *)

Lemma layer_step_trace L d i :
  trace (layer_step M L d i) = trace d ++ layer_events M L d i.
Proof.
  unfold layer_step, layer_events, attention_events, reduction_protocol.
  destruct ((l_step L =? 0) && prefixSharing d), ((l_step L =? 0) && (l_beamSize L >? 1)),
    (ATTN_MLP_PARALLEL M), (msg_size (messenger d) >? 1);
    cbn; rewrite <- ?app_assoc; reflexivity.
Qed.

Lemma layer_step_advances L d i : advances any_event d (layer_step M L d i).
Proof.
  unfold layer_step.
  destruct ((l_step L =? 0) && prefixSharing d), ((l_step L =? 0) && (l_beamSize L >? 1)),
    (ATTN_MLP_PARALLEL M), (msg_size (messenger d) >? 1); cbn [negb]; advance.
Qed.

Lemma layer_events_static L d d' i :
  advances any_event d d' -> layer_events M L d' i = layer_events M L d i.
Proof. intros []. unfold layer_events. congruence. Qed.

Lemma layer_steps_trace L l d0 d :
  advances any_event d0 d ->
  trace (foldl (layer_step M L) d l) = trace d ++ concat (layer_events M L d0 <$> l)
  /\ advances any_event d0 (foldl (layer_step M L) d l).
Proof.
  revert d. induction l as [| i l IH]; intros d Hd; cbn [foldl fmap list_fmap concat].
  - rewrite app_nil_r. split; [reflexivity | exact Hd].
  - assert (Hd' : advances any_event d0 (layer_step M L d i))
      by (eapply advances_trans; [exact Hd | apply layer_step_advances]).
    destruct (IH _ Hd') as [Ht Ha]. split; [| exact Ha].
    rewrite Ht, layer_step_trace, (layer_events_static L d0 d i Hd), <- app_assoc.
    reflexivity.
Qed.

Lemma layer_loop_trace L d :
  trace (layer_loop M L d) = trace d ++ loop_events M L d.
Proof. apply layer_steps_trace, advances_refl. Qed.

Lemma layer_loop_advances L d : advances any_event d (layer_loop M L d).
Proof. apply layer_steps_trace, advances_refl. Qed.

End Phases.

(** ** The reduction protocol of the layer loop (C4) *)

(** C4. The calls of the layer loop of [forward] are, layer after layer, the
    attention of the layer (with its cache expansions) followed by the
    reduction protocol of the specification.  In that protocol, without
    attention/FFN parallelism, the attention output is all-reduced exactly when
    the TP group has more than one rank, FFN takes the attention output as its
    input, and the FFN result is reduced into the activation buffer exactly
    when the group has more than one rank; with parallelism no reduction has
    the attention output as its source and FFN takes the layer's input. *)
Theorem layer_reduction_protocol (M : Model) (L : Locals) (d : Decoder) :
  let workers := msg_size (messenger d) in
  let n := activation_count L in
  let h := l_hiddenSize L in
  let emb := ActPtr embBuf in
  let out := ActPtr (outBuf L) in
  trace (layer_loop M L d)
  = trace d
    ++ concat ((fun i => attention_events L (prefixSharing d) (prefixSeqLen d) i
                         ++ reduction_protocol (ATTN_MLP_PARALLEL M) workers L i)
                 <$> for_range 0 (decoderBlock_size d))
  /\ forall i,
       let evs := reduction_protocol (ATTN_MLP_PARALLEL M) workers L i in
       Forall (fun e => is_reduce_or_ffn e = false)
              (attention_events L (prefixSharing d) (prefixSeqLen d) i)
       /\ In (EvForwardAttention i emb out attnOut (l_inputSeqLen L) (l_pastSeqLen L)
                (l_step L =? 0) true)
             (attention_events L (prefixSharing d) (prefixSeqLen d) i)
       /\ (ATTN_MLP_PARALLEL M = false ->
           (In (EvReduceAdd attnOut attnOut n) evs <-> workers > 1)
           /\ (exists pre dst post,
                 evs = pre ++ [EvForwardFFN i attnOut dst h h true] ++ post
                 /\ (forall e, In e pre -> e = EvReduceAdd attnOut attnOut n)
                 /\ (forall e, In e post -> e = EvReduceAdd dst emb n)
                 /\ dst = (if workers >? 1 then out else emb))
           /\ (In (EvReduceAdd out emb n) evs <-> workers > 1))
       /\ (ATTN_MLP_PARALLEL M = true ->
           (forall e, In e evs -> e <> EvReduceAdd attnOut attnOut n)
           /\ (forall dst c, ~ In (EvReduceAdd attnOut dst c) evs)
           /\ exists dst post,
                evs = [EvForwardFFN i emb dst h h true] ++ post
                /\ (forall e, In e post -> e = EvReduceAdd dst emb n)).
Proof.
  cbn zeta. split; [apply layer_loop_trace |].
  intros i. split; [| split; [| split]].
  - unfold attention_events.
    destruct (_ && prefixSharing d), (_ && (l_beamSize L >? 1)); repeat constructor.
  - unfold attention_events. rewrite !in_app_iff. right. left. left. reflexivity.
  - intros ->. unfold reduction_protocol.
    destruct (msg_size (messenger d) >? 1) eqn:E;
      [apply Z.gtb_gt in E | rewrite Z.gtb_ltb, Z.ltb_ge in E].
    + split; [cbn; split; [lia | tauto] |]. split.
      * exists [EvReduceAdd attnOut attnOut (activation_count L)], (ActPtr (outBuf L)),
          [EvReduceAdd (ActPtr (outBuf L)) (ActPtr embBuf) (activation_count L)].
        split; [reflexivity |]. split; [| split].
        -- intros e [<- | []]. reflexivity.
        -- intros e [<- | []]. reflexivity.
        -- reflexivity.
      * cbn. split; [lia | tauto].
    + split; [cbn; split; [intros [H | []]; discriminate H | lia] |]. split.
      * exists [], (ActPtr embBuf), []. split; [reflexivity |].
        split; [intros e [] |]. split; [intros e [] | reflexivity].
      * cbn. split; [| lia]. intros [H | []]. discriminate H.
  - intros ->. unfold reduction_protocol.
    destruct (msg_size (messenger d) >? 1) eqn:E.
    + split; [| split].
      * intros e [<- | [<- | []]]; discriminate.
      * intros dst c [H | [H | []]]; discriminate H.
      * exists (ActPtr (outBuf L)),
          [EvReduceAdd (ActPtr (outBuf L)) (ActPtr embBuf) (activation_count L)].
        split; [reflexivity |]. intros e [<- | []]. reflexivity.
    + split; [| split].
      * intros e [<- | []]; discriminate.
      * intros dst c [H | []]; discriminate H.
      * exists (ActPtr embBuf), []. split; [reflexivity |]. intros e [].
Qed.

(** ** One call of [forward], step by step *)

Section Calls.

Variable M : Model.

Lemma forward_layers_returns L d1 d7 sent :
  forward_layers M L d1 = (d7, Returns sent) ->
  exists d2 d5 task,
    embeddingForward M (l_ids L) embBuf (l_batchSize L *i l_inputSeqLen L) d1
      = (d2, Returns tt)
    /\ pp_admission M L
         (prepare_mask_and_positions M L (set_accSeqLen (accSeqLen d2 +i l_seqLen L) d2))
       = (d5, Returns task)
    /\ pp_send M L (fst task) (if snd task then layer_loop M L d5 else d5)
       = (d7, Returns sent).
Proof.
  unfold forward_layers, run_bind at 1.
  destruct (embeddingForward M _ _ _ d1) as [d2 [[] | c s | w]] eqn:E1; [| discriminate..].
  unfold run_bind at 1, modify at 1. unfold run_bind at 1, modify at 1.
  unfold run_bind at 1.
  destruct (pp_admission M L _) as [d5 [task | c s | w]] eqn:E2; [| discriminate..].
  unfold run_bind at 1, modify at 1. intros H.
  exists d2, d5, task. repeat split; assumption.
Qed.

Lemma forward_returns ids dims step la d d' r :
  forward M ids dims step la d = (d', Returns r) ->
  let L := locals_of M ids dims step la d in
  exists sent,
    forward_layers M L (fst (forward_setup M ids dims step la d))
      = (hidden_state M ids dims step la d, Returns sent)
    /\ (if sent then d' = hidden_state M ids dims step la d /\ r = NullResult
        else final_stage M L (hidden_state M ids dims step la d) = (d', Returns r)).
Proof.
  cbn zeta. unfold forward, forward_from, hidden_state, locals_of, run_bind.
  destruct (forward_layers M _ _) as [d7 [sent | c s | w]] eqn:E; [| discriminate..].
  intros H. exists sent. cbn [fst]. split; [reflexivity |].
  destruct sent; [| exact H]. unfold run_ret in H. inversion H. split; reflexivity.
Qed.

(** The ready queue has been waited for when the admission returns: the layer
    loop is always entered. *)
Lemma pp_admission_enters L d d' task :
  pp_admission M L d = (d', Returns task) -> snd task = true.
Proof.
  unfold pp_admission, run_bind.
  destruct (pp_recv M L d) as [d1 [[] | |]]; [| discriminate..].
  destruct (pp_input M L d1) as [d2 [[] | |]]; [| discriminate..].
  unfold pp_select. destruct (PIPELINE_PARALLEL M).
  - destruct (TaskWaitingQueue.empty _) eqn:Ee; [discriminate |].
    unfold TaskWaitingQueue.pop, TaskWaitingQueue.empty in *.
    destruct (TaskWaitingQueue.items _); [discriminate |].
    intros H. inversion H. reflexivity.
  - intros H. inversion H. reflexivity.
Qed.

(** *** The accumulated length *)

Lemma forward_setup_acc ids dims step la d :
  accSeqLen (fst (forward_setup M ids dims step la d))
  = if step =? 0 then 0 else accSeqLen d.
Proof.
  unfold forward_setup. destruct dims as [[dims0 dims1] dims2].
  destruct (step =? 0); [| reflexivity]. case_match; reflexivity.
Qed.

Lemma locals_seqLen ids dims step la d :
  l_seqLen (locals_of M ids dims step la d) = Int.of_int64 (snd dims).
Proof.
  unfold locals_of, forward_setup. destruct dims as [[dims0 dims1] dims2].
  destruct (step =? 0); [| reflexivity]. case_match; reflexivity.
Qed.

Lemma locals_beamSize ids dims step la d :
  l_beamSize (locals_of M ids dims step la d) = Int.of_int64 (snd (fst dims)).
Proof.
  unfold locals_of, forward_setup. destruct dims as [[dims0 dims1] dims2].
  destruct (step =? 0); [| reflexivity]. case_match; reflexivity.
Qed.

Lemma locals_userSideBS ids dims step la d :
  l_userSideBS (locals_of M ids dims step la d) = Int.of_int64 (fst (fst dims)).
Proof.
  unfold locals_of, forward_setup. destruct dims as [[dims0 dims1] dims2].
  destruct (step =? 0); [| reflexivity]. case_match; reflexivity.
Qed.

Lemma locals_step ids dims step la d :
  l_step (locals_of M ids dims step la d) = step.
Proof.
  unfold locals_of, forward_setup. destruct dims as [[dims0 dims1] dims2].
  destruct (step =? 0); [| reflexivity]. case_match; reflexivity.
Qed.


Lemma embeddingForward_acc ids out n d :
  accSeqLen (fst (embeddingForward M ids out n d)) = accSeqLen d.
Proof. unfold embeddingForward. case_match; reflexivity. Qed.

Lemma push_ready_acc x d : accSeqLen (fst (push_ready x d)) = accSeqLen d.
Proof. unfold push_ready. case_match; reflexivity. Qed.

Lemma pp_admission_acc L d : accSeqLen (fst (pp_admission M L d)) = accSeqLen d.
Proof.
  unfold pp_admission, run_bind.
  assert (H1 : accSeqLen (fst (pp_recv M L d)) = accSeqLen d).
  { unfold pp_recv. repeat case_match; try reflexivity.
    all: try (rewrite push_ready_acc; reflexivity). }
  destruct (pp_recv M L d) as [d1 [[] | |]]; cbn [fst] in *; [| exact H1..].
  assert (H2 : accSeqLen (fst (pp_input M L d1)) = accSeqLen d1).
  { unfold pp_input. repeat case_match; try reflexivity.
    all: try (rewrite push_ready_acc; reflexivity). }
  destruct (pp_input M L d1) as [d2 [[] | |]]; cbn [fst] in *; [| congruence..].
  rewrite <- H1, <- H2. unfold pp_select. repeat case_match; reflexivity.
Qed.

Lemma layer_step_acc L d i : accSeqLen (layer_step M L d i) = accSeqLen d.
Proof. unfold layer_step. repeat case_match; reflexivity. Qed.

Lemma layer_loop_acc L d : accSeqLen (layer_loop M L d) = accSeqLen d.
Proof.
  unfold layer_loop. generalize (for_range 0 (decoderBlock_size d)). intros l.
  revert d. induction l as [| i l IH]; intros d; cbn [foldl]; [reflexivity |].
  rewrite IH. apply layer_step_acc.
Qed.

Lemma pp_send_acc L sid d : accSeqLen (fst (pp_send M L sid d)) = accSeqLen d.
Proof. unfold pp_send. case_match; reflexivity. Qed.

Lemma final_stage_acc L d : accSeqLen (fst (final_stage M L d)) = accSeqLen d.
Proof. unfold final_stage. repeat case_match; reflexivity. Qed.

Lemma forward_acc ids dims step la d d' r :
  forward M ids dims step la d = (d', Returns r) ->
  accSeqLen d' = (if step =? 0 then 0 else accSeqLen d) +i Int.of_int64 (snd dims).
Proof.
  intros H. destruct (forward_returns _ _ _ _ _ _ _ H) as (sent & Hl & Hf).
  destruct (forward_layers_returns _ _ _ _ Hl) as (d2 & d5 & task & He & Ha & Hs).
  pose proof (locals_seqLen ids dims step la d) as HL.
  set (L := locals_of M ids dims step la d) in *.
  set (dh := hidden_state M ids dims step la d) in *.
  assert (Hacc : accSeqLen dh
                 = (if step =? 0 then 0 else accSeqLen d) +i Int.of_int64 (snd dims)).
  { pose proof (pp_send_acc L (fst task) (if snd task then layer_loop M L d5 else d5)) as H7.
    rewrite Hs in H7. cbn [fst] in H7. rewrite H7.
    assert (H5 : accSeqLen (if snd task then layer_loop M L d5 else d5) = accSeqLen d5)
      by (destruct (snd task); [apply layer_loop_acc | reflexivity]).
    rewrite H5.
    pose proof (pp_admission_acc L
                  (prepare_mask_and_positions M L
                     (set_accSeqLen (accSeqLen d2 +i l_seqLen L) d2))) as H4.
    rewrite Ha in H4. cbn [fst] in H4. rewrite H4.
    cbn [prepare_mask_and_positions call log set_trace set_heap set_mask accSeqLen
           set_accSeqLen].
    pose proof (embeddingForward_acc (l_ids L) embBuf (l_batchSize L *i l_inputSeqLen L)
                  (fst (forward_setup M ids dims step la d))) as H2.
    rewrite He in H2. cbn [fst] in H2.
    rewrite H2, forward_setup_acc, HL. reflexivity. }
  destruct sent.
  - destruct Hf as [-> _]. exact Hacc.
  - pose proof (final_stage_acc L dh) as H8.
    rewrite Hf in H8. cbn [fst] in H8. rewrite H8. exact Hacc.
Qed.

End Calls.

(** ** The accumulated sequence length over a generation (C1) *)

Lemma sumZ_cons x (l : list Z) : sumZ (x :: l) = x + sumZ l.
Proof. reflexivity. Qed.

Lemma sumZ_nonneg (l : list Z) : Forall (fun x => 0 <= x) l -> 0 <= sumZ l.
Proof. induction 1; [cbn; lia | rewrite sumZ_cons; lia]. Qed.

Lemma of_int64_exact x : 0 <= x <= Int.max_int -> Int.of_int64 x = x.
Proof.
  intros H. apply wrap_in_range. unfold Int.in_range, Int.min_int, Int.max_int in *. lia.
Qed.

Lemma generation_acc (M : Model) (calls : list Call) :
  forall first d k dk rk,
    1 <= first -> 0 <= accSeqLen d ->
    Forall (fun c => 0 <= c_dims2 c) calls ->
    accSeqLen d + sumZ (c_dims2 <$> calls) <= Int.max_int ->
    generation M first calls d !! k = Some (dk, rk) ->
    returned rk = true ->
    accSeqLen dk = accSeqLen d + sumZ (c_dims2 <$> take (S k) calls).
Proof.
  induction calls as [| c rest IH]; intros first d k dk rk Hf Hd Hnn Hsum Hk Hr;
    [discriminate |].
  inversion Hnn as [| ? ? Hc Hrest]; subst.
  rewrite fmap_cons, sumZ_cons in Hsum.
  pose proof (sumZ_nonneg (c_dims2 <$> rest)) as Hpos.
  rewrite Forall_fmap in Hpos. specialize (Hpos Hrest).
  cbn [generation] in Hk.
  destruct (forward M (c_ids c) (c_dims c) first (c_logitsAll c) d) as [d1 o1] eqn:E.
  assert (Hacc : returned o1 = true -> accSeqLen d1 = accSeqLen d + c_dims2 c).
  { destruct o1 as [r1 | |]; try discriminate. intros _.
    rewrite (forward_acc M _ _ _ _ _ _ _ E).
    destruct (first =? 0) eqn:E0; [apply Z.eqb_eq in E0; lia |].
    fold (c_dims2 c). rewrite (of_int64_exact (c_dims2 c)) by lia.
    apply add_exact. unfold Int.in_range, Int.min_int, Int.max_int in *. lia. }
  destruct k as [| k]; cbn [lookup list_lookup] in Hk.
  - inversion Hk; subst. cbn [take]. rewrite take_0, fmap_cons, sumZ_cons, (Hacc Hr).
    cbn. lia.
  - cbn [snd fst] in Hk. destruct (returned o1) eqn:Ho; [| discriminate].
    specialize (Hacc eq_refl).
    rewrite (IH (first + 1) d1 k dk rk) by (first [lia | assumption]).
    change (take (S (S k)) (c :: rest)) with (c :: take (S k) rest).
    rewrite fmap_cons, sumZ_cons. lia.
Qed.

(** C1. In a generation of [forward] calls, the first made with [step = 0]
    and the [k]-th with [step = k], the accumulated sequence length after the
    [k]-th call has returned is the sum of the [dims[2]] of calls [0..k],
    whatever it was before the generation: the step-0 call resets it to 0
    before adding its own length.  The lengths are non-negative and their sum
    fits an [int]. *)
Theorem accSeqLen_is_sum (M : Model) (calls : list Call) (d : Decoder)
    (k : nat) (dk : Decoder) (rk : Outcome ForwardResult) :
  Forall (fun c => 0 <= c_dims2 c) calls ->
  sumZ (c_dims2 <$> calls) <= Int.max_int ->
  generation M 0 calls d !! k = Some (dk, rk) ->
  returned rk = true ->
  accSeqLen dk = sumZ (c_dims2 <$> take (S k) calls).
Proof.
  intros Hnn Hsum Hk Hr.
  destruct calls as [| c rest]; [discriminate |].
  inversion Hnn as [| ? ? Hc Hrest]; subst.
  rewrite fmap_cons, sumZ_cons in Hsum.
  pose proof (sumZ_nonneg (c_dims2 <$> rest)) as Hpos.
  rewrite Forall_fmap in Hpos. specialize (Hpos Hrest).
  cbn [generation] in Hk.
  destruct (forward M (c_ids c) (c_dims c) 0 (c_logitsAll c) d) as [d1 o1] eqn:E.
  assert (Hacc : returned o1 = true -> accSeqLen d1 = c_dims2 c).
  { destruct o1 as [r1 | |]; try discriminate. intros _.
    rewrite (forward_acc M _ _ _ _ _ _ _ E). cbn [Z.eqb].
    fold (c_dims2 c). rewrite (of_int64_exact (c_dims2 c)) by lia.
    apply add_exact. unfold Int.in_range, Int.min_int, Int.max_int in *. lia. }
  destruct k as [| k]; cbn [lookup list_lookup] in Hk.
  - inversion Hk; subst. cbn [take]. rewrite take_0, fmap_cons, sumZ_cons, (Hacc Hr).
    cbn. lia.
  - cbn [snd fst] in Hk. destruct (returned o1) eqn:Ho; [| discriminate].
    specialize (Hacc eq_refl).
    rewrite (generation_acc M rest 1 d1 k dk rk) by (first [lia | assumption]).
    change (take (S (S k)) (c :: rest)) with (c :: take (S k) rest).
    rewrite fmap_cons, sumZ_cons. lia.
Qed.

Lemma accSeqLen_is_sum_witness :
  accSeqLen Toy.start = 7 /\ accSeqLen (fst (Toy.run_at 2)) = 3 + 1 + 1.
Proof.
  split; [reflexivity |].
  apply (accSeqLen_is_sum (Toy.model false false) Toy.calls Toy.start 2
           (fst (Toy.run_at 2)) (snd (Toy.run_at 2))).
  - repeat constructor; cbn; lia.
  - vm_compute. discriminate.
  - vm_compute. reflexivity.
  - vm_compute. reflexivity.
Defined.

(** ** The calls of one [forward] and of a generation (C5) *)

Section CallTraces.

Variable M : Model.

Lemma not_layer_no_expand e : not_layer_event e -> no_expandCache e.
Proof. unfold not_layer_event, no_expandCache. destruct e; cbn; congruence. Qed.

Lemma advances_events P d d' :
  advances P d d' -> trace d' = trace d ++ events_since d d' /\ Forall P (events_since d d').
Proof.
  intros [_ _ _ _ _ (E & HE & HP) _]. unfold events_since. rewrite HE, drop_app_length.
  split; [reflexivity | exact HP].
Qed.

Lemma loop_events_static L P d d' :
  advances P d d' -> loop_events M L d' = loop_events M L d.
Proof.
  intros H. unfold loop_events. rewrite (adv_block _ _ _ H).
  f_equal. apply list_fmap_ext. intros _ i _.
  apply layer_events_static. eapply advances_weaken; [| exact H]. intros; exact I.
Qed.

Lemma layer_events_no_expand L d i :
  (l_step L =? 0) && (l_beamSize L >? 1) = false ->
  Forall no_expandCache (layer_events M L d i).
Proof.
  intros H. unfold layer_events, attention_events, reduction_protocol. rewrite H.
  destruct (_ && prefixSharing d), (ATTN_MLP_PARALLEL M), (msg_size (messenger d) >? 1);
    repeat constructor.
Qed.

Lemma layer_loop_no_expand L d :
  (l_step L =? 0) && (l_beamSize L >? 1) = false ->
  advances no_expandCache d (layer_loop M L d).
Proof.
  intros H. pose proof (layer_loop_advances M L d) as [? ? ? ? ? _ ?].
  split; try assumption.
  exists (loop_events M L d). split; [apply layer_loop_trace |].
  unfold loop_events. apply Forall_concat, Forall_fmap, Forall_forall.
  intros i _. apply layer_events_no_expand, H.
Qed.

(** Whatever holds of the calls outside the layer loop and of the layer loop
    holds of a call of [forward], however it ends. *)
Lemma forward_advances (P : Event -> Prop) ids dims step la d :
  (forall e, not_layer_event e -> P e) ->
  (forall d0, advances P d0 (layer_loop M (locals_of M ids dims step la d) d0)) ->
  advances P d (fst (forward M ids dims step la d)).
Proof.
  intros HP Hloop. unfold forward. fold (locals_of M ids dims step la d).
  set (L := locals_of M ids dims step la d) in *.
  set (d1 := fst (forward_setup M ids dims step la d)).
  apply (advances_trans _ d d1).
  { eapply advances_weaken; [exact HP | apply forward_setup_advances]. }
  clearbody d1.
  assert (Hw : forall d0 d0', advances not_layer_event d0 d0' -> advances P d0 d0')
    by (intros; eapply advances_weaken; [exact HP | eassumption]).
  unfold forward_from, forward_layers.
  apply run_bind_advances.
  - apply run_bind_advances; [apply Hw, embeddingForward_advances |]. intros _ d2.
    apply run_bind_advances; [cbn [modify fst]; advance |]. intros _ d3.
    apply run_bind_advances;
      [cbn [modify fst]; apply Hw, prepare_mask_and_positions_advances |]. intros _ d4.
    apply run_bind_advances; [apply Hw, pp_admission_advances |]. intros task d5.
    apply run_bind_advances; [| intros _ d6; apply Hw, pp_send_advances].
    cbn [modify fst]. destruct (snd task); [apply Hloop | advance].
  - intros sent d7. destruct sent; [cbn [run_ret fst]; advance |].
    apply Hw, final_stage_advances.
Qed.

Lemma forward_advances_any ids dims step la d :
  advances any_event d (fst (forward M ids dims step la d)).
Proof.
  apply forward_advances; [intros; exact I |]. intros d0. apply layer_loop_advances.
Qed.

(** A call that is not a step-0 call with several beams never expands the
    KV cache, however it ends. *)
Lemma forward_no_expand ids dims step la d :
  step <> 0 \/ Int.of_int64 (snd (fst dims)) <= 1 ->
  advances no_expandCache d (fst (forward M ids dims step la d)).
Proof.
  intros Hc. apply forward_advances; [exact not_layer_no_expand |].
  intros d0. apply layer_loop_no_expand.
  rewrite locals_step, locals_beamSize. destruct Hc as [Hc | Hc].
  - apply Z.eqb_neq in Hc. rewrite Hc. reflexivity.
  - apply andb_false_iff. right. rewrite Z.gtb_ltb. apply Z.ltb_ge. exact Hc.
Qed.

(** A call that returns has made, in this order: calls that are not layer
    calls, the calls of the layer loop, calls that are not layer calls. *)
Lemma forward_trace_shape ids dims step la d d' r :
  forward M ids dims step la d = (d', Returns r) ->
  exists pre post,
    events_since d d' = pre ++ loop_events M (locals_of M ids dims step la d) d ++ post
    /\ Forall not_layer_event pre /\ Forall not_layer_event post.
Proof.
  intros H. destruct (forward_returns M _ _ _ _ _ _ _ H) as (sent & Hl & Hf).
  destruct (forward_layers_returns M _ _ _ _ Hl) as (d2 & d5 & task & He & Ha & Hs).
  set (L := locals_of M ids dims step la d) in *.
  set (dh := hidden_state M ids dims step la d) in *.
  rewrite (pp_admission_enters M _ _ _ _ Ha) in Hs.
  assert (H5 : advances not_layer_event d d5).
  { eapply advances_trans; [apply forward_setup_advances |].
    eapply advances_trans.
    { pose proof (embeddingForward_advances M (l_ids L) embBuf
                    (l_batchSize L *i l_inputSeqLen L)
                    (fst (forward_setup M ids dims step la d))) as H2.
      rewrite He in H2. exact H2. }
    apply (advances_trans _ d2 (set_accSeqLen (accSeqLen d2 +i l_seqLen L) d2));
      [advance |].
    eapply advances_trans; [apply prepare_mask_and_positions_advances |].
    pose proof (pp_admission_advances M L
                  (prepare_mask_and_positions M L
                     (set_accSeqLen (accSeqLen d2 +i l_seqLen L) d2))) as H4.
    rewrite Ha in H4. exact H4. }
  assert (H7 : advances not_layer_event (layer_loop M L d5) d').
  { pose proof (pp_send_advances M L (fst task) (layer_loop M L d5)) as H6.
    rewrite Hs in H6. cbn [fst] in H6.
    destruct sent.
    - destruct Hf as [-> _]. exact H6.
    - eapply advances_trans; [exact H6 |].
      pose proof (final_stage_advances M L dh) as H8. rewrite Hf in H8. exact H8. }
  destruct (advances_events _ _ _ H5) as [Ht5 Hp5].
  destruct (advances_events _ _ _ H7) as [Ht7 Hp7].
  exists (events_since d d5), (events_since (layer_loop M L d5) d').
  split; [| split; assumption].
  unfold events_since at 1.
  rewrite Ht7, layer_loop_trace, Ht5, (loop_events_static L _ _ _ H5), <- !app_assoc.
  rewrite drop_app_length. reflexivity.
Qed.

End CallTraces.

Lemma final_decoder_cons r l d : final_decoder (r :: l) d = final_decoder l (fst r).
Proof. unfold final_decoder. rewrite last_cons. destruct (last l); reflexivity. Qed.

Lemma generation_no_expand (M : Model) (calls : list Call) :
  forall first d, 1 <= first ->
    advances no_expandCache d (final_decoder (generation M first calls d) d).
Proof.
  induction calls as [| c rest IH]; intros first d Hf; [apply advances_refl |].
  cbn [generation]. rewrite final_decoder_cons. cbn [fst snd].
  assert (H1 : advances no_expandCache d
                 (fst (forward M (c_ids c) (c_dims c) first (c_logitsAll c) d)))
    by (apply forward_no_expand; left; lia).
  destruct (returned _); [| exact H1].
  eapply advances_trans; [exact H1 | apply IH; lia].
Qed.

Lemma events_since_trans P Q d1 d2 d3 :
  advances P d1 d2 -> advances Q d2 d3 ->
  events_since d1 d3 = events_since d1 d2 ++ events_since d2 d3.
Proof.
  intros H12 H23.
  destruct (advances_events _ _ _ H12) as [Ht12 _].
  destruct (advances_events _ _ _ H23) as [Ht23 _].
  unfold events_since at 1. rewrite Ht23, Ht12, <- app_assoc, drop_app_length.
  reflexivity.
Qed.

Lemma concat_split_at (f : Z -> list Event) (n i : Z) :
  0 <= i < n ->
  concat (f <$> for_range 0 n)
  = concat (f <$> seqZ 0 i) ++ f i ++ concat (f <$> seqZ (i + 1) (n - i - 1)).
Proof.
  intros Hi. rewrite for_range_0.
  replace n with (i + (n - i)) at 1 by lia.
  rewrite seqZ_app by lia. rewrite (seqZ_cons (0 + i)) by lia.
  rewrite fmap_app, fmap_cons, concat_app. cbn [concat].
  repeat f_equal; lia.
Qed.

Lemma layer_events_other (M : Model) L d j i :
  j <> i ->
  Forall (fun e => is_expandCache_of i e = false /\ is_attention_of i e = false)
         (layer_events M L d j).
Proof.
  intros Hne. apply Z.eqb_neq in Hne.
  unfold layer_events, attention_events, reduction_protocol.
  destruct (_ && prefixSharing d), (_ && (l_beamSize L >? 1)), (ATTN_MLP_PARALLEL M),
    (msg_size (messenger d) >? 1);
    repeat constructor; cbn; try reflexivity; exact Hne.
Qed.

Lemma layers_other (M : Model) L d i lo len :
  (forall j, lo <= j < lo + len -> j <> i) ->
  Forall (fun e => is_expandCache_of i e = false /\ is_attention_of i e = false)
         (concat (layer_events M L d <$> seqZ lo len)).
Proof.
  intros H. apply Forall_concat, Forall_fmap, Forall_forall.
  intros j Hj. apply elem_of_seqZ in Hj. apply layer_events_other, H, Hj.
Qed.

Lemma not_layer_untagged i e :
  not_layer_event e -> is_expandCache_of i e = false /\ is_attention_of i e = false.
Proof. unfold not_layer_event. destruct e; cbn; try discriminate; auto. Qed.

Lemma no_expand_untagged i e : no_expandCache e -> is_expandCache_of i e = false.
Proof. unfold no_expandCache. destruct e; cbn; try discriminate; auto. Qed.

(** C5. In a generation (a step-0 call and the calls of steps 1..N after it)
    whose step-0 call returns, for every layer [i] of the stage: if the
    step-0 call asks for more than one beam, the calls of the generation are
    [A ++ [attention; expandCache(i, userSideBS, beamSize, seqLen)] ++ B]
    where [attention] is the step-0 attention of layer [i], [A] contains
    neither an expansion nor an attention of layer [i], and [B], which holds
    every later call, contains no expansion of layer [i]; if it asks for a
    single beam, the generation never expands the cache. *)
Theorem expandCache_once_per_generation (M : Model) (c0 : Call) (rest : list Call)
    (d : Decoder) (i : Z) :
  let runs := generation M 0 (c0 :: rest) d in
  let T := events_since d (final_decoder runs d) in
  returned (snd (forward M (c_ids c0) (c_dims c0) 0 (c_logitsAll c0) d)) = true ->
  0 <= i < decoderBlock_size d ->
  (c_beamSize c0 > 1 ->
   exists A B inp im out len past,
     T = A ++ [EvForwardAttention i inp im out len past true true;
               EvExpandCache i (c_userSideBS c0) (c_beamSize c0) (c_seqLen c0)] ++ B
     /\ Forall (fun e => is_expandCache_of i e = false /\ is_attention_of i e = false) A
     /\ Forall (fun e => is_expandCache_of i e = false) B)
  /\ (c_beamSize c0 <= 1 -> Forall no_expandCache T).
Proof.
  cbn zeta. intros Hret Hi. cbn [generation].
  rewrite final_decoder_cons. rewrite Hret. cbn [fst].
  destruct (forward M (c_ids c0) (c_dims c0) 0 (c_logitsAll c0) d) as [d1 o1] eqn:E.
  cbn [fst snd] in *. destruct o1 as [r1 | |]; try discriminate.
  pose proof (generation_no_expand M rest (0 + 1) d1 ltac:(lia)) as Hlater.
  set (dn := final_decoder (generation M (0 + 1) rest d1) d1) in *.
  split.
  - intros Hbeam.
    destruct (forward_trace_shape M _ _ _ _ _ _ _ E) as (pre & post & Hshape & Hpre & Hpost).
    pose proof (locals_step M (c_ids c0) (c_dims c0) 0 (c_logitsAll c0) d) as Hs.
    pose proof (locals_beamSize M (c_ids c0) (c_dims c0) 0 (c_logitsAll c0) d) as Hb.
    pose proof (locals_userSideBS M (c_ids c0) (c_dims c0) 0 (c_logitsAll c0) d) as Hu.
    pose proof (locals_seqLen M (c_ids c0) (c_dims c0) 0 (c_logitsAll c0) d) as Hl.
    set (L := locals_of M (c_ids c0) (c_dims c0) 0 (c_logitsAll c0) d) in *.
    assert (Hany : advances any_event d d1).
    { pose proof (forward_advances_any M (c_ids c0) (c_dims c0) 0 (c_logitsAll c0) d) as Ha.
      rewrite E in Ha. exact Ha. }
    rewrite (events_since_trans _ _ d d1 dn Hany Hlater), Hshape.
    unfold loop_events. rewrite (concat_split_at _ _ i Hi).
    unfold layer_events at 2, attention_events.
    rewrite Hs, Hb, Hu, Hl. cbn [Z.eqb andb].
    assert (Hgt : (c_beamSize c0 >? 1) = true) by (apply Z.gtb_gt; exact Hbeam).
    fold (c_beamSize c0) (c_userSideBS c0) (c_seqLen c0). rewrite Hgt.
    exists (pre ++ concat (layer_events M L d <$> seqZ 0 i)
            ++ (if prefixSharing d
                then [EvExpandPrefixCache i (c_userSideBS c0) (prefixSeqLen d)] else [])),
      (reduction_protocol (ATTN_MLP_PARALLEL M) (msg_size (messenger d)) L i
       ++ concat (layer_events M L d <$> seqZ (i + 1) (decoderBlock_size d - i - 1))
       ++ post ++ events_since d1 dn),
      (ActPtr embBuf), (ActPtr (outBuf L)), attnOut, (l_inputSeqLen L), (l_pastSeqLen L).
    split; [| split].
    + rewrite <- !app_assoc. reflexivity.
    + rewrite !Forall_app. split; [| split].
      * eapply Forall_impl; [exact Hpre | apply not_layer_untagged].
      * apply layers_other. intros j Hj. lia.
      * destruct (prefixSharing d); repeat constructor.
    + rewrite !Forall_app. split; [| split; [| split]].
      * unfold reduction_protocol.
        destruct (ATTN_MLP_PARALLEL M), (msg_size (messenger d) >? 1); repeat constructor.
      * eapply Forall_impl; [apply (layers_other M L d i); intros j Hj; lia |].
        intros e [He _]. exact He.
      * eapply Forall_impl; [exact Hpost |]. intros e He. apply (not_layer_untagged i e He).
      * destruct (advances_events _ _ _ Hlater) as [_ HP].
        eapply Forall_impl; [exact HP | apply no_expand_untagged].
  - intros Hbeam.
    assert (H1 : advances no_expandCache d d1).
    { pose proof (forward_no_expand M (c_ids c0) (c_dims c0) 0 (c_logitsAll c0) d
                    (or_intror Hbeam)) as H1.
      rewrite E in H1. exact H1. }
    rewrite (events_since_trans _ _ d d1 dn H1 Hlater).
    apply Forall_app. split.
    + apply (advances_events _ _ _ H1).
    + apply (advances_events _ _ _ Hlater).
Qed.

Lemma expandCache_once_per_generation_witness :
  exists A B inp im out len past,
    events_since Toy.start
      (final_decoder (generation (Toy.model false false) 0 (Toy.beam_call0 :: Toy.beam_rest)
                        Toy.start) Toy.start)
    = A ++ [EvForwardAttention 1 inp im out len past true true; EvExpandCache 1 1 2 3] ++ B
    /\ Forall (fun e => is_expandCache_of 1 e = false /\ is_attention_of 1 e = false) A
    /\ Forall (fun e => is_expandCache_of 1 e = false) B.
Proof.
  apply (expandCache_once_per_generation (Toy.model false false) Toy.beam_call0
           Toy.beam_rest Toy.start 1).
  - vm_compute. reflexivity.
  - vm_compute. split; [discriminate | reflexivity].
  - vm_compute. reflexivity.
Defined.

(** ** The ready queue (C3) *)

Section ReadyQueue.

Variable M : Model.

Import TaskWaitingQueue.

Lemma push_bounded q x q' : bounded q -> push q x = Pushed q' -> bounded q'.
Proof.
  unfold push, bounded, isFull. intros Hb.
  destruct (capacity q <=? size q) eqn:E; [destruct (on_full q); discriminate |].
  apply Z.leb_gt in E. intros H. inversion H. unfold enqueue, size in *. cbn.
  rewrite length_app. cbn. lia.
Qed.

Lemma pop_bounded q x q' : bounded q -> pop q = Some (x, q') -> bounded q'.
Proof.
  unfold pop, bounded, size. destruct (items q) as [| y rest] eqn:E; [discriminate |].
  intros Hb H. inversion H. cbn in *. lia.
Qed.

Lemma push_ready_bounded x : preserves (fun d => bounded (ready d)) (push_ready x).
Proof.
  intros d Hb. unfold push_ready, ready in *.
  destruct (push (readyQueue (pipeline d)) x) as [q' | |] eqn:E; cbn; [| exact Hb..].
  eapply push_bounded; eassumption.
Qed.

Lemma pp_recv_bounded L : preserves (fun d => bounded (ready d)) (pp_recv M L).
Proof.
  intros d Hb. unfold pp_recv.
  destruct (_ && _); [| exact Hb].
  destruct (inbox (pipeline d)) as [| [sid payload] rest]; [exact Hb |].
  apply push_ready_bounded. exact Hb.
Qed.

Lemma pp_input_bounded L : preserves (fun d => bounded (ready d)) (pp_input M L).
Proof.
  intros d Hb. unfold pp_input.
  destruct (PIPELINE_PARALLEL M); [| exact Hb].
  destruct (inputQueue (pipeline d)) as [| g rest]; [exact Hb |].
  destruct (isFull _); [exact Hb |].
  apply push_ready_bounded. exact Hb.
Qed.

Lemma pp_select_bounded : preserves (fun d => bounded (ready d)) (pp_select M).
Proof.
  intros d Hb. unfold pp_select.
  destruct (PIPELINE_PARALLEL M); [| exact Hb].
  destruct (empty _); [exact Hb |].
  destruct (pop (readyQueue (pipeline d))) as [[x q'] |] eqn:E; [| exact Hb].
  cbn. eapply pop_bounded; eassumption.
Qed.

Lemma run_bind_preserves {A B : Type} (I : Decoder -> Prop) (m : Run A) (k : A -> Run B) :
  preserves I m -> (forall a, preserves I (k a)) -> preserves I (run_bind m k).
Proof.
  intros Hm Hk d Hd. unfold run_bind. specialize (Hm d Hd).
  destruct (m d) as [d1 [a | |]]; cbn [fst] in *; [apply Hk; exact Hm | exact Hm..].
Qed.

Lemma pp_admission_bounded L : preserves (fun d => bounded (ready d)) (pp_admission M L).
Proof.
  unfold pp_admission.
  apply run_bind_preserves; [apply pp_recv_bounded |]. intros _.
  apply run_bind_preserves; [apply pp_input_bounded |]. intros _.
  apply pp_select_bounded.
Qed.

(** The steps of [forward] other than the admission leave the queues alone. *)
Lemma forward_setup_pipeline ids dims step la d :
  pipeline (fst (forward_setup M ids dims step la d)) = pipeline d.
Proof.
  unfold forward_setup. destruct dims as [[dims0 dims1] dims2].
  destruct (step =? 0); [| reflexivity]. case_match; reflexivity.
Qed.

Lemma layer_loop_pipeline L d : pipeline (layer_loop M L d) = pipeline d.
Proof.
  unfold layer_loop. generalize (for_range 0 (decoderBlock_size d)). intros l.
  revert d. induction l as [| i l IH]; intros d; cbn [foldl]; [reflexivity |].
  rewrite IH. unfold layer_step. repeat case_match; reflexivity.
Qed.

Lemma forward_bounded ids dims step la :
  preserves (fun d => bounded (ready d)) (forward M ids dims step la).
Proof.
  intros d Hb. unfold forward.
  assert (H1 : bounded (ready (fst (forward_setup M ids dims step la d))))
    by (unfold ready; rewrite forward_setup_pipeline; exact Hb).
  revert H1. generalize (fst (forward_setup M ids dims step la d)).
  generalize (snd (forward_setup M ids dims step la d)). intros L.
  change (preserves (fun d => bounded (ready d)) (forward_from M L)).
  unfold forward_from, forward_layers.
  apply run_bind_preserves.
  - apply run_bind_preserves.
    { intros d0 H0. unfold embeddingForward. case_match; exact H0. }
    intros _. apply run_bind_preserves; [intros d0 H0; exact H0 |].
    intros _. apply run_bind_preserves; [intros d0 H0; exact H0 |].
    intros _. apply run_bind_preserves; [apply pp_admission_bounded |].
    intros task. apply run_bind_preserves.
    { intros d0 H0. cbn [modify fst]. destruct (snd task); [| exact H0].
      unfold ready. rewrite layer_loop_pipeline. exact H0. }
    intros _ d0 H0. unfold pp_send. case_match; exact H0.
  - intros sent. destruct sent; [intros d0 H0; exact H0 |].
    intros d0 H0. unfold final_stage. repeat case_match; exact H0.
Qed.

(** With room in the ready queue, the group received from the previous stage
    is enqueued, whatever the queue does when full. *)
Lemma pp_recv_enqueues L d sid payload rest :
  size (ready d) < capacity (ready d) ->
  PIPELINE_PARALLEL M && (ppSize (context d) >? 1) && (ppRank (context d) >? 0) = true ->
  inbox (pipeline d) = (sid, payload) :: rest ->
  snd (pp_recv M L d) = Returns tt
  /\ items (ready (fst (pp_recv M L d))) = items (ready d) ++ [sid].
Proof.
  intros Hroom Hpp Hin. unfold pp_recv. rewrite Hpp, Hin.
  unfold push_ready, push, isFull, ready in *. cbn [pipeline set_pipeline readyQueue
    set_sequencePool set_inbox log set_trace upd_act set_heap].
  apply Z.leb_gt in Hroom. rewrite Hroom. cbn. split; reflexivity.
Qed.

Lemma push_ready_capacity x d :
  capacity (ready (fst (push_ready x d))) = capacity (ready d).
Proof.
  unfold push_ready, push, ready.
  destruct (isFull _); [destruct (on_full _) |]; reflexivity.
Qed.

Lemma pp_recv_capacity L d :
  capacity (ready (fst (pp_recv M L d))) = capacity (ready d).
Proof.
  unfold pp_recv. destruct (_ && _); [| reflexivity].
  destruct (inbox (pipeline d)) as [| [sid payload] rest]; [reflexivity |].
  rewrite push_ready_capacity. reflexivity.
Qed.

Lemma pp_input_capacity L d :
  capacity (ready (fst (pp_input M L d))) = capacity (ready d).
Proof.
  unfold pp_input. destruct (PIPELINE_PARALLEL M); [| reflexivity].
  destruct (inputQueue (pipeline d)) as [| g rest]; [reflexivity |].
  destruct (isFull _); [reflexivity |].
  rewrite push_ready_capacity. reflexivity.
Qed.

(** An admission that returns leaves room in the ready queue if there was
    room before it: [forward] alone never fills the queue. *)
Lemma pp_admission_keeps_room L d d' task :
  PIPELINE_PARALLEL M = true ->
  size (ready d) < capacity (ready d) ->
  pp_admission M L d = (d', Returns task) ->
  size (ready d') < capacity (ready d').
Proof.
  intros Hpp Hroom. unfold pp_admission, run_bind.
  assert (Hb : bounded (ready d)) by (unfold bounded; lia).
  pose proof (pp_recv_bounded L d Hb) as Hb1.
  pose proof (pp_recv_capacity L d) as Hc1.
  destruct (pp_recv M L d) as [d1 [[] | |]]; [| discriminate..]. cbn [fst] in *.
  pose proof (pp_input_bounded L d1 Hb1) as Hb2.
  pose proof (pp_input_capacity L d1) as Hc2.
  destruct (pp_input M L d1) as [d2 [[] | |]]; [| discriminate..]. cbn [fst] in *.
  unfold pp_select. rewrite Hpp.
  destruct (empty (readyQueue (pipeline d2))) eqn:Ee; [discriminate |].
  unfold pop, empty, ready, size, bounded in *.
  destruct (items (readyQueue (pipeline d2))) as [| x tl] eqn:Ei; [discriminate |].
  unfold size in Hb2. rewrite Ei in Hb2.
  intros H. inversion H; subst. cbn in *. lia.
Qed.


End ReadyQueue.


(** ** Buffers: stores, loads and the row-wise kernels *)

Lemma mem_store_in m p n g a : p <= a < p + n -> mem_store m p n g a = g (a - p).
Proof. intros H. unfold mem_store. apply in_block_true in H. rewrite H. reflexivity. Qed.

Lemma mem_store_out m p n g a : ~ (p <= a < p + n) -> mem_store m p n g a = m a.
Proof. intros H. unfold mem_store. apply in_block_false in H. rewrite H. reflexivity. Qed.

Lemma mem_load_fun (m : Mem) p n (g : Z -> f32) :
  (forall j, 0 <= j < n -> m (p + j) = g j) -> mem_load m p n = g <$> seqZ 0 n.
Proof.
  intros H. unfold mem_load. apply list_fmap_ext. intros i x Hx.
  apply lookup_seqZ in Hx. destruct Hx as [-> Hi]. apply H. lia.
Qed.

Lemma mem_load_ext (m m' : Mem) p p' n :
  (forall j, 0 <= j < n -> m (p + j) = m' (p' + j)) -> mem_load m p n = mem_load m' p' n.
Proof. intros H. apply mem_load_fun. exact H. Qed.

Lemma rowwise_rows f h w (m : Mem) inp out rows :
  0 <= w -> 0 <= rows ->
  (forall a, ~ (out <= a < out + rows * w) -> rowwise f h w m inp out rows a = m a)
  /\ (forall k, 0 <= k < rows ->
        mem_load (rowwise f h w m inp out rows) (out + k * w) w
        = f (mem_load m (inp + k * h) h) <$> seqZ 0 w).
Proof.
  intros Hw Hrows. unfold rowwise.
  destruct (foldl_blocks_Z
              (fun acc r => mem_store acc (out + r * w) w (f (mem_load m (inp + r * h) h)))
              out w (fun k j => f (mem_load m (inp + k * h) h) j) m rows Hw Hrows)
    as [Hout Hin].
  - intros acc k a Hk Ha. apply mem_store_out. exact Ha.
  - intros acc k j Hk Hj _ _. rewrite mem_store_in by lia. f_equal. lia.
  - split; [exact Hout |]. intros k Hk. apply mem_load_fun. intros j Hj.
    apply Hin; assumption.
Qed.

(** *** Gathering the last rows *)

Lemma copy_last_rows_spec L lnIn (m : Mem) :
  let H := l_hiddenSize L in
  let B := l_batchSize L in
  let S := l_inputSeqLen L in
  0 <= H -> 0 <= B -> 1 <= S -> B * S <= Int.max_int -> B * S * H <= Int.max_int ->
  B * S * H <= lnIn ->
  (forall a, ~ (lnIn <= a < lnIn + B * H) -> copy_last_rows L lnIn m a = m a)
  /\ (forall b, 0 <= b < B ->
        mem_load (copy_last_rows L lnIn m) (lnIn + b * H) H = last_token_row L m b).
Proof.
  cbn zeta. intros HH HB HS HBS HBSH Hln. unfold copy_last_rows. rewrite for_range_0.
  set (H := l_hiddenSize L) in *. set (B := l_batchSize L) in *.
  set (S := l_inputSeqLen L) in *.
  assert (Hex : forall b, 0 <= b < B ->
            b *i H = b * H /\ ((b +i 1) *i S -i 1) *i H = ((b + 1) * S - 1) * H
            /\ 0 <= ((b + 1) * S - 1) * H /\ ((b + 1) * S - 1) * H + H <= B * S * H).
  { intros b Hb.
    assert (H1 : (b + 1) * S <= B * S) by (apply Z.mul_le_mono_nonneg_r; lia).
    assert (H2 : 0 <= (b + 1) * S - 1) by nia.
    assert (H3 : ((b + 1) * S - 1) * H + H = (b + 1) * S * H) by lia.
    assert (H4 : (b + 1) * S * H <= B * S * H) by (apply Z.mul_le_mono_nonneg_r; lia).
    assert (H5 : 0 <= b * H) by nia.
    assert (H6 : b * H <= B * S * H).
    { transitivity (B * S * H); [| lia]. transitivity ((b + 1) * S * H); [| lia].
      rewrite <- H3. nia. }
    assert (H7 : 0 <= ((b + 1) * S - 1) * H) by nia.
    rewrite (mul_exact b H) by (unfold Int.in_range, Int.min_int in *; lia).
    rewrite (add_exact b 1) by (unfold Int.in_range, Int.min_int, Int.max_int in *; nia).
    rewrite (mul_exact (b + 1) S) by (unfold Int.in_range, Int.min_int in *; nia).
    rewrite (sub_exact _ 1) by (unfold Int.in_range, Int.min_int in *; nia).
    rewrite (mul_exact _ H) by (unfold Int.in_range, Int.min_int in *; nia).
    repeat split; lia. }
  destruct (foldl_blocks_Z
              (fun (m0 : Mem) b =>
                 memcpy m0 (lnIn + b *i H) (embBuf + ((b +i 1) *i S -i 1) *i H) H)
              lnIn H (fun b j => m (((b + 1) * S - 1) * H + j)) m B HH HB)
    as [Hout Hin].
  - intros acc k a Hk Ha. destruct (Hex k Hk) as (-> & _). unfold memcpy.
    apply mem_store_out. exact Ha.
  - intros acc k j Hk Hj Hacc _. destruct (Hex k Hk) as (-> & -> & Hlo & Hhi).
    unfold memcpy, embBuf. rewrite mem_store_in by lia.
    replace (lnIn + k * H + j - (lnIn + k * H)) with j by lia.
    rewrite Z.add_0_l. apply Hacc. lia.
  - split; [exact Hout |]. intros b Hb. unfold last_token_row, embBuf.
    apply mem_load_ext. intros j Hj. fold H S. rewrite Z.add_0_l. apply Hin; assumption.
Qed.

(** *** Replicating the rows of the prompts over their beams *)

Lemma replicate_prompt_spec beam W out (acc : Mem) b U :
  1 < beam -> 0 <= W -> 0 <= b < U ->
  U * beam <= Int.max_int -> U * beam * W <= Int.max_int ->
  let r := replicate_prompt beam W out acc b in
  (forall a, ~ (out + b * beam * W <= a < out + (b + 1) * beam * W) -> r a = acc a)
  /\ (forall k j, 0 <= k < beam -> 0 <= j < W ->
        r (out + (b * beam + k) * W + j) = acc (out + b * W + j)).
Proof.
  intros Hbeam HW Hb HUb HUbW. cbn zeta. unfold replicate_prompt.
  assert (Hb1 : (b + 1) * beam <= U * beam) by (apply Z.mul_le_mono_nonneg_r; lia).
  assert (Hb0 : 0 <= b * beam) by nia.
  assert (HbW : (b + 1) * beam * W <= U * beam * W) by (apply Z.mul_le_mono_nonneg_r; lia).
  rewrite (mul_exact b beam) by (unfold Int.in_range, Int.min_int in *; lia).
  rewrite (add_exact b 1) by (unfold Int.in_range, Int.min_int, Int.max_int in *; nia).
  rewrite (mul_exact (b + 1) beam) by (unfold Int.in_range, Int.min_int in *; nia).
  assert (HbWr : b * W <= (b + 1) * beam * W) by nia.
  rewrite (mul_exact b W) by (unfold Int.in_range, Int.min_int in *; nia).
  unfold for_range. replace ((b + 1) * beam - b * beam) with beam by lia.
  replace (seqZ (b * beam) beam) with (Z.add (b * beam) <$> seqZ 0 beam)
    by (rewrite fmap_add_seqZ; f_equal; lia).
  rewrite foldl_fmap.
  destruct (foldl_blocks_Z
              (fun (m0 : Mem) k =>
                 if b * beam + k =? b then m0
                 else memcpy m0 (out + (b * beam + k) *i W) (out + b * W) W)
              (out + b * beam * W) W (fun k j => acc (out + b * W + j)) acc beam HW
              ltac:(lia)) as [Hout Hin].
  - intros acc0 k a Hk Ha.
    destruct (b * beam + k =? b); [reflexivity |].
    rewrite (mul_exact (b * beam + k) W) by (unfold Int.in_range, Int.min_int in *; nia).
    unfold memcpy. apply mem_store_out. lia.
  - intros acc0 k j Hk Hj Hacc Hprev.
    destruct (b * beam + k =? b) eqn:E.
    + apply Z.eqb_eq in E. rewrite Hacc by lia. f_equal. nia.
    + apply Z.eqb_neq in E.
      rewrite (mul_exact (b * beam + k) W) by (unfold Int.in_range, Int.min_int in *; nia).
      unfold memcpy. rewrite mem_store_in by lia.
      replace (out + b * beam * W + k * W + j - (out + (b * beam + k) * W)) with j by lia.
      destruct (Z.eq_dec b 0) as [Hz | Hnz].
      * (* the source row is block 0 of this very loop, visited and kept *)
        assert (Hk0 : 0 < k) by lia.
        specialize (Hprev 0 j ltac:(lia) Hj).
        replace (out + b * beam * W + 0 * W + j) with (out + b * W + j) in Hprev
          by (rewrite Hz; lia).
        exact Hprev.
      * apply Hacc. nia.
  - split.
    + intros a Ha. apply Hout. lia.
    + intros k j Hk Hj. specialize (Hin k j Hk Hj).
      replace (out + (b * beam + k) * W + j) with (out + b * beam * W + k * W + j) by lia.
      exact Hin.
Qed.

Lemma beam_replicate_steps beam W out (m : Mem) U (n : nat) :
  1 < beam -> 0 <= W -> Z.of_nat n <= U ->
  U * beam <= Int.max_int -> U * beam * W <= Int.max_int ->
  let lo := U - Z.of_nat n in
  let r := foldl (replicate_prompt beam W out) m (reverse (seqZ lo (Z.of_nat n))) in
  (forall a, ~ (out + lo * beam * W <= a < out + U * beam * W) -> r a = m a)
  /\ (forall b k j, lo <= b < U -> 0 <= k < beam -> 0 <= j < W ->
        r (out + (b * beam + k) * W + j) = m (out + b * W + j)).
Proof.
  intros Hbeam HW Hn HUb HUbW. induction n as [| n IH]; cbn zeta.
  - cbn. split; [reflexivity | intros; lia].
  - rewrite seqZ_cons by lia. rewrite reverse_cons, foldl_app. cbn [foldl].
    replace (Z.succ (U - Z.of_nat (S n))) with (U - Z.of_nat n) by lia.
    replace (Z.pred (Z.of_nat (S n))) with (Z.of_nat n) by lia.
    destruct IH as [IHout IHin]; [lia |].
    set (b := U - Z.of_nat (S n)).
    set (prev := foldl (replicate_prompt beam W out) m
                   (reverse (seqZ (U - Z.of_nat n) (Z.of_nat n)))) in *.
    destruct (replicate_prompt_spec beam W out prev b U Hbeam HW ltac:(lia) HUb HUbW)
      as [Hout Hin].
    assert (Hlo : U - Z.of_nat n = b + 1) by lia. rewrite Hlo in *.
    split.
    + intros a Ha. rewrite Hout by nia. apply IHout. nia.
    + intros b' k j Hb' Hk Hj.
      destruct (Z.eq_dec b' b) as [-> | Hne].
      * rewrite Hin by assumption. apply IHout. nia.
      * assert (Hgt : b + 1 <= b') by lia.
        rewrite Hout; [apply IHin; [lia | assumption..] |].
        assert ((b + 1) * beam * W <= b' * beam * W)
          by (apply Z.mul_le_mono_nonneg_r; [lia |]; apply Z.mul_le_mono_nonneg_r; lia).
        nia.
Qed.


(** ** The final stage: normalisation, projection, replication (C2, C6) *)

Section FinalStage.

Variable M : Model.

Lemma final_stage_returns L d ln :
  lastLayerNormForward_row M = Some ln ->
  let p := predictor d in
  snd (final_stage M L d) = Returns (Logits (outBuf L) (getSplitOffset p) (getSplitSize p))
  /\ act (heap (fst (final_stage M L d)))
     = (if (l_step L =? 0) && (l_beamSize L >? 1)
        then beam_replicate (l_userSideBS L) (l_beamSize L) (getSplitSize p) (outBuf L)
               (projected_memory ln L d)
        else projected_memory ln L d)
  /\ trace (fst (final_stage M L d))
     = trace d ++ [EvLastLayerNorm (ActPtr (if needs_copy L then outBuf L else embBuf))
                     (ActPtr embBuf) (logit_rows L);
                   EvPredictor (ActPtr embBuf) (ActPtr (outBuf L)) (logit_rows L)].
Proof.
  intros Hln. cbn zeta. unfold final_stage, projected_memory. rewrite Hln.
  destruct (needs_copy L), ((l_step L =? 0) && (l_beamSize L >? 1)); cbn;
    rewrite <- ?app_assoc; repeat split; reflexivity.
Qed.

Lemma outBuf_exact L :
  0 <= l_hiddenSize L -> 0 <= l_batchSize L -> 0 <= l_inputSeqLen L ->
  l_batchSize L * l_inputSeqLen L <= Int.max_int ->
  l_batchSize L * l_inputSeqLen L * l_hiddenSize L <= Int.max_int ->
  outBuf L = l_batchSize L * l_inputSeqLen L * l_hiddenSize L.
Proof.
  intros HH HB HS HBS HBSH. unfold outBuf, embBuf.
  rewrite (mul_exact (l_batchSize L)) by (unfold Int.in_range, Int.min_int in *; nia).
  rewrite mul_exact by (unfold Int.in_range, Int.min_int in *; nia).
  lia.
Qed.



End FinalStage.

Section Logits.

Variable M : Model.


Lemma forward_layers_advances L d :
  advances any_event d (fst (forward_layers M L d)).
Proof.
  assert (Hw : forall d0 d0', advances not_layer_event d0 d0' -> advances any_event d0 d0')
    by (intros; eapply advances_weaken; [| eassumption]; intros; exact I).
  unfold forward_layers.
  apply run_bind_advances; [apply Hw, embeddingForward_advances |]. intros _ d2.
  apply run_bind_advances; [cbn [modify fst]; advance |]. intros _ d3.
  apply run_bind_advances;
    [cbn [modify fst]; apply Hw, prepare_mask_and_positions_advances |]. intros _ d4.
  apply run_bind_advances; [apply Hw, pp_admission_advances |]. intros task d5.
  apply run_bind_advances; [| intros _ d6; apply Hw, pp_send_advances].
  cbn [modify fst]. destruct (snd task); [apply layer_loop_advances | advance].
Qed.

Lemma hidden_state_advances ids dims step la d :
  advances any_event d (hidden_state M ids dims step la d).
Proof.
  unfold hidden_state. eapply advances_trans; [| apply forward_layers_advances].
  eapply advances_weaken; [| apply forward_setup_advances]. intros; exact I.
Qed.

(** A call that returns logits has run the final stage on the hidden state. *)
Lemma forward_logits ids dims step la d d' out off size :
  forward M ids dims step la d = (d', Returns (Logits out off size)) ->
  final_stage M (locals_of M ids dims step la d) (hidden_state M ids dims step la d)
  = (d', Returns (Logits out off size)).
Proof.
  intros H. destruct (forward_returns M _ _ _ _ _ _ _ H) as (sent & _ & Hf).
  destruct sent; [destruct Hf as [_ Hf]; discriminate | exact Hf].
Qed.


End Logits.



(** In that call the first row of the beams of prompt 1 is the logits row of
    position 1 (prompt 0), and differs from both logits rows of prompt 1. *)
Example beam_rows_logitsAll_rows :
  let M := Toy.model false false in
  let d := Toy.decoder 1 in
  let L := locals_of M [1; 2; 3; 4] (2, 2, 2) 0 true d in
  let d' := fst (forward M [1; 2; 3; 4] (2, 2, 2) 0 true d) in
  let hidden := act (heap (hidden_state M [1; 2; 3; 4] (2, 2, 2) 0 true d)) in
  let row r := logits_row (predictor d) Toy.layerNorm (hidden_row L hidden r) in
  returned_row d' 8 3 2 = row 1
  /\ returned_row d' 8 3 2 <> row 2
  /\ returned_row d' 8 3 2 <> row 3.
Proof. vm_compute. repeat split; discriminate. Qed.

(** ** A single rank, a single stage: the rows of the logits (C6) *)

Lemma new_CommonDecoder_consistent cfg t w h0 ps0 d :
  new_CommonDecoder cfg t w h0 ps0 = Ends (Returns d) -> consistent d.
Proof.
  intros H. destruct (quant_checks_cases cfg) as [Q | [msg Q]].
  - rewrite (new_CommonDecoder_after_checks _ _ _ _ _ Q) in H.
    destruct (negb (Int.div_defined _ _)); [discriminate |].
    destruct (negb _); [discriminate |]. inversion H. repeat split.
  - unfold new_CommonDecoder in H. rewrite Q in H. discriminate.
Qed.

Section SingleStage.

Variable M : Model.

Lemma advances_hiddenSize P d d' :
  advances P d d' -> hiddenSize (context d') = hiddenSize (context d).
Proof. intros H. exact (f_equal hiddenSize (adv_context _ _ _ H)). Qed.


Lemma locals_plain ids dims la d :
  prefixSharing d = false ->
  locals_of M ids dims 0 la d
  = {| l_ids := ids;
       l_userSideBS := Int.of_int64 (fst (fst dims));
       l_beamSize := Int.of_int64 (snd (fst dims));
       l_batchSize := Int.of_int64 (fst (fst dims));
       l_seqLen := Int.of_int64 (snd dims);
       l_pastSeqLen := 0;
       l_inputSeqLen := Int.of_int64 (snd dims);
       l_hiddenSize := hiddenSize (context d);
       l_step := 0;
       l_logitsAll := la |}.
Proof.
  intros Hp. unfold locals_of, forward_setup. destruct dims as [[dims0 dims1] dims2].
  cbn [Z.eqb set_accSeqLen set_initSeqLen prefixSharing resize_context set_context call log
         set_trace set_heap fst snd].
  rewrite Hp. reflexivity.
Qed.


Lemma before_admission_pipeline L d :
  pipeline (prepare_mask_and_positions M L d) = pipeline d.
Proof. reflexivity. Qed.


End SingleStage.




(* ===================================================================== *)
(** * Part III: further properties of the code                            *)
(* ===================================================================== *)

(** ** The accumulation kernel [xft::addto] (X1, X2, X3) *)

Lemma testbit_ffff k : 0 <= k -> Z.testbit 0xffff k = (k <? 16).
Proof.
  intros Hk. destruct (k <? 16) eqn:E.
  - apply Z.ltb_lt in E.
    assert (Hc : k = 0 \/ k = 1 \/ k = 2 \/ k = 3 \/ k = 4 \/ k = 5 \/ k = 6 \/ k = 7
                 \/ k = 8 \/ k = 9 \/ k = 10 \/ k = 11 \/ k = 12 \/ k = 13 \/ k = 14
                 \/ k = 15) by lia.
    repeat (destruct Hc as [-> | Hc]; [reflexivity |]). subst. reflexivity.
  - apply Z.ltb_ge in E. apply Z.bits_above_log2; [lia |].
    change (Z.log2 65535) with 15. lia.
Qed.

(** The tail mask selects the lanes below the remainder. *)
Lemma tail_mask_bits r k :
  Int.min_int <= r <= Int.max_int -> -16 < r < 16 -> 0 <= k < 16 ->
  Z.testbit (mmask16 (Z.shiftr 0xFFFF (kStep -i r))) k = (k <? r).
Proof.
  intros Hr Hr' Hk. unfold mmask16, kStep.
  rewrite sub_exact by (unfold Int.in_range, Int.min_int, Int.max_int in *; lia).
  rewrite Z.land_spec, Z.shiftr_spec by lia.
  rewrite !testbit_ffff by lia.
  destruct (k <? r) eqn:E1, (k + (16 - r) <? 16) eqn:E2, (k <? 16) eqn:E3; try reflexivity; lia.
Qed.

Lemma mask_storeu_full m p v a :
  mm512_mask_storeu_ps m p 0xffff v a = if in_block p kStep a then v (a - p) else m a.
Proof.
  unfold mm512_mask_storeu_ps. destruct (in_block p kStep a) eqn:E; [| reflexivity].
  apply in_block_true in E. unfold kStep in E.
  rewrite testbit_ffff by lia. replace (a - p <? 16) with true by lia. reflexivity.
Qed.

Lemma maskz_loadu_full m p k : 0 <= k < 16 -> mm512_maskz_loadu_ps 0xffff m p k = m (p + k).
Proof.
  intros Hk. unfold mm512_maskz_loadu_ps. rewrite testbit_ffff by lia.
  replace (k <? 16) with true by lia. reflexivity.
Qed.

(** The kernel adds element by element when no element is read after the
    kernel has written it: [src] is at or after [dst], or ends before it. *)
Lemma addto_kernel_spec (op : m512 -> m512 -> m512) (combine : f32 -> f32 -> f32)
    (dst src size : Z) (m : Mem) :
  (forall u v k, op u v k = combine (u k) (v k)) ->
  0 <= size <= Int.max_int ->
  dst <= src \/ src + size <= dst ->
  forall a, addto_kernel op dst src size m a = accumulate combine dst src size m a.
Proof.
  intros Hop Hsize Hsep a. unfold addto_kernel, Int.quot, Int.rem, kStep.
  assert (Hmax : Int.max_int = 2147483647) by reflexivity.
  assert (Hmin : Int.min_int = -2147483648) by reflexivity.
  rewrite Z.quot_div_nonneg, Z.rem_mod_nonneg by lia.
  pose proof (Z.div_mod size 16 ltac:(lia)) as Hdm.
  pose proof (Z.mod_pos_bound size 16 ltac:(lia)) as Hr.
  assert (Hn : 0 <= size `div` 16) by (apply Z.div_pos; lia).
  rewrite (wrap_in_range (size `div` 16)) by (unfold Int.in_range; lia).
  set (n := size `div` 16) in *. set (r := size `mod` 16) in *.
  rewrite for_range_0.
  destruct (foldl_blocks_Z
              (fun m i =>
                 mm512_mask_storeu_ps m (dst + i *i 16) 65535
                   (op (mm512_maskz_loadu_ps 65535 m (dst + i *i 16))
                       (mm512_maskz_loadu_ps 65535 m (src + i *i 16))))
              dst 16 (fun k j => combine (m (dst + k * 16 + j)) (m (src + k * 16 + j)))
              m n ltac:(lia) Hn) as [Hout Hin].
  - intros acc k b Hk Hb. rewrite mul_exact by (unfold Int.in_range; lia).
    rewrite mask_storeu_full. unfold kStep.
    destruct (in_block _ _ _) eqn:E; [apply in_block_true in E; lia | reflexivity].
  - intros acc k j Hk Hj Hacc _. rewrite mul_exact by (unfold Int.in_range; lia).
    rewrite mask_storeu_full. unfold kStep.
    destruct (in_block _ _ _) eqn:E; [| apply in_block_false in E; lia].
    replace (dst + k * 16 + j - (dst + k * 16)) with j by lia.
    rewrite Hop, !maskz_loadu_full by lia.
    rewrite <- !Z.add_assoc, !(Hacc _) by lia. rewrite !Z.add_assoc. reflexivity.
  - set (m1 := foldl _ m (seqZ 0 n)) in *. unfold accumulate.
    assert (Hblocks : forall b, dst <= b < dst + n * 16 ->
              m1 b = combine (m b) (m (src + (b - dst)))).
    { intros b Hb.
      pose proof (Z.div_mod (b - dst) 16 ltac:(lia)) as Hb1.
      pose proof (Z.mod_pos_bound (b - dst) 16 ltac:(lia)) as Hb2.
      assert (Hq : 0 <= (b - dst) `div` 16 < n).
      { split; [apply Z.div_pos; lia | apply Z.div_lt_upper_bound; lia]. }
      replace b with (dst + (b - dst) `div` 16 * 16 + (b - dst) `mod` 16) at 1 by lia.
      rewrite Hin by lia. f_equal; f_equal; lia. }
    destruct (r =? 0) eqn:Er; cbn [negb].
    + apply Z.eqb_eq in Er.
      destruct (in_block dst size a) eqn:E.
      * apply in_block_true in E. apply Hblocks. lia.
      * apply in_block_false in E. apply Hout. lia.
    + apply Z.eqb_neq in Er. unfold mm512_mask_storeu_ps, kStep.
      destruct (in_block (dst + size - r) 16 a) eqn:Eb; cbn [andb].
      * apply in_block_true in Eb.
        rewrite tail_mask_bits by lia.
        destruct (a - (dst + size - r) <? r) eqn:El.
        -- apply Z.ltb_lt in El. rewrite Hop. unfold mm512_maskz_loadu_ps.
           rewrite tail_mask_bits by lia.
           replace (a - (dst + size - r) <? r) with true by lia.
           replace (in_block dst size a) with true
             by (symmetry; apply in_block_true; lia).
           rewrite !Hout by lia. f_equal; f_equal; lia.
        -- apply Z.ltb_ge in El.
           replace (in_block dst size a) with false
             by (symmetry; apply in_block_false; lia).
           apply Hout. lia.
      * apply in_block_false in Eb.
        destruct (in_block dst size a) eqn:E.
        -- apply in_block_true in E. apply Hblocks. lia.
        -- apply in_block_false in E. apply Hout. lia.
Qed.

(** X1. [addto(dst, src, size)], its helpers [load_avx512] and
    [store_avx512] being the masked load and store, with [0 <= size] and with
    [src] at or after [dst], or ending before it: every element [k < size] of
    [dst] becomes the sum of what it held and element [k] of [src], and
    nothing outside [dst[0..size)] changes: the tail block writes only the
    [size % 16] lanes that are left. *)
Theorem addto_adds (load store add_ps : _) (dst src size : Z) (m : Mem) :
  load = mm512_maskz_loadu_ps -> store = mm512_mask_storeu_ps ->
  0 <= size <= Int.max_int ->
  dst <= src \/ src + size <= dst ->
  (forall k, 0 <= k < size ->
     addto load store add_ps dst src size m (dst + k)
     = add_ps (m (dst + k)) (m (src + k)))
  /\ (forall a, ~ (dst <= a < dst + size) ->
        addto load store add_ps dst src size m a = m a).
Proof.
  intros -> -> Hsize Hsep.
  pose proof (addto_kernel_spec (mm512_add_ps add_ps) add_ps dst src size m
                ltac:(reflexivity) Hsize Hsep) as H.
  change (addto_kernel (mm512_add_ps add_ps) dst src size m)
    with (addto mm512_maskz_loadu_ps mm512_mask_storeu_ps add_ps dst src size m) in H.
  split.
  - intros k Hk. rewrite H. unfold accumulate.
    replace (in_block dst size (dst + k)) with true by (symmetry; apply in_block_true; lia).
    f_equal. f_equal. lia.
  - intros a Ha. rewrite H. unfold accumulate.
    apply in_block_false in Ha. rewrite Ha. reflexivity.
Qed.

Lemma addto_adds_witness :
  addto mm512_maskz_loadu_ps mm512_mask_storeu_ps Z.add 0 100 19 (fun a => a) (0 + 17)
  = 17 + 117
  /\ addto mm512_maskz_loadu_ps mm512_mask_storeu_ps Z.add 0 100 19 (fun a => a) 19 = 19.
Proof.
  destruct (addto_adds mm512_maskz_loadu_ps mm512_mask_storeu_ps Z.add 0 100 19
              (fun a => a)) as [Hin Hout].
  - reflexivity.
  - reflexivity.
  - vm_compute. split; discriminate.
  - left. lia.
  - split; [apply (Hin 17); lia | apply (Hout 19); lia].
Defined.

(** X2. [addto(dst, src, scale, size)] under the same conditions: element
    [k < size] of [dst] becomes [fma(src[k], scale, dst[k])], and nothing
    outside [dst[0..size)] changes. *)
Theorem addto_scale_accumulates (load store fmadd_ps : _)
    (dst src : Z) (scale : f32) (size : Z) (m : Mem) :
  load = mm512_maskz_loadu_ps -> store = mm512_mask_storeu_ps ->
  0 <= size <= Int.max_int ->
  dst <= src \/ src + size <= dst ->
  (forall k, 0 <= k < size ->
     addto_scale load store fmadd_ps dst src scale size m (dst + k)
     = fmadd_ps (m (src + k)) scale (m (dst + k)))
  /\ (forall a, ~ (dst <= a < dst + size) ->
        addto_scale load store fmadd_ps dst src scale size m a = m a).
Proof.
  intros -> -> Hsize Hsep.
  pose proof (addto_kernel_spec
                (fun u v => mm512_fmadd_ps fmadd_ps v (mm512_set1_ps scale) u)
                (fun x y => fmadd_ps y scale x) dst src size m
                ltac:(reflexivity) Hsize Hsep) as H.
  change (addto_kernel _ dst src size m)
    with (addto_scale mm512_maskz_loadu_ps mm512_mask_storeu_ps fmadd_ps dst src scale size
            m) in H.
  split.
  - intros k Hk. rewrite H. unfold accumulate.
    replace (in_block dst size (dst + k)) with true by (symmetry; apply in_block_true; lia).
    f_equal; f_equal; lia.
  - intros a Ha. rewrite H. unfold accumulate.
    apply in_block_false in Ha. rewrite Ha. reflexivity.
Qed.

Lemma addto_scale_accumulates_witness :
  addto_scale mm512_maskz_loadu_ps mm512_mask_storeu_ps (fun a b c => a * b + c)
    40 40 3 35 (fun a => a) (40 + 34)
  = 74 * 3 + 74
  /\ addto_scale mm512_maskz_loadu_ps mm512_mask_storeu_ps (fun a b c => a * b + c)
       40 40 3 35 (fun a => a) 75
     = 75.
Proof.
  destruct (addto_scale_accumulates mm512_maskz_loadu_ps mm512_mask_storeu_ps
              (fun a b c => a * b + c) 40 40 3 35 (fun a => a))
    as [Hin Hout].
  - reflexivity.
  - reflexivity.
  - vm_compute. split; discriminate.
  - left. lia.
  - split; [apply (Hin 34); lia | apply (Hout 75); lia].
Defined.

Lemma addto_kernel_nonpositive (op : m512 -> m512 -> m512) (dst src size : Z) (m : Mem) :
  Int.min_int <= size <= 0 ->
  forall a, addto_kernel op dst src size m a = m a.
Proof.
  intros Hsize a. unfold addto_kernel, Int.quot, Int.rem, kStep.
  assert (Hmax : Int.max_int = 2147483647) by reflexivity.
  assert (Hmin : Int.min_int = -2147483648) by reflexivity.
  pose proof (Z.quot_rem' size 16) as Hqr.
  pose proof (Z.rem_bound_pos_neg size 16 ltac:(lia) ltac:(lia)) as Hr.
  assert (Hq : size ÷ 16 <= 0) by lia.
  assert (Hq' : Int.min_int <= size ÷ 16) by lia.
  rewrite (wrap_in_range (size ÷ 16)) by (unfold Int.in_range; lia).
  unfold for_range. rewrite seqZ_nil by lia. cbn [foldl].
  destruct (Z.rem size 16 =? 0); cbn [negb]; [reflexivity |].
  unfold mm512_mask_storeu_ps, kStep.
  destruct (in_block _ 16 a) eqn:Eb; [| reflexivity].
  apply in_block_true in Eb. rewrite tail_mask_bits by lia.
  destruct (_ <? _) eqn:El; [apply Z.ltb_lt in El; lia | reflexivity].
Qed.

(** X3. With [size <= 0] both overloads leave memory as it is (the helpers
    being the masked load and store): no block is processed and, when [size]
    is not a multiple of 16, the tail mask [0xFFFF >> (16 - size % 16)] has
    no lane set. *)
Theorem addto_nonpositive_size (load store add_ps fmadd_ps : _)
    (dst src : Z) (scale : f32) (size : Z) (m : Mem) :
  load = mm512_maskz_loadu_ps -> store = mm512_mask_storeu_ps ->
  Int.min_int <= size <= 0 ->
  forall a, addto load store add_ps dst src size m a = m a
            /\ addto_scale load store fmadd_ps dst src scale size m a = m a.
Proof.
  intros -> -> Hsize a. split.
  - apply (addto_kernel_nonpositive (mm512_add_ps add_ps)). exact Hsize.
  - apply (addto_kernel_nonpositive
             (fun u v => mm512_fmadd_ps fmadd_ps v (mm512_set1_ps scale) u)). exact Hsize.
Qed.

Lemma addto_nonpositive_size_witness :
  addto mm512_maskz_loadu_ps mm512_mask_storeu_ps Z.add 0 100 (-5) (fun a => a) 0 = 0
  /\ addto_scale mm512_maskz_loadu_ps mm512_mask_storeu_ps (fun a b c => a * b + c)
       0 100 2 (-5) (fun a => a) 0
     = 0.
Proof.
  apply (addto_nonpositive_size mm512_maskz_loadu_ps mm512_mask_storeu_ps Z.add
           (fun a b c => a * b + c) 0 100 2 (-5) (fun a => a)).
  - reflexivity.
  - reflexivity.
  - vm_compute. split; discriminate.
Defined.

(** ** The positions of [OptDecoder::embeddingForward] (X4) *)

Lemma array_set_eq arr k v : array_set arr k v k = Some v.
Proof. unfold array_set. rewrite Z.eqb_refl. reflexivity. Qed.

Lemma array_set_ne arr k v a : a <> k -> array_set arr k v a = arr a.
Proof. intros H. unfold array_set. apply Z.eqb_neq in H. rewrite H. reflexivity. Qed.

Lemma position_row_spec acc S B ps b :
  0 <= b < B -> 0 <= S -> B * S <= Int.max_int ->
  0 <= acc -> acc + S <= Int.max_int + 1 ->
  (forall a, ~ (b * S <= a < b * S + S) ->
     OptDecoderEmbedding.position_row acc S ps b a = ps a)
  /\ (forall i, 0 <= i < S ->
        OptDecoderEmbedding.position_row acc S ps b (b * S + i) = Some (acc + i)).
Proof.
  intros Hb HS HBS Hacc HaS.
  assert (Hmax : Int.max_int = 2147483647) by reflexivity.
  assert (HbS : 0 <= b * S /\ b * S + S <= B * S) by nia.
  unfold OptDecoderEmbedding.position_row. rewrite for_range_0.
  destruct (foldl_blocks_Z
              (fun ps i => array_set ps (b *i S +i i) (i +i acc))
              (b * S) 1 (fun i _ => Some (acc + i)) ps S ltac:(lia) HS) as [Hout Hin].
  - intros arr k a Hk Ha.
    rewrite mul_exact, add_exact by (unfold Int.in_range, Int.min_int; lia).
    apply array_set_ne. lia.
  - intros arr k j Hk Hj _ _.
    rewrite mul_exact, !add_exact by (unfold Int.in_range, Int.min_int; lia).
    replace (b * S + k * 1 + j) with (b * S + k) by lia.
    rewrite array_set_eq. f_equal. lia.
  - split.
    + intros a Ha. apply Hout. lia.
    + intros i Hi. specialize (Hin i 0 Hi ltac:(lia)).
      replace (b * S + i * 1 + 0) with (b * S + i) in Hin by lia. exact Hin.
Qed.

(** X4. [OptDecoder::embeddingForward] writes every element of
    [positions[batchSize * seqLen]] and nothing else: token [i] of every batch
    item gets position [accSeqLen + i], the tokens of the call continuing the
    positions of the tokens accumulated so far.  The sizes are non-negative
    and the products fit an [int]. *)
Theorem opt_positions_follow_accumulated_length (acc B S : Z) :
  0 <= B -> 0 <= S -> B * S <= Int.max_int ->
  0 <= acc -> acc + S <= Int.max_int + 1 ->
  (forall b i, 0 <= b < B -> 0 <= i < S ->
     OptDecoderEmbedding.positions acc B S (b * S + i) = Some (acc + i))
  /\ (forall a, ~ (0 <= a < B * S) -> OptDecoderEmbedding.positions acc B S a = None).
Proof.
  intros HB HS HBS Hacc HaS.
  unfold OptDecoderEmbedding.positions. rewrite for_range_0.
  destruct (foldl_blocks_Z (OptDecoderEmbedding.position_row acc S) 0 S
              (fun _ i => Some (acc + i)) (fun _ => None) B HS HB) as [Hout Hin].
  - intros arr b a Hb Ha.
    apply (position_row_spec acc S B arr b); assumption.
  - intros arr b i Hb Hi _ _.
    replace (0 + b * S + i) with (b * S + i) by lia.
    apply (position_row_spec acc S B arr b); assumption.
  - split.
    + intros b i Hb Hi. specialize (Hin b i Hb Hi).
      replace (0 + b * S + i) with (b * S + i) in Hin by lia. exact Hin.
    + intros a Ha. apply Hout. lia.
Qed.

Lemma opt_positions_follow_accumulated_length_witness :
  OptDecoderEmbedding.positions 7 2 3 (1 * 3 + 2) = Some (7 + 2)
  /\ OptDecoderEmbedding.positions 7 2 3 6 = None.
Proof.
  destruct (opt_positions_follow_accumulated_length 7 2 3) as [Hin Hout];
    try (vm_compute; discriminate).
  split; [apply Hin; lia | apply Hout; lia].
Defined.

(** ** The buffers (X5, X6, X7) *)

(** X5. [getAttnMask] never shrinks the mask buffer: after any sequence of
    requests its size is the largest of its initial size and the requests, and
    requests that all fit the buffer leave it, contents included, as it
    was. *)
Theorem getAttnMask_never_shrinks (mb : MaskBuf) (requests : list Z) :
  maskSize (foldl getAttnMask mb requests) = foldl Z.max (maskSize mb) requests
  /\ (Forall (fun n => n <= maskSize mb) requests -> foldl getAttnMask mb requests = mb).
Proof.
  revert mb. induction requests as [| n l IH]; intros mb; cbn [foldl].
  - split; reflexivity.
  - destruct (IH (getAttnMask mb n)) as [IH1 IH2]. split.
    + rewrite IH1. f_equal. unfold getAttnMask.
      destruct (maskSize mb <? n) eqn:E; cbn [maskSize]; lia.
    + intros Hall. inversion Hall as [| ? ? Hn Hl]; subst.
      assert (Hsame : getAttnMask mb n = mb).
      { unfold getAttnMask. destruct (maskSize mb <? n) eqn:E; [lia | reflexivity]. }
      rewrite Hsame in *. apply IH2. exact Hl.
Qed.

(** The rows that [prepareBuffers] asks of the activation buffer. *)
Lemma outRows_room actRows logitsLen V H :
  0 < H -> 0 <= V -> 0 <= actRows -> 0 <= logitsLen ->
  actRows * H <= Int.max_int -> logitsLen * V <= Int.max_int ->
  actRows + logitsLen * V + 1 <= Int.max_int -> 2 * actRows <= Int.max_int ->
  let outRows :=
    if logitsLen *i V >? actRows *i H
    then Int.quot (logitsLen *i V) H +i 1
    else actRows in
  actRows * H + logitsLen * V <= (actRows +i outRows) * H.
Proof.
  intros HH HV Ha Hl HaH HlV Hsum H2.
  assert (Hmax : Int.max_int = 2147483647) by reflexivity.
  assert (Hmin : Int.min_int = -2147483648) by reflexivity.
  assert (0 <= actRows * H) by nia. assert (0 <= logitsLen * V) by nia.
  cbn zeta. rewrite !mul_exact by (unfold Int.in_range; lia).
  unfold Int.quot. rewrite Z.quot_div_nonneg by lia.
  pose proof (Z.div_mod (logitsLen * V) H ltac:(lia)) as Hdm.
  pose proof (Z.mod_pos_bound (logitsLen * V) H HH) as Hmod.
  assert (Hq : 0 <= (logitsLen * V) `div` H <= logitsLen * V).
  { split; [apply Z.div_pos; lia |]. apply Z.div_le_upper_bound; nia. }
  rewrite (wrap_in_range ((logitsLen * V) `div` H)) by (unfold Int.in_range; lia).
  destruct (logitsLen * V >? actRows * H) eqn:E.
  - rewrite !add_exact by (unfold Int.in_range; rewrite ?add_exact by (unfold Int.in_range; lia); lia).
    nia.
  - rewrite add_exact by (unfold Int.in_range; lia). nia.
Qed.

Section Buffers.

Variable M : Model.

(** X6. [prepareBuffers] makes two requests, in this order: the activation
    buffer is resized to [rows x hiddenSize] with room, after the
    [batchSize * seqLen] activation rows, for [logitsLen * vocabSize] logits
    ([logitsLen] being every position with [logitsAll], one row per beam
    otherwise), and the KV cache is resized for [userSideBS * beamSize]
    sequences; the mask buffer then holds at least
    [batchSize * seqLen * seqLen] entries.  The sizes are non-negative, the
    hidden size positive, and the products fit an [int]. *)
Theorem prepareBuffers_room (userSideBS beamSize : Z) (logitsAll prefix : bool)
    (d : Decoder) :
  let ctx := context d in
  let B := batchSize ctx in
  let S := inputSeqLen ctx in
  let H := hiddenSize ctx in
  let V := vocabSize ctx in
  let logitsLen := if logitsAll then B * S else userSideBS * beamSize in
  let d' := prepareBuffers M userSideBS beamSize logitsAll prefix d in
  0 <= B -> 0 <= S -> 0 < H -> 0 <= V -> 0 <= logitsLen <= Int.max_int ->
  B * S * H <= Int.max_int -> B * S * S <= Int.max_int ->
  logitsLen * V <= Int.max_int ->
  B * S + logitsLen * V + 1 <= Int.max_int -> 2 * (B * S) <= Int.max_int ->
  exists rows heads,
    events_since d d'
    = [EvActResize rows H;
       EvKVResize (if prefix then prefixSeqLen d else maxPositions ctx)
                  (userSideBS *i beamSize) heads (attHeadSize ctx) prefix]
    /\ B * S * H + logitsLen * V <= rows * H
    /\ B * S * S <= maskSize (mask d').
Proof.
  intros ctx B S H V logitsLen d' HB HS HH HV Hl HBSH HBSS HlV Hsum H2.
  assert (Hmax : Int.max_int = 2147483647) by reflexivity.
  assert (Hmin : Int.min_int = -2147483648) by reflexivity.
  assert (HBS : 0 <= B * S <= Int.max_int) by nia.
  assert (HlE : (if logitsAll then B *i S else userSideBS *i beamSize) = logitsLen).
  { subst logitsLen. destruct logitsAll; apply mul_exact; unfold Int.in_range; lia. }
  eexists _, _. split; [| split].
  - subst d'. unfold events_since, prepareBuffers, call, log. cbn [trace set_trace set_heap set_mask].
    rewrite <- app_assoc, drop_app_length. cbn [app]. reflexivity.
  - fold ctx B S H V. rewrite HlE. rewrite (mul_exact B S) by (unfold Int.in_range; lia).
    rewrite <- Z.mul_assoc. rewrite (Z.mul_assoc B S H).
    apply (outRows_room (B * S) logitsLen V H); lia.
  - subst d'. unfold prepareBuffers. cbn [mask call log set_trace set_heap set_mask].
    fold ctx B S.
    replace (B * S * S) with (B *i S *i S)
      by (rewrite !mul_exact by (unfold Int.in_range; rewrite ?mul_exact by (unfold Int.in_range; lia); nia); reflexivity).
    apply getAttnMask_size.
Qed.

End Buffers.

Lemma prepareBuffers_room_witness :
  exists rows heads,
    events_since (set_context (Toy.shape 2 3 0) (Toy.decoder 1))
      (prepareBuffers (Toy.model false false) 2 2 false false
         (set_context (Toy.shape 2 3 0) (Toy.decoder 1)))
    = [EvActResize rows 2; EvKVResize 16 4 heads 1 false]
    /\ 2 * 3 * 2 + 2 * 2 * 3 <= rows * 2.
Proof.
  destruct (prepareBuffers_room (Toy.model false false) 2 2 false false
              (set_context (Toy.shape 2 3 0) (Toy.decoder 1)))
    as (rows & heads & HE & Hroom & _);
    [solve [vm_compute; first [discriminate | reflexivity | split; discriminate]] .. |].
  exists rows, heads. split; [exact HE | exact Hroom].
Defined.

(** The rows requested for the output are at least the activation rows. *)
Lemma outRows_twice actRows logitsLen V H :
  0 < H -> 0 <= V -> 0 <= actRows -> 0 <= logitsLen ->
  actRows * H <= Int.max_int -> logitsLen * V <= Int.max_int ->
  actRows + logitsLen * V + 1 <= Int.max_int -> 2 * actRows <= Int.max_int ->
  let outRows :=
    if logitsLen *i V >? actRows *i H
    then Int.quot (logitsLen *i V) H +i 1
    else actRows in
  2 * actRows * H <= (actRows +i outRows) * H.
Proof.
  intros HH HV Ha Hl HaH HlV Hsum H2.
  assert (Hmax : Int.max_int = 2147483647) by reflexivity.
  assert (Hmin : Int.min_int = -2147483648) by reflexivity.
  assert (0 <= actRows * H) by nia. assert (0 <= logitsLen * V) by nia.
  cbn zeta. rewrite !mul_exact by (unfold Int.in_range; lia).
  unfold Int.quot. rewrite Z.quot_div_nonneg by lia.
  pose proof (Z.div_mod (logitsLen * V) H ltac:(lia)) as Hdm.
  pose proof (Z.mod_pos_bound (logitsLen * V) H HH) as Hmod.
  assert (Hq : 0 <= (logitsLen * V) `div` H <= logitsLen * V).
  { split; [apply Z.div_pos; lia |]. apply Z.div_le_upper_bound; nia. }
  rewrite (wrap_in_range ((logitsLen * V) `div` H)) by (unfold Int.in_range; lia).
  destruct (logitsLen * V >? actRows * H) eqn:E.
  - rewrite !add_exact by (unfold Int.in_range; rewrite ?add_exact by (unfold Int.in_range; lia); lia).
    apply Z.gtb_lt in E.
    assert (actRows <= (logitsLen * V) `div` H) by (apply Z.div_le_lower_bound; lia).
    nia.
  - rewrite add_exact by (unfold Int.in_range; lia). nia.
Qed.

(** Discharges [forward ... d = (fst (forward ... d), Returns r)] by running
    the call. *)
Ltac run_forward :=
  match goal with
  | |- ?f = (fst ?f, _) =>
      rewrite (surjective_pairing f) at 1; apply (f_equal (pair _)); vm_compute; reflexivity
  end.

Section Fit.

Variable M : Model.

(** The set-up of a step-0 call without prefix sharing. *)
Lemma forward_setup_plain ids dims la d :
  prefixSharing d = false ->
  let U := Int.of_int64 (fst (fst dims)) in
  let beam := Int.of_int64 (snd (fst dims)) in
  let S := Int.of_int64 (snd dims) in
  fst (forward_setup M ids dims 0 la d)
  = prepareBuffers M U beam la false
      (set_accSeqLen 0 (set_initSeqLen S (resize_context M U S 0 d))).
Proof.
  intros Hp. destruct dims as [[dims0 dims1] dims2]. unfold forward_setup.
  cbn [Z.eqb fst snd prefixSharing set_accSeqLen set_initSeqLen resize_context set_context
       call log set_trace set_heap].
  rewrite Hp. reflexivity.
Qed.

(** What a call that returns logits has appended to the trace of its set-up. *)
Lemma forward_after_setup ids dims step la d d' r :
  forward M ids dims step la d = (d', Returns r) ->
  exists E, trace d' = trace (fst (forward_setup M ids dims step la d)) ++ E.
Proof.
  intros Hf. destruct (forward_returns M _ _ _ _ _ _ _ Hf) as (sent & Hl & Hfs).
  pose proof (forward_layers_advances M (locals_of M ids dims step la d)
                (fst (forward_setup M ids dims step la d))) as Ha.
  rewrite Hl in Ha. cbn [fst] in Ha.
  destruct (adv_trace _ _ _ Ha) as (E1 & HE1 & _).
  destruct sent.
  - destruct Hfs as [-> _]. exists E1. exact HE1.
  - pose proof (final_stage_advances M (locals_of M ids dims step la d)
                  (hidden_state M ids dims step la d)) as Hb.
    rewrite Hfs in Hb. cbn [fst] in Hb.
    destruct (adv_trace _ _ _ Hb) as (E2 & HE2 & _).
    exists (E1 ++ E2). rewrite HE2, HE1, app_assoc. reflexivity.
Qed.

(** The final stage writes below [top] when the rows it gathers, normalises,
    projects and replicates all end below it. *)
Lemma final_stage_frame (L : Locals) (d : Decoder) (ln : list f32 -> Z -> f32) (top : Z) :
  let W := getSplitSize (predictor d) in
  let H := l_hiddenSize L in
  let B := l_batchSize L in
  let S := l_inputSeqLen L in
  let U := l_userSideBS L in
  let beam := l_beamSize L in
  lastLayerNormForward_row M = Some ln ->
  0 <= H -> 0 <= B -> 1 <= S -> 0 <= W -> 0 <= U -> 0 <= logit_rows L ->
  B * S <= Int.max_int -> B * S * H <= Int.max_int ->
  U * beam <= Int.max_int -> U * beam * W <= Int.max_int ->
  logit_rows L * H <= top ->
  outBuf L + B * H <= top ->
  outBuf L + logit_rows L * W <= top ->
  outBuf L + U * beam * W <= top ->
  forall a, top <= a ->
    act (heap (fst (final_stage M L d))) a = act (heap d) a.
Proof.
  intros W H B S U beam Hln HH HB HS HW HU Hlr HBS HBSH HUb HUbW HtLN Htcopy Htproj Htrep
    a Ha.
  destruct (final_stage_returns M L d ln Hln) as (_ & Hact & _). rewrite Hact.
  assert (Hout : outBuf L = B * S * H)
    by (apply outBuf_exact; first [assumption | (subst S; lia)]).
  assert (Hproj : projected_memory ln L d a = act (heap d) a).
  { unfold projected_memory, DistLinear_forward.
    destruct (rowwise_rows (dl_column (predictor d)) (dl_inputSize (predictor d)) W
                (rowwise ln (l_hiddenSize L) (l_hiddenSize L)
                   (if needs_copy L
                    then copy_last_rows L (if needs_copy L then outBuf L else embBuf)
                           (act (heap d))
                    else act (heap d))
                   (if needs_copy L then outBuf L else embBuf) embBuf (logit_rows L))
                embBuf (outBuf L) (logit_rows L) HW Hlr) as [F1 _].
    fold W. rewrite F1 by lia.
    destruct (rowwise_rows ln H H
                (if needs_copy L
                 then copy_last_rows L (if needs_copy L then outBuf L else embBuf)
                        (act (heap d))
                 else act (heap d))
                (if needs_copy L then outBuf L else embBuf) embBuf (logit_rows L) HH Hlr)
      as [F2 _].
    fold H. rewrite F2 by (unfold embBuf; lia).
    destruct (needs_copy L); [| reflexivity].
    destruct (copy_last_rows_spec L (outBuf L) (act (heap d)) HH HB HS HBS HBSH
                ltac:(lia)) as [F3 _].
    apply F3. fold B H. lia. }
  destruct ((l_step L =? 0) && (l_beamSize L >? 1)) eqn:E; [| exact Hproj].
  apply andb_true_iff in E as [_ Hb]. apply Z.gtb_lt in Hb.
  unfold beam_replicate, for_down.
  destruct (beam_replicate_steps beam W (outBuf L) (projected_memory ln L d) U (Z.to_nat U)
              Hb HW ltac:(lia) HUb HUbW) as [F4 _].
  rewrite Z2Nat.id in F4 by lia. replace (U - U) with 0 in F4 by lia.
  fold U beam W. rewrite F4 by lia. exact Hproj.
Qed.

(** X7. A step-0 call without prefix sharing that returns logits, made with
    [logitsAll = false] or with no more beams than tokens in a prompt, stays
    within the activation buffer it asked for: the logits start right after
    the [userSideBS * seqLen] activation rows; the rows that the projection
    writes and the [userSideBS * beamSize] rows of the replication over the
    beams end within the [rows x hiddenSize] elements requested; and the final
    stage (the gathering of the last rows, the normalisation, the projection,
    the replication) writes nothing at or beyond the end of that buffer.  A
    prompt has a token at least, the shard is no wider than the vocabulary,
    and the sizes fit an [int]. *)
Theorem step0_logits_fit (ids : list Z) (dims : Z * Z * Z) (la : bool) (d d' : Decoder)
    (out off size : Z) :
  let L := locals_of M ids dims 0 la d in
  let U := l_userSideBS L in
  let beam := l_beamSize L in
  let S := l_seqLen L in
  let H := hiddenSize (context d) in
  let V := vocabSize (context d) in
  let projected := if la then U * S else U in
  let written := Z.max projected (U * beam) in
  let requested := if la then U * S else U * beam in
  prefixSharing d = false ->
  0 <= U -> 1 <= beam -> 1 <= S -> 0 < H ->
  0 <= getSplitSize (predictor d) <= V ->
  (la = true -> beam <= S) ->
  U * S * H <= Int.max_int -> U * S * S <= Int.max_int ->
  requested <= Int.max_int -> requested * V <= Int.max_int ->
  U * S + requested * V + 1 <= Int.max_int -> 2 * (U * S) <= Int.max_int ->
  forward M ids dims 0 la d = (d', Returns (Logits out off size)) ->
  exists rows,
    In (EvActResize rows H) (events_since d d')
    /\ out = U * S * H
    /\ size = getSplitSize (predictor d)
    /\ out + written * size <= rows * H
    /\ forall a, rows * H <= a ->
         act (heap d') a = act (heap (hidden_state M ids dims 0 la d)) a.
Proof.
  intros L U beam S H V projected written requested Hp HU Hbeam HS HH HW Hla HUSH HUSS
    Hr HrV Hsum H2 Hf.
  assert (Hmax : Int.max_int = 2147483647) by reflexivity.
  assert (Hmin : Int.min_int = -2147483648) by reflexivity.
  assert (HUS : 0 <= U * S <= Int.max_int) by nia.
  assert (Hr0 : 0 <= requested) by (subst requested; destruct la; nia).
  assert (Hwr : 0 <= written <= requested).
  { subst written projected requested. destruct la.
    - specialize (Hla eq_refl). nia.
    - nia. }
  assert (Hpw : 0 <= projected <= written) by (subst written projected; destruct la; nia).
  assert (Hbw : U * beam <= written) by (subst written; lia).
  pose proof (locals_plain M ids dims la d Hp) as HL. fold L in HL.
  assert (HLb : l_batchSize L = U) by (subst U; rewrite HL; reflexivity).
  assert (HLi : l_inputSeqLen L = S) by (subst S; rewrite HL; reflexivity).
  assert (HLh : l_hiddenSize L = H) by (rewrite HL; reflexivity).
  assert (HLs : l_step L = 0) by (rewrite HL; reflexivity).
  assert (HLa : l_logitsAll L = la) by (rewrite HL; reflexivity).
  assert (HU' : Int.of_int64 (fst (fst dims)) = U) by (subst U; rewrite HL; reflexivity).
  assert (Hb' : Int.of_int64 (snd (fst dims)) = beam) by (subst beam; rewrite HL; reflexivity).
  assert (HS' : Int.of_int64 (snd dims) = S) by (subst S; rewrite HL; reflexivity).
  (* the result *)
  pose proof (forward_logits M _ _ _ _ _ _ _ _ _ Hf) as Hfs. fold L in Hfs.
  destruct (lastLayerNormForward_row M) as [ln |] eqn:Eln;
    [| unfold final_stage in Hfs; rewrite Eln in Hfs; discriminate].
  destruct (final_stage_returns M L (hidden_state M ids dims 0 la d) ln Eln) as (Hres & _).
  rewrite Hfs in Hres. cbn [snd] in Hres. injection Hres as Hout Hoff Hsize.
  pose proof (adv_predictor _ _ _ (hidden_state_advances M ids dims 0 la d)) as Hpred.
  rewrite Hpred in Hsize.
  subst out size.
  assert (HoutE : outBuf L = U * S * H).
  { rewrite outBuf_exact; rewrite ?HLb, ?HLi, ?HLh; lia. }
  (* the request *)
  destruct (forward_after_setup _ _ _ _ _ _ _ Hf) as (E & HE).
  rewrite (forward_setup_plain ids dims la d Hp), HU', Hb', HS' in HE.
  unfold prepareBuffers in HE.
  cbn [trace call log set_trace set_heap set_mask set_accSeqLen set_initSeqLen
       resize_context set_context context batchSize inputSeqLen hiddenSize vocabSize
       ctx_resize] in HE.
  fold H V in HE.
  assert (HlE : (if la then U *i S else U *i beam) = requested).
  { subst requested. destruct la; apply mul_exact; unfold Int.in_range; lia. }
  rewrite HlE, (mul_exact U S) in HE by (unfold Int.in_range; lia).
  pose proof (outRows_room (U * S) requested V H HH ltac:(lia) ltac:(lia) Hr0
                ltac:(lia) HrV Hsum H2) as Hroom.
  pose proof (outRows_twice (U * S) requested V H HH ltac:(lia) ltac:(lia) Hr0
                ltac:(lia) HrV Hsum H2) as Htwice.
  cbn zeta in Hroom, Htwice.
  match type of HE with
  | context [EvActResize ?rows H] => exists rows; set (R := rows) in *
  end.
  assert (Hfit : outBuf L + written * getSplitSize (predictor d) <= R * H)
    by (rewrite HoutE; nia).
  split; [| split; [exact HoutE | split; [reflexivity | split; [exact Hfit |]]]].
  - unfold events_since. rewrite HE, <- !app_assoc, drop_app_length.
    cbn. right. left. reflexivity.
  - replace d' with (fst (final_stage M L (hidden_state M ids dims 0 la d)))
      by (rewrite Hfs; reflexivity).
    assert (Hlr : logit_rows L = projected).
    { unfold logit_rows. rewrite HLa, HLb. subst projected. destruct la; [| reflexivity].
      change (l_seqLen L) with S. apply mul_exact. unfold Int.in_range. lia. }
    assert (Hps : projected <= U * S) by (subst projected; destruct la; nia).
    assert (0 <= U * S * H) by nia.
    apply final_stage_frame with (ln := ln); rewrite ?Hpred, ?HLh, ?HLb, ?HLi, ?Hlr;
      fold U beam; try assumption; try lia; try nia.
Qed.

End Fit.

Lemma step0_logits_fit_witness :
  exists rows,
    In (EvActResize rows 2)
       (events_since (Toy.decoder 1)
          (fst (forward (Toy.model false false) [1; 2; 3; 4; 5; 6] (2, 2, 3) 0 false
                  (Toy.decoder 1))))
    /\ 12 + 4 * 3 <= rows * 2.
Proof.
  destruct (step0_logits_fit (Toy.model false false) [1; 2; 3; 4; 5; 6] (2, 2, 3) false
              (Toy.decoder 1)
              (fst (forward (Toy.model false false) [1; 2; 3; 4; 5; 6] (2, 2, 3) 0 false
                      (Toy.decoder 1))) 12 0 3)
    as (rows & Hin & _ & _ & Hfit & _);
    [solve [run_forward | discriminate
           | vm_compute; first [reflexivity | discriminate | split; discriminate]] .. |].
  exists rows. split; [exact Hin | exact Hfit].
Defined.

(** ** What a call leaves in the decoder *)

Section Keeps.

Variable M : Model.

Lemma keeps_refl d : keeps d d.
Proof. split; reflexivity. Qed.

Lemma keeps_trans d1 d2 d3 : keeps d1 d2 -> keeps d2 d3 -> keeps d1 d3.
Proof. intros [] []. split; congruence. Qed.

Lemma run_bind_keeps {A B : Type} (m : Run A) (k : A -> Run B) d :
  keeps d (fst (m d)) -> (forall a d1, keeps d1 (fst (k a d1))) ->
  keeps d (fst (run_bind m k d)).
Proof.
  intros Hm Hk. unfold run_bind. destruct (m d) as [d1 [a | c s | w]]; cbn [fst] in *.
  - eapply keeps_trans; [exact Hm | apply Hk].
  - exact Hm.
  - exact Hm.
Qed.

Lemma embeddingForward_keeps ids out n d : keeps d (fst (embeddingForward M ids out n d)).
Proof. unfold embeddingForward. case_match; split; reflexivity. Qed.

Lemma push_ready_keeps x d : keeps d (fst (push_ready x d)).
Proof. unfold push_ready. case_match; split; reflexivity. Qed.

Lemma pp_recv_keeps L d : keeps d (fst (pp_recv M L d)).
Proof.
  unfold pp_recv. destruct (_ && _); [| apply keeps_refl].
  destruct (inbox (pipeline d)) as [| [sid payload] rest]; [apply keeps_refl |].
  eapply keeps_trans; [| apply push_ready_keeps]. split; reflexivity.
Qed.

Lemma pp_input_keeps L d : keeps d (fst (pp_input M L d)).
Proof.
  unfold pp_input. destruct (PIPELINE_PARALLEL M); [| apply keeps_refl].
  destruct (inputQueue (pipeline d)) as [| g rest]; [apply keeps_refl |].
  destruct (TaskWaitingQueue.isFull _); [apply keeps_refl |].
  eapply keeps_trans; [| apply push_ready_keeps]. split; reflexivity.
Qed.

Lemma pp_select_keeps d : keeps d (fst (pp_select M d)).
Proof. unfold pp_select. repeat case_match; split; reflexivity. Qed.

Lemma pp_admission_keeps L d : keeps d (fst (pp_admission M L d)).
Proof.
  unfold pp_admission.
  apply run_bind_keeps; [apply pp_recv_keeps |]. intros _ d1.
  apply run_bind_keeps; [apply pp_input_keeps |]. intros _ d2.
  apply pp_select_keeps.
Qed.

Lemma layer_step_keeps L d i : keeps d (layer_step M L d i).
Proof. unfold layer_step. repeat case_match; split; reflexivity. Qed.

Lemma layer_loop_keeps L d : keeps d (layer_loop M L d).
Proof.
  unfold layer_loop. generalize (for_range 0 (decoderBlock_size d)). intros l.
  revert d. induction l as [| i l IH]; intros d; cbn [foldl]; [apply keeps_refl |].
  eapply keeps_trans; [apply layer_step_keeps | apply IH].
Qed.

Lemma pp_send_keeps L sid d : keeps d (fst (pp_send M L sid d)).
Proof. unfold pp_send. case_match; split; reflexivity. Qed.

Lemma final_stage_keeps L d : keeps d (fst (final_stage M L d)).
Proof. unfold final_stage. repeat case_match; split; reflexivity. Qed.

(** The context, the lengths and the mask that a call which returns leaves
    behind, from those of its set-up. *)
Lemma forward_state ids dims step la d d' r :
  forward M ids dims step la d = (d', Returns r) ->
  let L := locals_of M ids dims step la d in
  let d1 := fst (forward_setup M ids dims step la d) in
  let acc := accSeqLen d1 +i l_seqLen L in
  context d' = context d1
  /\ initSeqLen d' = initSeqLen d1
  /\ accSeqLen d' = acc
  /\ mask d'
     = prepareAttnMask M (context d1) acc (mask d1) (l_ids L)
         (l_step L +i Int.of_bool (prefixSharing d1)).
Proof.
  intros H L d1 acc.
  destruct (forward_returns M _ _ _ _ _ _ _ H) as (sent & Hl & Hf).
  destruct (forward_layers_returns M _ _ _ _ Hl) as (d2 & d5 & task & He & Ha & Hs).
  fold L d1 in He, Ha, Hs, Hf, Hl.
  pose proof (embeddingForward_keeps (l_ids L) embBuf (l_batchSize L *i l_inputSeqLen L) d1)
    as K2. rewrite He in K2. cbn [fst] in K2.
  set (d4 := prepare_mask_and_positions M L (set_accSeqLen (accSeqLen d2 +i l_seqLen L) d2))
    in *.
  pose proof (pp_admission_keeps L d4) as K5. rewrite Ha in K5. cbn [fst] in K5.
  assert (K6 : keeps d5 (if snd task then layer_loop M L d5 else d5))
    by (destruct (snd task); [apply layer_loop_keeps | apply keeps_refl]).
  pose proof (pp_send_keeps L (fst task) (if snd task then layer_loop M L d5 else d5)) as K7.
  rewrite Hs in K7. cbn [fst] in K7.
  assert (K8 : keeps (hidden_state M ids dims step la d) d').
  { destruct sent.
    - destruct Hf as [-> _]. apply keeps_refl.
    - pose proof (final_stage_keeps L (hidden_state M ids dims step la d)) as K.
      rewrite Hf in K. exact K. }
  pose proof (keeps_trans _ _ _ (keeps_trans _ _ _ (keeps_trans _ _ _ K5 K6) K7) K8)
    as [Kc Ki Ka Km].
  destruct K2 as [K2c K2i K2a K2m].
  assert (Hp : prefixSharing d2 = prefixSharing d1).
  { pose proof (embeddingForward_advances M (l_ids L) embBuf
                  (l_batchSize L *i l_inputSeqLen L) d1) as A2.
    rewrite He in A2. exact (adv_prefixSharing _ _ _ A2). }
  rewrite Kc, Ki, Ka, Km. subst d4 acc.
  cbn [prepare_mask_and_positions call log set_trace set_heap set_mask set_accSeqLen
       context initSeqLen accSeqLen mask prefixSharing].
  rewrite K2c, K2i, K2a, K2m, Hp. repeat split; reflexivity.
Qed.

Lemma forward_setup_init ids dims step la d :
  initSeqLen (fst (forward_setup M ids dims step la d))
  = if step =? 0 then Int.of_int64 (snd dims) else initSeqLen d.
Proof.
  unfold forward_setup. destruct dims as [[dims0 dims1] dims2].
  destruct (step =? 0); [| reflexivity]. case_match; reflexivity.
Qed.

End Keeps.

(** ** Lengths and attention over a generation (X8, X9) *)

Lemma sumZ_app (l1 l2 : list Z) : sumZ (l1 ++ l2) = sumZ l1 + sumZ l2.
Proof. induction l1; [reflexivity |]. rewrite <- app_comm_cons, !sumZ_cons. lia. Qed.

(** Call [k + 1] of a generation is made on the decoder that call [k] left,
    and call [k] has returned. *)
Lemma generation_succ (M : Model) (calls : list Call) :
  forall first d k dk' rk',
    generation M first calls d !! S k = Some (dk', rk') ->
    exists dk rk c,
      generation M first calls d !! k = Some (dk, rk)
      /\ returned rk = true
      /\ calls !! S k = Some c
      /\ forward M (c_ids c) (c_dims c) (first + Z.of_nat (S k)) (c_logitsAll c) dk
         = (dk', rk').
Proof.
  induction calls as [| c0 rest IH]; intros first d k dk' rk' Hk; [discriminate |].
  cbn [generation] in *.
  destruct (forward M (c_ids c0) (c_dims c0) first (c_logitsAll c0) d) as [d1 o1] eqn:E0.
  cbn [lookup list_lookup fst snd] in *.
  destruct (returned o1) eqn:Hr; [| discriminate].
  destruct k as [| k].
  - destruct rest as [| c1 rest']; [discriminate |].
    cbn [generation lookup list_lookup] in Hk.
    exists d1, o1, c1. repeat split; try assumption.
    replace (first + Z.of_nat 1) with (first + 1) by lia.
    destruct (forward M (c_ids c1) _ _ _ d1) eqn:E1. congruence.
  - destruct (IH (first + 1) d1 k dk' rk' Hk) as (dk & rk & c & H1 & H2 & H3 & H4).
    exists dk, rk, c. repeat split; try assumption.
    replace (first + Z.of_nat (S (S k))) with (first + 1 + Z.of_nat (S k)) by lia.
    exact H4.
Qed.

Lemma generation_advances (M : Model) (calls : list Call) :
  forall first d k dk rk,
    generation M first calls d !! k = Some (dk, rk) -> advances any_event d dk.
Proof.
  induction calls as [| c0 rest IH]; intros first d k dk rk Hk; [discriminate |].
  cbn [generation] in Hk.
  pose proof (forward_advances_any M (c_ids c0) (c_dims c0) first (c_logitsAll c0) d) as H0.
  destruct (forward M (c_ids c0) (c_dims c0) first (c_logitsAll c0) d) as [d1 o1].
  cbn [fst snd] in *. destruct k as [| k]; cbn [lookup list_lookup] in Hk.
  - inversion Hk; subst. exact H0.
  - destruct (returned o1); [| discriminate].
    eapply advances_trans; [exact H0 | eapply IH; exact Hk].
Qed.

(** The lengths after call [k] of a generation that starts at step 0. *)
Lemma generation_lengths (M : Model) (c0 : Call) (rest : list Call) (d : Decoder)
    (k : nat) (dk : Decoder) (rk : Outcome ForwardResult) :
  Forall (fun c => 0 <= c_dims2 c) (c0 :: rest) ->
  sumZ (c_dims2 <$> c0 :: rest) <= Int.max_int ->
  generation M 0 (c0 :: rest) d !! k = Some (dk, rk) ->
  returned rk = true ->
  initSeqLen dk = c_dims2 c0
  /\ accSeqLen dk = sumZ (c_dims2 <$> take (S k) (c0 :: rest)).
Proof.
  intros Hnn Hsum. revert dk rk.
  inversion Hnn as [| ? ? Hc Hrest]; subst.
  pose proof (sumZ_nonneg (c_dims2 <$> rest)) as Hpos.
  rewrite Forall_fmap in Hpos. specialize (Hpos Hrest).
  rewrite fmap_cons, sumZ_cons in Hsum.
  assert (H0 : forall d1 r1,
             forward M (c_ids c0) (c_dims c0) 0 (c_logitsAll c0) d = (d1, Returns r1) ->
             initSeqLen d1 = c_dims2 c0 /\ accSeqLen d1 = c_dims2 c0).
  { intros d1 r1 E. destruct (forward_state M _ _ _ _ _ _ _ E) as (_ & Hi & Ha & _).
    rewrite Hi, Ha, forward_setup_init, forward_setup_acc, locals_seqLen. cbn [Z.eqb].
    fold (c_dims2 c0). rewrite (of_int64_exact (c_dims2 c0)) by lia.
    split; [reflexivity |]. apply add_exact.
    unfold Int.in_range, Int.min_int, Int.max_int in *. lia. }
  induction k as [| k IHk]; intros dk rk Hk Hr.
  - cbn [generation lookup list_lookup] in Hk.
    destruct rk as [r | |]; try discriminate.
    destruct (forward M (c_ids c0) _ _ _ d) as [d1 o1] eqn:E. inversion Hk; subst.
    destruct (H0 _ _ eq_refl) as [Hi Ha]. split; [exact Hi |].
    cbn [take]. rewrite take_0, fmap_cons, sumZ_cons, Ha. cbn. lia.
  - destruct (generation_succ M _ _ _ _ _ _ Hk) as (dp & rp & c & Hp & Hrp & Hc' & Hfw).
    destruct (IHk dp rp Hp Hrp) as [Hi Ha].
    destruct rk as [r | |]; try discriminate.
    destruct (forward_state M _ _ _ _ _ _ _ Hfw) as (_ & Hi' & Ha' & _).
    rewrite forward_setup_init in Hi'. rewrite forward_setup_acc, locals_seqLen in Ha'.
    assert (Hstep : (0 + Z.of_nat (S k) =? 0) = false) by (apply Z.eqb_neq; lia).
    rewrite Hstep in Hi', Ha'.
    split; [congruence |].
    rewrite Ha', Ha. fold (c_dims2 c).
    rewrite (take_S_r _ _ c Hc'), fmap_app, sumZ_app.
    assert (Hle : sumZ (c_dims2 <$> take (S k) (c0 :: rest)) + c_dims2 c
                  <= sumZ (c_dims2 <$> c0 :: rest)).
    { rewrite <- (take_drop (S (S k)) (c0 :: rest)) at 2.
      rewrite (take_S_r _ _ c Hc'), !fmap_app, !sumZ_app.
      cbn [fmap list_fmap]. rewrite sumZ_cons. change (sumZ []) with 0.
      assert (0 <= sumZ (c_dims2 <$> drop (S (S k)) (c0 :: rest))).
      { apply sumZ_nonneg. rewrite Forall_fmap. apply Forall_drop. exact Hnn. }
      lia. }
    assert (Hc0 : 0 <= c_dims2 c) by apply (Forall_lookup_1 _ _ _ _ Hnn Hc').
    assert (Hs0 : 0 <= sumZ (c_dims2 <$> take (S k) (c0 :: rest))).
    { apply sumZ_nonneg. rewrite Forall_fmap. apply Forall_take. exact Hnn. }
    rewrite fmap_cons, sumZ_cons in Hle.
    rewrite (of_int64_exact (c_dims2 c)) by lia.
    cbn [fmap list_fmap]. rewrite sumZ_cons. change (sumZ []) with 0.
    rewrite Z.add_0_r. apply add_exact.
    unfold Int.in_range, Int.min_int, Int.max_int in *. lia.
Qed.

(** X8. After any call of a generation that has returned, [initSeqLen] is
    still the prompt length of the step-0 call, and [reorderCache] hands the
    cache manager that length together with the total of the [dims[2]] of the
    calls made so far.  The lengths are non-negative and their sum fits an
    [int]. *)
Theorem reorderCache_after_generation (M : Model) (c0 : Call) (rest : list Call)
    (d : Decoder) (k : nat) (dk : Decoder) (rk : Outcome ForwardResult)
    (idx : list Z) (size : Z) :
  Forall (fun c => 0 <= c_dims2 c) (c0 :: rest) ->
  sumZ (c_dims2 <$> c0 :: rest) <= Int.max_int ->
  generation M 0 (c0 :: rest) d !! k = Some (dk, rk) ->
  returned rk = true ->
  initSeqLen dk = c_dims2 c0
  /\ events_since dk (reorderCache M idx size dk)
     = [EvReorderCache idx size (c_dims2 c0)
          (sumZ (c_dims2 <$> take (S k) (c0 :: rest)))].
Proof.
  intros Hnn Hsum Hk Hr.
  destruct (generation_lengths M c0 rest d k dk rk Hnn Hsum Hk Hr) as [Hi Ha].
  split; [exact Hi |].
  unfold events_since, reorderCache, call, log. cbn [trace set_trace set_heap].
  rewrite drop_app_length, Hi, Ha. reflexivity.
Qed.

(** The entry of a list of runs at an index within it. *)
Lemma lookup_run {A B : Type} (runs : list (A * B)) (k : nat) (dflt : A * B) :
  (k < length runs)%nat ->
  runs !! k = Some (fst (default dflt (runs !! k)), snd (default dflt (runs !! k))).
Proof.
  intros Hk. destruct (lookup_lt_is_Some_2 runs k Hk) as [[a b] E].
  rewrite E. reflexivity.
Qed.

Lemma reorderCache_after_generation_witness :
  initSeqLen (fst (Toy.run_at 2)) = 3
  /\ events_since (fst (Toy.run_at 2))
       (reorderCache (Toy.model false false) [0] 1 (fst (Toy.run_at 2)))
     = [EvReorderCache [0] 1 3 (3 + 1 + 1)].
Proof.
  apply (reorderCache_after_generation (Toy.model false false)
           {| c_ids := [1; 2; 3]; c_dims := (1, 1, 3); c_logitsAll := false |}
           [ {| c_ids := [4]; c_dims := (1, 1, 1); c_logitsAll := false |};
             {| c_ids := [5]; c_dims := (1, 1, 1); c_logitsAll := false |} ]
           Toy.start 2 (fst (Toy.run_at 2)) (snd (Toy.run_at 2)) [0] 1).
  - repeat constructor; cbn; lia.
  - vm_compute. discriminate.
  - unfold Toy.run_at. apply lookup_run. vm_compute. lia.
  - vm_compute. reflexivity.
Defined.

Section AttentionCalls.

Variable M : Model.

Lemma attention_of_not_layer E :
  Forall not_layer_event E -> omap attention_of E = [].
Proof.
  induction 1 as [| e E He _ IH]; [reflexivity |].
  cbn [omap list_omap]. rewrite IH.
  destruct e; try reflexivity. discriminate He.
Qed.

Lemma attention_of_layer_events L d i :
  omap attention_of (layer_events M L d i)
  = [(i, l_inputSeqLen L, l_pastSeqLen L, l_step L =? 0)].
Proof.
  unfold layer_events, attention_events, reduction_protocol.
  destruct (_ && prefixSharing d), (_ && (l_beamSize L >? 1)), (ATTN_MLP_PARALLEL M),
    (msg_size (messenger d) >? 1); reflexivity.
Qed.

Lemma attention_of_loop_events L d :
  omap attention_of (loop_events M L d)
  = (fun i => (i, l_inputSeqLen L, l_pastSeqLen L, l_step L =? 0))
      <$> for_range 0 (decoderBlock_size d).
Proof.
  unfold loop_events. induction (for_range 0 (decoderBlock_size d)) as [| i l IH];
    [reflexivity |].
  rewrite !fmap_cons. cbn [concat]. rewrite omap_app, IH, attention_of_layer_events.
  reflexivity.
Qed.

(** The attention calls of a call that returns: one per layer of the stage, in
    the order of the layers. *)
Lemma forward_attention_calls ids dims step la d d' r :
  forward M ids dims step la d = (d', Returns r) ->
  let L := locals_of M ids dims step la d in
  omap attention_of (events_since d d')
  = (fun i => (i, l_inputSeqLen L, l_pastSeqLen L, step =? 0))
      <$> for_range 0 (decoderBlock_size d).
Proof.
  intros H L. destruct (forward_trace_shape M _ _ _ _ _ _ _ H) as (pre & post & HE & Hpre & Hpost).
  rewrite HE, !omap_app, (attention_of_not_layer pre Hpre),
    (attention_of_not_layer post Hpost), app_nil_r, attention_of_loop_events.
  cbn [app]. rewrite (locals_step M ids dims step la d). reflexivity.
Qed.

(** The locals of a call after the first. *)
Lemma locals_decode ids dims step la d :
  step <> 0 ->
  let L := locals_of M ids dims step la d in
  l_inputSeqLen L = Int.of_int64 (snd dims) /\ l_pastSeqLen L = accSeqLen d.
Proof.
  intros Hs. apply Z.eqb_neq in Hs. unfold locals_of, forward_setup.
  destruct dims as [[dims0 dims1] dims2]. rewrite Hs. split; reflexivity.
Qed.

End AttentionCalls.

(** X9. The attention calls of call [k + 1] of a generation, when it
    returns: one per layer of the stage, in the order of the layers, each over
    the [dims[2]] tokens of the call, with [pastSeqLen] the total of the
    [dims[2]] of calls [0..k] and [useSelfAttn = false].  The lengths are
    non-negative and their sum fits an [int]. *)
Theorem decode_attention_over_past (M : Model) (calls : list Call) (d : Decoder)
    (k : nat) (dk dk' : Decoder) (rk rk' : Outcome ForwardResult) (c : Call) :
  Forall (fun c => 0 <= c_dims2 c) calls ->
  sumZ (c_dims2 <$> calls) <= Int.max_int ->
  generation M 0 calls d !! k = Some (dk, rk) ->
  generation M 0 calls d !! S k = Some (dk', rk') ->
  returned rk' = true ->
  calls !! S k = Some c ->
  omap attention_of (events_since dk dk')
  = (fun i => (i, c_dims2 c, sumZ (c_dims2 <$> take (S k) calls), false))
      <$> for_range 0 (decoderBlock_size d).
Proof.
  intros Hnn Hsum Hk Hk' Hr' Hc.
  destruct (generation_succ M _ _ _ _ _ _ Hk') as (dp & rp & c' & Hp & Hrp & Hc' & Hfw).
  assert (dp = dk /\ c' = c) as [-> ->] by (split; congruence).
  destruct calls as [| c0 rest]; [discriminate |].
  destruct (generation_lengths M c0 rest d k dk rp Hnn Hsum Hp Hrp) as [_ Ha].
  destruct rk' as [r' | |]; try discriminate.
  rewrite (forward_attention_calls M _ _ _ _ _ _ _ Hfw).
  assert (Hs : 0 + Z.of_nat (S k) <> 0) by lia.
  destruct (locals_decode M (c_ids c) (c_dims c) _ (c_logitsAll c) dk Hs) as [Hl Hpast].
  rewrite Hl, Hpast, Ha. apply Z.eqb_neq in Hs. rewrite Hs.
  rewrite (adv_block _ _ _ (generation_advances M _ _ _ _ _ _ Hp)).
  fold (c_dims2 c). rewrite (of_int64_exact (c_dims2 c)); [reflexivity |].
  pose proof (Forall_lookup_1 _ _ _ _ Hnn Hc) as Hc0. cbn beta in Hc0.
  assert (Hle : c_dims2 c <= sumZ (c_dims2 <$> c0 :: rest)).
  { clear - Hnn Hc. revert Hc Hnn. generalize (S k). generalize (c0 :: rest).
    induction l as [| x l IH]; intros n Hn Hall; [discriminate |].
    inversion Hall as [| ? ? Hx Hl]; subst. rewrite fmap_cons, sumZ_cons.
    pose proof (sumZ_nonneg (c_dims2 <$> l)) as Hpos.
    rewrite Forall_fmap in Hpos. specialize (Hpos Hl).
    destruct n as [| n]; cbn [lookup list_lookup] in Hn.
    - inversion Hn; subst. lia.
    - specialize (IH n Hn Hl). lia. }
  lia.
Qed.

Lemma decode_attention_over_past_witness :
  omap attention_of (events_since (fst (Toy.run_at 1)) (fst (Toy.run_at 2)))
  = [(0, 1, 3 + 1, false); (1, 1, 3 + 1, false)].
Proof.
  apply (decode_attention_over_past (Toy.model false false) Toy.calls Toy.start 1
           (fst (Toy.run_at 1)) (fst (Toy.run_at 2)) (snd (Toy.run_at 1))
           (snd (Toy.run_at 2))
           {| c_ids := [5]; c_dims := (1, 1, 1); c_logitsAll := false |}).
  - repeat constructor; cbn; lia.
  - vm_compute. discriminate.
  - unfold Toy.run_at. apply lookup_run. vm_compute. lia.
  - unfold Toy.run_at. apply lookup_run. vm_compute. lia.
  - vm_compute. reflexivity.
  - reflexivity.
Defined.

(** ** The calls of one [forward], all of them (X10, X11) *)

Section ExactTrace.

Variable M : Model.

Lemma advances_stage P d d' :
  advances P d d' ->
  ppSize (context d') = ppSize (context d) /\ ppRank (context d') = ppRank (context d)
  /\ tpSize (context d') = tpSize (context d) /\ tpRank (context d') = tpRank (context d).
Proof.
  intros H. pose proof (adv_context _ _ _ H) as Hc.
  repeat split.
  - exact (f_equal ppSize Hc).
  - exact (f_equal ppRank Hc).
  - exact (f_equal tpSize Hc).
  - exact (f_equal tpRank Hc).
Qed.

Lemma push_ready_trace x d : trace (fst (push_ready x d)) = trace d.
Proof. unfold push_ready. case_match; reflexivity. Qed.

Lemma pp_recv_trace L d d' :
  pp_recv M L d = (d', Returns tt) ->
  exists R, trace d' = trace d ++ R
    /\ (if stage_receives M (context d)
        then exists sid, R = [EvRecv ((ppRank (context d) -i 1) *i tpSize (context d)
                                        +i tpRank (context d))
                                     (world_rank (context d)) sid (activation_count L)]
        else R = []).
Proof.
  unfold pp_recv. fold (stage_receives M (context d)).
  destruct (stage_receives M (context d)).
  - destruct (inbox (pipeline d)) as [| [sid payload] rest]; [discriminate |].
    intros H. pose proof (f_equal fst H) as H1. cbn [fst] in H1.
    rewrite <- H1, push_ready_trace. cbn [trace set_pipeline log set_trace upd_act set_heap].
    eexists. split; [reflexivity |]. exists sid. reflexivity.
  - intros H. inversion H; subst. exists []. rewrite app_nil_r. split; reflexivity.
Qed.

Lemma pp_input_trace L d : trace (fst (pp_input M L d)) = trace d.
Proof.
  unfold pp_input. repeat case_match; try reflexivity.
  all: rewrite push_ready_trace; reflexivity.
Qed.

Lemma pp_select_trace d : trace (fst (pp_select M d)) = trace d.
Proof. unfold pp_select. repeat case_match; reflexivity. Qed.

Lemma pp_admission_trace L d d' task :
  pp_admission M L d = (d', Returns task) ->
  exists R, trace d' = trace d ++ R
    /\ (if stage_receives M (context d)
        then exists sid, R = [EvRecv ((ppRank (context d) -i 1) *i tpSize (context d)
                                        +i tpRank (context d))
                                     (world_rank (context d)) sid (activation_count L)]
        else R = []).
Proof.
  unfold pp_admission, run_bind.
  destruct (pp_recv M L d) as [d1 [[] | |]] eqn:E1; [| discriminate..].
  pose proof (pp_input_trace L d1) as H2.
  destruct (pp_input M L d1) as [d2 [[] | |]]; [| discriminate..]. cbn [fst] in H2.
  intros H3. pose proof (pp_select_trace d2) as H4. rewrite H3 in H4. cbn [fst] in H4.
  destruct (pp_recv_trace L d d1 E1) as (R & HR & Hshape).
  exists R. split; [congruence | exact Hshape].
Qed.

Lemma pp_send_returns L sid d d' sent :
  pp_send M L sid d = (d', Returns sent) ->
  sent = stage_sends M (context d)
  /\ trace d'
     = trace d ++ (if sent
                   then [EvSend ((ppRank (context d) +i 1) *i tpSize (context d)
                                   +i tpRank (context d))
                                ((ppRank (context d) +i 1) *i tpSize (context d)
                                   +i tpRank (context d))
                                sid (activation_count L)
                                (mem_load (act (heap d')) embBuf (activation_count L))]
                   else [])
  /\ heap d' = heap d.
Proof.
  unfold pp_send. fold (stage_sends M (context d)).
  destruct (stage_sends M (context d)); intros H; inversion H; subst.
  - repeat split; reflexivity.
  - rewrite app_nil_r. repeat split; reflexivity.
Qed.

(** The calls of a call of [forward] that returns, all of them and in their
    order: those of the set-up, the embedding and the position ids, what is
    received from the previous stage, the layers, and either what is sent to
    the next stage or the final normalisation and the projection. *)
Lemma forward_trace_exact ids dims step la d d' r :
  forward M ids dims step la d = (d', Returns r) ->
  let L := locals_of M ids dims step la d in
  let d1 := fst (forward_setup M ids dims step la d) in
  let c := context d in
  exists R sid,
    events_since d d'
    = events_since d d1 ++ embedding_events L (prefixSharing d) ++ R
      ++ loop_events M L d
      ++ (if stage_sends M c
          then [EvSend ((ppRank c +i 1) *i tpSize c +i tpRank c)
                       ((ppRank c +i 1) *i tpSize c +i tpRank c) sid (activation_count L)
                       (mem_load (act (heap d')) embBuf (activation_count L))]
          else final_events L)
    /\ (if stage_receives M c
        then exists sid', R = [EvRecv ((ppRank c -i 1) *i tpSize c +i tpRank c)
                                      (world_rank c) sid' (activation_count L)]
        else R = [])
    /\ (r = NullResult <-> stage_sends M c = true).
Proof.
  intros H L d1 c.
  destruct (forward_returns M _ _ _ _ _ _ _ H) as (sent & Hl & Hf).
  destruct (forward_layers_returns M _ _ _ _ Hl) as (d2 & d5 & task & He & Ha & Hs).
  fold L d1 in He, Ha, Hs, Hf, Hl.
  rewrite (pp_admission_enters M _ _ _ _ Ha) in Hs.
  pose proof (forward_setup_advances M ids dims step la d) as A1. fold d1 in A1.
  (* the embedding *)
  assert (H2 : d2 = call M (EvEmbedding (l_ids L) (ActPtr embBuf)
                              (l_batchSize L *i l_inputSeqLen L)) d1).
  { unfold embeddingForward in He. destruct (embeddingForward_overridden M);
      inversion He. reflexivity. }
  set (d4 := prepare_mask_and_positions M L (set_accSeqLen (accSeqLen d2 +i l_seqLen L) d2))
    in *.
  assert (A4 : advances not_layer_event d d4).
  { eapply advances_trans; [exact A1 |]. subst d4 d2.
    unfold prepare_mask_and_positions. advance. }
  assert (T4 : trace d4 = trace d1 ++ embedding_events L (prefixSharing d)).
  { subst d4 d2. unfold prepare_mask_and_positions, embedding_events.
    cbn [trace call log set_trace set_heap set_mask set_accSeqLen prefixSharing].
    rewrite (adv_prefixSharing _ _ _ A1), <- app_assoc. reflexivity. }
  (* the admission *)
  destruct (pp_admission_trace L d4 d5 task Ha) as (R & T5 & HR).
  pose proof (pp_admission_advances M L d4) as A5. rewrite Ha in A5. cbn [fst] in A5.
  pose proof (advances_trans _ _ _ _ A4 A5) as A5'.
  destruct (advances_stage _ _ _ A4) as (Hps4 & Hpr4 & Hts4 & Htr4).
  (* the layers and the send *)
  pose proof (layer_loop_trace M L d5) as T6.
  rewrite (loop_events_static M L _ _ _ A5') in T6.
  destruct (pp_send_returns L (fst task) (layer_loop M L d5)
              (hidden_state M ids dims step la d) sent Hs) as (Hsent & T7 & Hh7).
  assert (A6 : advances any_event d (layer_loop M L d5)).
  { eapply advances_trans; [| apply layer_loop_advances].
    eapply advances_weaken; [| exact A5']. intros; exact I. }
  destruct (advances_stage _ _ _ A6) as (Hps6 & Hpr6 & Hts6 & Htr6).
  assert (Hss : stage_sends M (context (layer_loop M L d5)) = stage_sends M c)
    by (unfold stage_sends; subst c; rewrite Hps6, Hpr6; reflexivity).
  assert (Hsr : stage_receives M (context d4) = stage_receives M c)
    by (unfold stage_receives; subst c; rewrite Hps4, Hpr4; reflexivity).
  rewrite Hss in Hsent. rewrite Hsr in HR.
  rewrite Hpr6, Hts6, Htr6 in T7. fold c in T7.
  unfold world_rank in HR. rewrite Hpr4, Hts4, Htr4 in HR. fold c in HR.
  fold (world_rank c) in HR.
  destruct (advances_events _ _ _ A1) as [T1 _].
  exists R, (fst task). split; [| split; [exact HR |]].
  - rewrite <- Hsent. destruct sent.
    + destruct Hf as [-> _].
      unfold events_since at 1. rewrite T7, T6, T5, T4, T1, <- !app_assoc, drop_app_length.
      reflexivity.
    + destruct (lastLayerNormForward_row M) as [ln |] eqn:Eln;
        [| unfold final_stage in Hf; rewrite Eln in Hf; discriminate].
      destruct (final_stage_returns M L (hidden_state M ids dims step la d) ln Eln)
        as (_ & _ & T8).
      rewrite Hf in T8. cbn [fst] in T8.
      unfold events_since at 1.
      rewrite T8, T7, T6, T5, T4, T1, <- !app_assoc, drop_app_length, app_nil_l.
      reflexivity.
  - rewrite <- Hsent. destruct sent.
    + destruct Hf as [_ ->]. split; reflexivity.
    + split; [| discriminate]. intros ->.
      destruct (lastLayerNormForward_row M) as [ln |] eqn:Eln;
        [| unfold final_stage in Hf; rewrite Eln in Hf; discriminate].
      destruct (final_stage_returns M L (hidden_state M ids dims step la d) ln Eln)
        as (Hres & _).
      rewrite Hf in Hres. discriminate Hres.
Qed.

End ExactTrace.

Section Sequence.

Variable M : Model.

Lemma forward_setup_decode ids dims step la d :
  step <> 0 ->
  let L := locals_of M ids dims step la d in
  events_since d (fst (forward_setup M ids dims step la d))
  = [EvCtxResize (l_batchSize L) (l_seqLen L) (accSeqLen d)].
Proof.
  intros Hs. apply Z.eqb_neq in Hs. unfold locals_of, forward_setup.
  destruct dims as [[dims0 dims1] dims2]. rewrite Hs.
  cbn [fst snd l_batchSize l_seqLen]. unfold events_since, resize_context, call, log.
  cbn [trace set_context set_trace set_heap]. rewrite drop_app_length. reflexivity.
Qed.

Lemma forward_setup_events ids dims step la d :
  advances (fun e => is_setup_event e = true) d (fst (forward_setup M ids dims step la d)).
Proof.
  unfold forward_setup, prepareBuffers, resize_context.
  destruct dims as [[dims0 dims1] dims2].
  destruct (step =? 0); [| cbn [fst]; advance].
  match goal with |- context [if ?b then _ else _] => destruct b end; cbn [fst]; advance.
Qed.

Lemma loop_events_layer L d :
  Forall (fun e => is_layer_event e = true) (loop_events M L d).
Proof.
  unfold loop_events. apply Forall_concat, Forall_fmap, Forall_forall. intros i _.
  unfold layer_events, attention_events, reduction_protocol.
  destruct (_ && prefixSharing d), (_ && (l_beamSize L >? 1)), (ATTN_MLP_PARALLEL M),
    (msg_size (messenger d) >? 1); repeat constructor.
Qed.

(** The set-up of a call with [step <> 0] leaves the mask buffer alone. *)
Lemma forward_setup_decode_mask ids dims step la d :
  step <> 0 -> mask (fst (forward_setup M ids dims step la d)) = mask d.
Proof.
  intros Hs. apply Z.eqb_neq in Hs. unfold forward_setup.
  destruct dims as [[dims0 dims1] dims2]. rewrite Hs. reflexivity.
Qed.

(** X10. A call of [forward] that returns, on a stage that neither receives
    from a previous stage nor sends to a next one.  Its calls to the context,
    the buffers, the cache, the embedding, the position ids, the layers, the
    final normalisation and the projection are, in this order: those of the
    set-up, the embedding, the position ids, the calls of the layers, the
    final normalisation, the projection.  [prepareAttnMask], which is not
    among these calls, leaves the mask buffer that it makes of the set-up's
    one with the accumulated length already advanced.  When [step <> 0] the
    set-up is the resize of the context alone and leaves the mask buffer as
    it was, and the call resizes neither the activation buffer nor the KV
    cache. *)
Theorem forward_call_sequence (ids : list Z) (dims : Z * Z * Z) (step : Z) (la : bool)
    (d d' : Decoder) (r : ForwardResult) :
  let L := locals_of M ids dims step la d in
  let d1 := fst (forward_setup M ids dims step la d) in
  stage_receives M (context d) = false ->
  stage_sends M (context d) = false ->
  forward M ids dims step la d = (d', Returns r) ->
  events_since d d'
  = events_since d d1 ++ embedding_events L (prefixSharing d) ++ loop_events M L d
    ++ final_events L
  /\ mask d'
     = prepareAttnMask M (context d1) (accSeqLen d1 +i l_seqLen L) (mask d1) (l_ids L)
         (l_step L +i Int.of_bool (prefixSharing d1))
  /\ (step <> 0 ->
      events_since d d1 = [EvCtxResize (l_batchSize L) (l_seqLen L) (accSeqLen d)]
      /\ mask d1 = mask d
      /\ Forall (fun e => is_buffer_resize e = false) (events_since d d')).
Proof.
  intros L d1 Hrecv Hsend Hf.
  destruct (forward_trace_exact M _ _ _ _ _ _ _ Hf) as (R & sid & HE & HR & _).
  rewrite Hrecv in HR. rewrite Hsend in HE. subst R.
  destruct (forward_state M _ _ _ _ _ _ _ Hf) as (_ & _ & _ & Hm).
  split; [exact HE |]. split; [exact Hm |].
  intros Hs. pose proof (forward_setup_decode ids dims step la d Hs) as Hd.
  split; [exact Hd |]. split; [apply forward_setup_decode_mask; exact Hs |].
  rewrite HE. cbn zeta in Hd. rewrite Hd. cbn [app].
  constructor; [reflexivity |].
  apply Forall_app_2; [repeat constructor |].
  apply Forall_app_2; [| repeat constructor].
  eapply Forall_impl; [apply loop_events_layer |].
  intros e He. destruct e; try reflexivity; discriminate.
Qed.

(** X11. A call of [forward] that returns gives [(nullptr, 0, 0)] exactly
    on a stage that sends its output on (a pipeline-parallel build, more than
    one stage, not the last stage).  On such a stage the last call is the
    send of the activations to rank [(ppRank + 1) * tpSize + tpRank], and
    neither the final normalisation nor the projection has been called; on
    any other stage the call ends with the final normalisation and the
    projection. *)
Theorem null_result_iff_stage_sends (ids : list Z) (dims : Z * Z * Z) (step : Z)
    (la : bool) (d d' : Decoder) (r : ForwardResult) :
  let L := locals_of M ids dims step la d in
  let c := context d in
  let next := (ppRank c +i 1) *i tpSize c +i tpRank c in
  forward M ids dims step la d = (d', Returns r) ->
  (r = NullResult <-> stage_sends M c = true)
  /\ (stage_sends M c = true ->
      exists T sid,
        events_since d d'
        = T ++ [EvSend next next sid (activation_count L)
                  (mem_load (act (heap d')) embBuf (activation_count L))]
        /\ Forall (fun e => is_final_call e = false) T)
  /\ (stage_sends M c = false ->
      exists T, events_since d d' = T ++ final_events L).
Proof.
  intros L c next Hf.
  destruct (forward_trace_exact M _ _ _ _ _ _ _ Hf) as (R & sid & HE & HR & Hiff).
  fold L c in HE, HR, Hiff. split; [exact Hiff |]. split.
  - intros Hs. rewrite Hs in HE.
    exists (events_since d (fst (forward_setup M ids dims step la d))
            ++ embedding_events L (prefixSharing d) ++ R ++ loop_events M L d), sid.
    split; [rewrite HE, <- !app_assoc; reflexivity |].
    destruct (advances_events _ _ _ (forward_setup_events ids dims step la d)) as [_ H1].
    repeat apply Forall_app_2.
    + eapply Forall_impl; [exact H1 |]. intros e He. destruct e; try reflexivity; discriminate.
    + repeat constructor.
    + destruct (stage_receives M c); [destruct HR as [sid' ->] | subst R];
        repeat constructor.
    + eapply Forall_impl; [apply loop_events_layer |].
      intros e He. destruct e; try reflexivity; discriminate.
  - intros Hs. rewrite Hs in HE.
    exists (events_since d (fst (forward_setup M ids dims step la d))
            ++ embedding_events L (prefixSharing d) ++ R ++ loop_events M L d).
    rewrite HE, <- !app_assoc. reflexivity.
Qed.

End Sequence.

Lemma null_result_iff_stage_sends_witness :
  snd (forward (Toy.model true false) [1; 2; 3] (1, 1, 3) 0 false (ToyStages.decoder 0 []))
  = Returns NullResult
  /\ stage_sends (Toy.model true false) (context (ToyStages.decoder 0 [])) = true.
Proof.
  pose proof (null_result_iff_stage_sends (Toy.model true false) [1; 2; 3] (1, 1, 3) 0 false
                (ToyStages.decoder 0 [])
                (fst (forward (Toy.model true false) [1; 2; 3] (1, 1, 3) 0 false
                        (ToyStages.decoder 0 [])))
                NullResult ltac:(run_forward)) as [[H _] _].
  split; [vm_compute; reflexivity | exact (H eq_refl)].
Defined.

Lemma forward_call_sequence_witness :
  events_since Toy.start
    (fst (forward (Toy.model false false) [4] (1, 1, 1) 1 false Toy.start))
  = [EvCtxResize 1 1 7;
     EvEmbedding [4] (ActPtr 0) 1; EvGetPositionIds [4] 1 1 1;
     EvForwardAttention 0 (ActPtr 0) (ActPtr 2) (TmpPtr 0) 1 7 false true;
     EvForwardFFN 0 (TmpPtr 0) (ActPtr 0) 2 2 true;
     EvForwardAttention 1 (ActPtr 0) (ActPtr 2) (TmpPtr 0) 1 7 false true;
     EvForwardFFN 1 (TmpPtr 0) (ActPtr 0) 2 2 true;
     EvLastLayerNorm (ActPtr 0) (ActPtr 0) 1; EvPredictor (ActPtr 0) (ActPtr 2) 1].
Proof.
  destruct (forward_call_sequence (Toy.model false false) [4] (1, 1, 1) 1 false
              Toy.start
              (fst (forward (Toy.model false false) [4] (1, 1, 1) 1 false Toy.start))
              (Logits 2 0 3)) as (HE & _ & Hs);
    [solve [run_forward | vm_compute; reflexivity] .. |].
  destruct (Hs ltac:(discriminate)) as (Hs1 & _ & _).
  rewrite HE, Hs1. vm_compute. reflexivity.
Defined.

(** ** The hand-over between two pipeline stages (X12) *)

Section Handover.

Variable M : Model.

(** X12. The envelopes of the hand-over between two pipeline stages match.
    A stage that sends addresses its message to world rank
    [(ppRank + 1) * tpSize + tpRank] and tags it with that rank; the stage of
    the next pipeline rank and the same TP rank has this world rank, names the
    world rank of the sender as the source of its receive and its own world
    rank as the tag.  Each side counts the [batchSize * inputSeqLen *
    hiddenSize] elements of its own call.  The two stages have the same TP
    geometry, the ranks fit an [int], and a message is there to receive. *)
Theorem stage_handover (Ls Lr : Locals) (sid : Z) (ds dr : Decoder)
    (msg : Z * list f32) (rest : list (Z * list f32)) :
  let cs := context ds in
  let cr := context dr in
  let ds' := fst (pp_send M Ls sid ds) in
  let dr' := fst (pp_recv M Lr dr) in
  stage_sends M cs = true ->
  ppRank cr = ppRank cs + 1 -> ppSize cr = ppSize cs ->
  tpSize cr = tpSize cs -> tpRank cr = tpRank cs ->
  0 <= ppRank cs -> 0 <= tpRank cs -> 1 <= tpSize cs ->
  (ppRank cs + 1) * tpSize cs + tpRank cs <= Int.max_int ->
  inbox (pipeline dr) = msg :: rest ->
  stage_receives M cr = true
  /\ events_since ds ds'
     = [EvSend (world_rank cr) (world_rank cr) sid (activation_count Ls)
          (mem_load (act (heap ds)) embBuf (activation_count Ls))]
  /\ events_since dr dr'
     = [EvRecv (world_rank cs) (world_rank cr) (fst msg) (activation_count Lr)].
Proof.
  intros cs cr ds' dr' Hs Hpr Hps Hts Htr Hp0 Ht0 Hs0 Hmax Hin.
  destruct msg as [sid' payload].
  assert (Hmx : Int.max_int = 2147483647) by reflexivity.
  assert (Hmn : Int.min_int = -2147483648) by reflexivity.
  assert (Hrecv : stage_receives M cr = true).
  { unfold stage_sends in Hs. unfold stage_receives.
    apply andb_true_iff in Hs as [Hs _]. apply andb_true_iff in Hs as [Hpp Hsz].
    rewrite Hpp, Hps, Hsz, Hpr. cbn [andb]. lia. }
  assert (Hwr : world_rank cr = (ppRank cs + 1) * tpSize cs + tpRank cs).
  { unfold world_rank. rewrite Hpr, Hts, Htr.
    rewrite mul_exact by (unfold Int.in_range; nia).
    apply add_exact. unfold Int.in_range. nia. }
  assert (Hws : world_rank cs = ppRank cs * tpSize cs + tpRank cs).
  { unfold world_rank. rewrite mul_exact by (unfold Int.in_range; nia).
    apply add_exact. unfold Int.in_range. nia. }
  assert (Hnext : (ppRank cs +i 1) *i tpSize cs +i tpRank cs = world_rank cr).
  { rewrite Hwr. rewrite (add_exact (ppRank cs) 1) by (unfold Int.in_range; nia).
    rewrite mul_exact by (unfold Int.in_range; nia).
    apply add_exact. unfold Int.in_range. nia. }
  assert (Hprev : (ppRank cr -i 1) *i tpSize cr +i tpRank cr = world_rank cs).
  { rewrite Hws, Hpr, Hts, Htr. rewrite sub_exact by (unfold Int.in_range; nia).
    replace (ppRank cs + 1 - 1) with (ppRank cs) by lia.
    rewrite mul_exact by (unfold Int.in_range; nia).
    apply add_exact. unfold Int.in_range. nia. }
  split; [exact Hrecv |]. split.
  - subst ds'. unfold pp_send. fold cs (stage_sends M cs). rewrite Hs. cbn [fst].
    unfold events_since, log. cbn [trace set_trace]. rewrite drop_app_length.
    rewrite Hnext. reflexivity.
  - subst dr'. unfold pp_recv. fold cr (stage_receives M cr). rewrite Hrecv, Hin.
    cbv beta iota zeta.
    unfold events_since. rewrite push_ready_trace. unfold log.
    cbn [trace set_trace set_pipeline upd_act set_heap]. rewrite drop_app_length.
    fold (world_rank cr). rewrite Hprev. reflexivity.
Qed.

End Handover.

Lemma stage_handover_witness :
  let M := Toy.model true false in
  let Ls := locals_of M [1; 2; 3] (1, 1, 3) 0 false (ToyStages.decoder 0 []) in
  let ds := hidden_state M [1; 2; 3] (1, 1, 3) 0 false (ToyStages.decoder 0 []) in
  let dr := ToyStages.decoder 1 [(5, [10; 11; 20; 21; 30; 31])] in
  let Lr := locals_of M [1; 2; 3] (1, 1, 3) 0 false dr in
  events_since ds (fst (pp_send M Ls 5 ds)) = [EvSend 1 1 5 6 [10; 11; 20; 21; 30; 31]]
  /\ events_since dr (fst (pp_recv M Lr dr)) = [EvRecv 0 1 5 6].
Proof.
  intros M Ls ds dr Lr.
  destruct (stage_handover M Ls Lr 5 ds dr (5, [10; 11; 20; 21; 30; 31]) [])
    as (_ & Hsend & Hr);
    [solve [vm_compute; first [reflexivity | discriminate]] .. |].
  split.
  - refine (eq_trans Hsend _). vm_compute. reflexivity.
  - exact Hr.
Defined.

(** ** A subclass that leaves a virtual function to the base class (X13, X14) *)

Section Errors.

Variable M : Model.



End Errors.



(** ** The prompts under prefix sharing (X15) *)

Lemma concat_rows_length (f : Z -> list Z) (n : nat) (l : list Z) :
  (forall k, k ∈ l -> length (f k) = n) ->
  length (concat (f <$> l)) = (length l * n)%nat.
Proof.
  induction l as [| x l IH]; intros H; [reflexivity |].
  rewrite fmap_cons. cbn [concat length]. rewrite length_app, IH, H.
  - lia.
  - left.
  - intros k Hk. apply H. right. exact Hk.
Qed.

(** Row [b] of a concatenation of [U] rows of [n] elements each. *)
Lemma ids_slice_concat (f : Z -> list Z) (n U b : Z) :
  0 <= n -> (forall k, 0 <= k < U -> length (f k) = Z.to_nat n) -> 0 <= b < U ->
  ids_slice (concat (f <$> seqZ 0 U)) (b * n) n = f b.
Proof.
  intros Hn Hlen Hb. unfold ids_slice.
  replace U with (b + (U - b)) by lia.
  rewrite seqZ_app, (seqZ_cons (0 + b)) by lia.
  rewrite fmap_app, fmap_cons, concat_app. cbn [concat].
  rewrite drop_app_length'.
  - rewrite Z.add_0_l. apply take_app_length'. symmetry. apply Hlen. exact Hb.
  - rewrite (concat_rows_length f (Z.to_nat n)).
    + rewrite length_seqZ. nia.
    + intros k Hk. apply elem_of_seqZ in Hk. apply Hlen. lia.
Qed.

Lemma ids_slice_length (ids : list Z) off n :
  0 <= off -> 0 <= n -> off + n <= Z.of_nat (length ids) ->
  length (ids_slice ids off n) = Z.to_nat n.
Proof.
  intros Ho Hn Hl. unfold ids_slice. rewrite length_take, length_drop. lia.
Qed.

Lemma ids_slice_app (ids : list Z) off p q :
  0 <= off -> 0 <= p -> 0 <= q ->
  ids_slice ids off (p + q) = ids_slice ids off p ++ ids_slice ids (off + p) q.
Proof.
  intros Ho Hp Hq. unfold ids_slice.
  rewrite !Z2Nat.inj_add by lia. rewrite <- take_take_drop, drop_drop. reflexivity.
Qed.

Section Prefix.

Variable M : Model.

(** The set-up of a step-0 call under prefix sharing (lines 337-356). *)
Lemma forward_setup_prefix ids dims la d :
  prefixSharing d = true ->
  let U := Int.of_int64 (fst (fst dims)) in
  let beam := Int.of_int64 (snd (fst dims)) in
  let S := Int.of_int64 (snd dims) in
  let P := prefixSeqLen d in
  let prefixIDs := concat ((fun b => ids_slice ids (S *i b) P) <$> for_range 0 U) in
  let newIDs :=
    concat ((fun b => ids_slice ids (S *i b + P) (S -i P)) <$> for_range 0 U) in
  forward_setup M ids dims 0 la d
  = (prepareBuffers M U beam la false
       (resize_context M U (S -i P) P
          (call M (EvGetPositionIds prefixIDs U P 0)
             (set_accSeqLen 0 (set_initSeqLen S (resize_context M U S 0 d))))),
     {| l_ids := newIDs; l_userSideBS := U; l_beamSize := beam; l_batchSize := U;
        l_seqLen := S; l_pastSeqLen := P; l_inputSeqLen := S -i P;
        l_hiddenSize := hiddenSize (context d); l_step := 0; l_logitsAll := la |}).
Proof.
  intros Hp. destruct dims as [[dims0 dims1] dims2]. unfold forward_setup.
  cbn [Z.eqb fst snd prefixSharing set_accSeqLen set_initSeqLen resize_context set_context
       call log set_trace set_heap].
  rewrite Hp. reflexivity.
Qed.

(** X15. Under prefix sharing a step-0 call splits every prompt in two
    without losing a token: the first [prefixSeqLen] tokens go to
    [getPositionIds] as the prefix, the remaining [seqLen - prefixSeqLen]
    tokens are what the call embeds and attends over, with the prefix as
    past.  The ids hold [userSideBS] prompts of [seqLen] tokens, and the
    prefix is no longer than a prompt. *)
Theorem prefix_sharing_splits_prompts (ids : list Z) (dims : Z * Z * Z) (la : bool)
    (d : Decoder) :
  let L := locals_of M ids dims 0 la d in
  let d1 := fst (forward_setup M ids dims 0 la d) in
  let U := l_userSideBS L in
  let S := l_seqLen L in
  let P := prefixSeqLen d in
  prefixSharing d = true ->
  0 <= U -> 0 <= P <= S -> U * S <= Int.max_int -> S <= Int.max_int ->
  Z.of_nat (length ids) = U * S ->
  l_pastSeqLen L = P
  /\ l_inputSeqLen L = S - P
  /\ exists prefixIDs,
       In (EvGetPositionIds prefixIDs U P 0) (events_since d d1)
       /\ forall b, 0 <= b < U ->
            ids_slice ids (b * S) S
            = ids_slice prefixIDs (b * P) P
              ++ ids_slice (l_ids L) (b * (S - P)) (S - P).
Proof.
  intros L d1 U S P Hp. subst L d1 U S. unfold locals_of.
  rewrite (forward_setup_prefix ids dims la d Hp).
  cbn [fst snd l_userSideBS l_seqLen l_pastSeqLen l_inputSeqLen l_ids].
  generalize (Int.of_int64 (fst (fst dims))) (Int.of_int64 (snd dims))
             (Int.of_int64 (snd (fst dims))).
  intros U S beam HU HP HUS HS Hlen. fold P.
  assert (Hmx : Int.max_int = 2147483647) by reflexivity.
  assert (Hmn : Int.min_int = -2147483648) by reflexivity.
  rewrite sub_exact by (unfold Int.in_range; lia).
  split; [reflexivity |]. split; [reflexivity |].
  eexists. split.
  - unfold events_since, prepareBuffers, resize_context, call, log.
    cbn [trace set_trace set_heap set_mask set_context set_accSeqLen set_initSeqLen].
    rewrite <- !app_assoc, drop_app_length. right. left. reflexivity.
  - intros b Hb. rewrite for_range_0.
    assert (Hoff : S *i b = b * S).
    { rewrite mul_exact by (unfold Int.in_range; nia). lia. }
    rewrite (ids_slice_concat (fun b0 => ids_slice ids (S *i b0) P) P U b), Hoff; try lia.
    + rewrite (ids_slice_concat (fun b0 => ids_slice ids (S *i b0 + P) (S - P)) (S - P) U b),
        Hoff; try lia.
      * rewrite <- ids_slice_app by nia. f_equal. lia.
      * intros k Hk. rewrite mul_exact by (unfold Int.in_range; nia).
        apply ids_slice_length; nia.
    + intros k Hk. rewrite mul_exact by (unfold Int.in_range; nia).
      apply ids_slice_length; nia.
Qed.

End Prefix.

Lemma prefix_sharing_splits_prompts_witness :
  let d := set_prefix true 2 (Toy.decoder 1) in
  l_ids (locals_of (Toy.model false false) [1; 2; 3; 4; 5; 6] (2, 1, 3) 0 false d) = [3; 6]
  /\ l_pastSeqLen (locals_of (Toy.model false false) [1; 2; 3; 4; 5; 6] (2, 1, 3) 0 false d)
     = 2.
Proof.
  intros d.
  destruct (prefix_sharing_splits_prompts (Toy.model false false) [1; 2; 3; 4; 5; 6]
              (2, 1, 3) false d) as (Hpast & _ & _);
    [solve [vm_compute; first [reflexivity | discriminate | split; discriminate]] .. |].
  split; [vm_compute; reflexivity | exact Hpast].
Defined.

(** ** The logits of a continuous batch (X16, X17) *)

Lemma total_input_app s1 s2 : total_input (s1 ++ s2) = total_input s1 + total_input s2.
Proof. unfold total_input. rewrite fmap_app. apply sumZ_app. Qed.

Lemma total_input_ge_length seqs :
  Forall (fun s => 1 <= sm_inputSeqLen s) seqs -> Z.of_nat (length seqs) <= total_input seqs.
Proof.
  unfold total_input. induction 1 as [| s l Hs _ IH]; [reflexivity |].
  rewrite fmap_cons, sumZ_cons. cbn [length]. lia.
Qed.

Lemma foldl_total (f : SequenceMeta -> Z) (seqs : list SequenceMeta) :
  forall a, 0 <= a -> Forall (fun s => 0 <= f s) seqs ->
    a + sumZ (f <$> seqs) <= Int.max_int ->
    foldl (fun a s => a +i f s) a seqs = a + sumZ (f <$> seqs).
Proof.
  induction seqs as [| s l IH]; intros a Ha Hall Hmax; cbn [foldl].
  - cbn. lia.
  - inversion Hall as [| ? ? Hs Hl]; subst. rewrite fmap_cons, sumZ_cons in *.
    pose proof (sumZ_nonneg (f <$> l)) as Hpos. rewrite Forall_fmap in Hpos.
    specialize (Hpos Hl).
    rewrite add_exact by (unfold Int.in_range, Int.min_int, Int.max_int in *; lia).
    rewrite IH by (first [assumption | lia]). lia.
Qed.

(** Normalising [rows] rows in place and projecting them. *)
Lemma projected_rows (p : DistLinear) ln H (m : Mem) lnIn out rows k :
  dl_inputSize p = H -> 0 <= H -> 0 <= getSplitSize p -> 0 <= k < rows ->
  mem_load (DistLinear_forward p (rowwise ln H H m lnIn embBuf rows) embBuf out rows)
           (out + k * getSplitSize p) (getSplitSize p)
  = logits_row p ln (mem_load m (lnIn + k * H) H).
Proof.
  intros Hin HH HW Hk. unfold DistLinear_forward, logits_row. rewrite Hin.
  destruct (rowwise_rows (dl_column p) H (getSplitSize p)
              (rowwise ln H H m lnIn embBuf rows) embBuf out rows HW ltac:(lia))
    as [_ Hproj].
  rewrite (Hproj k Hk). f_equal. f_equal.
  destruct (rowwise_rows ln H H m lnIn embBuf rows HH ltac:(lia)) as [_ Hnorm].
  apply Hnorm. exact Hk.
Qed.

(** Gathering the last rows in place: row [b] comes from a row at or after
    [b], which no earlier copy has overwritten. *)
Lemma gather_last_rows_spec H (m : Mem) (seqs : list SequenceMeta) :
  0 <= H -> Forall (fun s => 1 <= sm_inputSeqLen s) seqs ->
  total_input seqs * H <= Int.max_int -> total_input seqs <= Int.max_int ->
  let r := foldl (fun '(offset, m) '(b, seq) =>
                    let offset := offset +i sm_inputSeqLen seq in
                    (offset, memcpy m (embBuf + b *i H) (embBuf + offset *i H) H))
                 (-1, m) (zip (seqZ 0 (Z.of_nat (length seqs))) seqs) in
  fst r = total_input seqs - 1
  /\ (forall a, ~ (0 <= a < Z.of_nat (length seqs) * H) -> snd r a = m a)
  /\ (forall b, 0 <= b < Z.of_nat (length seqs) ->
        mem_load (snd r) (embBuf + b * H) H
        = mem_load m (embBuf + last_row_offset seqs b * H) H).
Proof.
  intros HH. induction seqs as [| s seqs IH] using rev_ind; intros Hall HtH Ht.
  - cbn. split; [reflexivity |]. split; [reflexivity | intros b Hb; lia].
  - apply Forall_app in Hall as [Hall Hs]. inversion Hs as [| ? ? Hs1 _]; subst.
    rewrite total_input_app in HtH, Ht.
    assert (Hone : total_input [s] = sm_inputSeqLen s)
      by (unfold total_input; rewrite fmap_cons, sumZ_cons;
          change (sumZ (sm_inputSeqLen <$> [])) with 0; lia).
    rewrite Hone in HtH, Ht.
    pose proof (total_input_ge_length seqs Hall) as Hge.
    assert (Hmx : Int.max_int = 2147483647) by reflexivity.
    assert (Hmn : Int.min_int = -2147483648) by reflexivity.
    specialize (IH Hall ltac:(nia) ltac:(lia)). cbn zeta in IH.
    rewrite length_app. cbn [length].
    replace (Z.of_nat (length seqs + 1)) with (Z.of_nat (length seqs) + 1) by lia.
    rewrite seqZ_app by lia. rewrite (seqZ_cons (0 + _)) by lia.
    change (Z.pred 1) with 0. rewrite (seqZ_nil _ 0) by lia.
    rewrite zip_with_app by (rewrite length_seqZ; lia).
    cbn zeta. rewrite foldl_app.
    set (n := Z.of_nat (length seqs)) in *.
    destruct (foldl _ (-1, m) (zip (seqZ 0 n) seqs)) as [off m'] eqn:E.
    cbn [fst snd] in IH. destruct IH as (Hoff & Hout & Hrows).
    cbn [zip_with foldl fst snd]. rewrite Z.add_0_l.
    rewrite total_input_app, Hone. subst off.
    rewrite (add_exact (total_input seqs - 1)) by (unfold Int.in_range; lia).
    rewrite !mul_exact by (unfold Int.in_range; nia).
    split; [lia |]. split.
    + intros a Ha. unfold memcpy. rewrite mem_store_out by (unfold embBuf; nia).
      apply Hout. nia.
    + intros b Hb. destruct (Z.eq_dec b n) as [-> | Hne].
      * unfold memcpy. apply mem_load_ext. intros j Hj.
        rewrite mem_store_in by (unfold embBuf; nia).
        replace (embBuf + n * H + j - (embBuf + n * H)) with j by lia.
        rewrite Hout by (unfold embBuf; nia).
        f_equal. unfold last_row_offset.
        replace (Z.to_nat n + 1)%nat with (length (seqs ++ [s]))
          by (rewrite length_app; cbn [length]; lia).
        rewrite firstn_all, total_input_app, Hone. unfold embBuf. nia.
      * transitivity (mem_load m' (embBuf + b * H) H).
        -- apply mem_load_ext. intros j Hj. unfold memcpy.
           apply mem_store_out. unfold embBuf. nia.
        -- rewrite (Hrows b) by lia. unfold last_row_offset.
           rewrite take_app_le by lia. reflexivity.
Qed.

Section Batch.

Variable M : Model.

(** Lines 643-688 on the decoder [dh] that the decoder block left: the
    gathering of the last rows, the final normalisation and the projection. *)
Lemma seqs_final_rows (dh : Decoder) ln out logitRows H (g : Mem -> Mem) (b : bool) :
  let dg := if b then upd_act g dh else dh in
  let dn := log (EvLastLayerNorm (ActPtr embBuf) (ActPtr embBuf) logitRows)
              (upd_act (fun m => rowwise ln H H m embBuf embBuf logitRows) dg) in
  let dp := log (EvPredictor (ActPtr embBuf) (ActPtr out) logitRows)
              (upd_act (fun m => DistLinear_forward (predictor dn) m embBuf out
                                   logitRows) dn) in
  predictor dp = predictor dh
  /\ act (heap dp)
     = DistLinear_forward (predictor dh)
         (rowwise ln H H (if b then g (act (heap dh)) else act (heap dh))
            embBuf embBuf logitRows) embBuf out logitRows
  /\ events_since dh dp
     = [EvLastLayerNorm (ActPtr embBuf) (ActPtr embBuf) logitRows;
        EvPredictor (ActPtr embBuf) (ActPtr out) logitRows].
Proof.
  intros dg dn dp. subst dp dn dg.
  destruct b; (split; [reflexivity |]; split; [reflexivity |]);
    unfold events_since, log, upd_act; cbn [trace set_trace set_heap];
    rewrite <- app_assoc, drop_app_length; reflexivity.
Qed.

Lemma forward_seqs_unfold s0 rest la d ln :
  embeddingForward_overridden M = true ->
  lastLayerNormForward_row M = Some ln ->
  forward_seqs M (s0 :: rest) la d
  = (let dh := seqs_hidden_state M (s0 :: rest) la d in
     let totI := foldl (fun a s => a +i sm_inputSeqLen s) 0 (s0 :: rest) in
     let logitRows :=
       if negb la && (default 0 (sm_step <$> head (s0 :: rest)) =? 0)
       then Z.of_nat (length (s0 :: rest)) else totI in
     let H := hiddenSize (context d) in
     let out := embBuf + totI *i H in
     let dg := if negb (logitRows =? totI)
               then upd_act (gather_last_rows H (s0 :: rest)) dh else dh in
     let dn := log (EvLastLayerNorm (ActPtr embBuf) (ActPtr embBuf) logitRows)
                 (upd_act (fun m => rowwise ln H H m embBuf embBuf logitRows) dg) in
     let dp := log (EvPredictor (ActPtr embBuf) (ActPtr out) logitRows)
                 (upd_act (fun m => DistLinear_forward (predictor dn) m embBuf out
                                      logitRows) dn) in
     (dp, Returns (Logits out (getSplitOffset (predictor dp))
                          (getSplitSize (predictor dp))))).
Proof.
  intros Hemb Hln.
  unfold forward_seqs, run_bind, embeddingForward, modify. rewrite Hemb, Hln.
  reflexivity.
Qed.

Lemma seqs_hidden_state_predictor seqs la d :
  predictor (seqs_hidden_state M seqs la d) = predictor d.
Proof. reflexivity. Qed.

(** What [forward(seqs, logitsAll)] returns and leaves in the activation
    buffer when the subclass provides the embedding and the final
    normalisation. *)
Lemma forward_seqs_returns seqs la d ln :
  seqs <> [] ->
  embeddingForward_overridden M = true ->
  lastLayerNormForward_row M = Some ln ->
  let totI := foldl (fun a s => a +i sm_inputSeqLen s) 0 seqs in
  let logitRows :=
    if negb la && (default 0 (sm_step <$> head seqs) =? 0)
    then Z.of_nat (length seqs) else totI in
  let H := hiddenSize (context d) in
  let out := embBuf + totI *i H in
  let hidden := act (heap (seqs_hidden_state M seqs la d)) in
  let p := predictor d in
  snd (forward_seqs M seqs la d) = Returns (Logits out (getSplitOffset p) (getSplitSize p))
  /\ act (heap (fst (forward_seqs M seqs la d)))
     = DistLinear_forward p
         (rowwise ln H H
            (if negb (logitRows =? totI) then gather_last_rows H seqs hidden else hidden)
            embBuf embBuf logitRows)
         embBuf out logitRows
  /\ events_since (seqs_hidden_state M seqs la d) (fst (forward_seqs M seqs la d))
     = [EvLastLayerNorm (ActPtr embBuf) (ActPtr embBuf) logitRows;
        EvPredictor (ActPtr embBuf) (ActPtr out) logitRows].
Proof.
  intros Hne Hemb Hln. destruct seqs as [| s0 rest]; [contradiction |].
  intros totI logitRows H out hidden p.
  rewrite (forward_seqs_unfold s0 rest la d ln Hemb Hln).
  cbv zeta. fold totI. fold logitRows. fold H. fold out. cbn [fst snd].
  destruct (seqs_final_rows (seqs_hidden_state M (s0 :: rest) la d) ln out logitRows H
              (gather_last_rows H (s0 :: rest)) (negb (logitRows =? totI)))
    as (Hp & Hact & Hev).
  rewrite seqs_hidden_state_predictor in Hp, Hact.
  split; [rewrite Hp; reflexivity |]. split; [exact Hact | exact Hev].
Qed.

(** X16. [forward(seqs, false)] on prompts (the first sequence at step 0),
    every sequence with at least one input token: the call returns one logits
    row per sequence, starting right after the rows of all the tokens, and
    row [b] is the logits row (final normalisation, then projection) of the
    hidden state of the last token of sequence [b].  The rows are gathered in
    place; the sizes fit an [int]. *)
Theorem forward_seqs_last_rows (seqs : list SequenceMeta) (d : Decoder)
    (ln : list f32 -> Z -> f32) :
  let n := Z.of_nat (length seqs) in
  let tot := total_input seqs in
  let H := hiddenSize (context d) in
  let p := predictor d in
  let W := getSplitSize p in
  let hidden := act (heap (seqs_hidden_state M seqs false d)) in
  sm_step <$> head seqs = Some 0 ->
  Forall (fun s => 1 <= sm_inputSeqLen s) seqs ->
  embeddingForward_overridden M = true ->
  lastLayerNormForward_row M = Some ln ->
  dl_inputSize p = H -> 0 <= H -> 0 <= W ->
  tot * H <= Int.max_int -> tot <= Int.max_int ->
  exists d',
    forward_seqs M seqs false d = (d', Returns (Logits (tot * H) (getSplitOffset p) W))
    /\ forall b, 0 <= b < n ->
         returned_row d' (tot * H) W b
         = logits_row p ln (mem_load hidden (embBuf + last_row_offset seqs b * H) H).
Proof.
  intros n tot H p W hidden Hstep Hall Hemb Hln Hin HH HW HtH Ht.
  assert (Hne : seqs <> []) by (intros ->; discriminate).
  assert (Hmx : Int.max_int = 2147483647) by reflexivity.
  assert (Hmn : Int.min_int = -2147483648) by reflexivity.
  pose proof (total_input_ge_length seqs Hall) as Hge. fold n tot in Hge.
  assert (Htot : foldl (fun a s => a +i sm_inputSeqLen s) 0 seqs = tot).
  { rewrite foldl_total; [reflexivity | lia | | exact Ht].
    eapply Forall_impl; [exact Hall |]. cbn. intros; lia. }
  destruct (forward_seqs_returns seqs false d ln Hne Hemb Hln) as (Hres & Hact & _).
  rewrite Htot in Hres, Hact. rewrite Hstep in Hact.
  change (default 0 (Some 0) =? 0) with true in Hact. cbn [negb andb] in Hact.
  fold n H p W hidden in Hres, Hact.
  rewrite mul_exact in Hres, Hact by (unfold Int.in_range; nia).
  exists (fst (forward_seqs M seqs false d)). split.
  - rewrite (surjective_pairing (forward_seqs M seqs false d)) at 1.
    rewrite Hres. reflexivity.
  - intros b Hb. unfold returned_row. rewrite Hact.
    change (embBuf + tot * H) with (tot * H).
    rewrite (projected_rows p ln H _ embBuf (tot * H) n b Hin HH HW Hb).
    f_equal.
    destruct (gather_last_rows_spec H hidden seqs HH Hall HtH Ht) as (_ & _ & Hrows).
    destruct (n =? tot) eqn:E; cbn [negb].
    + apply Z.eqb_eq in E. f_equal. unfold last_row_offset.
      pose proof (total_input_ge_length (take (Z.to_nat b + 1) seqs)
                    (Forall_take _ _ _ Hall)) as H1.
      pose proof (total_input_ge_length (drop (Z.to_nat b + 1) seqs)
                    (Forall_drop _ _ _ Hall)) as H2.
      rewrite length_take in H1. rewrite length_drop in H2.
      pose proof (total_input_app (take (Z.to_nat b + 1) seqs)
                    (drop (Z.to_nat b + 1) seqs)) as H3.
      rewrite take_drop in H3. fold tot in H3. f_equal. f_equal. lia.
    + unfold gather_last_rows. apply Hrows. exact Hb.
Qed.

(** X17. [forward(seqs, logitsAll)] with [logitsAll = true], or on
    sequences past their first step: the call returns one logits row per
    input token, and row [r] is the logits row of the hidden state of token
    [r]; no row is moved. *)
Theorem forward_seqs_all_rows (seqs : list SequenceMeta) (la : bool) (d : Decoder)
    (ln : list f32 -> Z -> f32) :
  let tot := total_input seqs in
  let H := hiddenSize (context d) in
  let p := predictor d in
  let W := getSplitSize p in
  let hidden := act (heap (seqs_hidden_state M seqs la d)) in
  seqs <> [] ->
  la = true \/ (exists s0, head seqs = Some s0 /\ sm_step s0 <> 0) ->
  Forall (fun s => 0 <= sm_inputSeqLen s) seqs ->
  embeddingForward_overridden M = true ->
  lastLayerNormForward_row M = Some ln ->
  dl_inputSize p = H -> 0 <= H -> 0 <= W ->
  tot * H <= Int.max_int -> tot <= Int.max_int ->
  exists d',
    forward_seqs M seqs la d = (d', Returns (Logits (tot * H) (getSplitOffset p) W))
    /\ forall r, 0 <= r < tot ->
         returned_row d' (tot * H) W r
         = logits_row p ln (mem_load hidden (embBuf + r * H) H).
Proof.
  intros tot H p W hidden Hne Hcase Hall Hemb Hln Hin HH HW HtH Ht.
  assert (Hmx : Int.max_int = 2147483647) by reflexivity.
  assert (Hmn : Int.min_int = -2147483648) by reflexivity.
  assert (Htot0 : 0 <= tot).
  { apply sumZ_nonneg. rewrite Forall_fmap. exact Hall. }
  assert (Htot : foldl (fun a s => a +i sm_inputSeqLen s) 0 seqs = tot).
  { rewrite foldl_total; [reflexivity | lia | exact Hall | exact Ht]. }
  destruct (forward_seqs_returns seqs la d ln Hne Hemb Hln) as (Hres & Hact & _).
  rewrite Htot in Hres, Hact.
  assert (Hrows : (if negb la && (default 0 (sm_step <$> head seqs) =? 0)
                   then Z.of_nat (length seqs) else tot) = tot).
  { destruct Hcase as [-> | (s0 & Hs0 & Hstep)]; [reflexivity |].
    rewrite Hs0. change (default 0 (sm_step <$> Some s0)) with (sm_step s0).
    apply Z.eqb_neq in Hstep. rewrite Hstep, andb_false_r. reflexivity. }
  rewrite Hrows, Z.eqb_refl in Hact. cbn [negb] in Hact.
  fold H p W hidden in Hres, Hact.
  rewrite mul_exact in Hres, Hact by (unfold Int.in_range; nia).
  exists (fst (forward_seqs M seqs la d)). split.
  - rewrite (surjective_pairing (forward_seqs M seqs la d)) at 1.
    rewrite Hres. reflexivity.
  - intros r Hr. unfold returned_row. rewrite Hact.
    change (embBuf + tot * H) with (tot * H).
    apply (projected_rows p ln H hidden embBuf (tot * H) tot r Hin HH HW Hr).
Qed.

End Batch.

Lemma forward_seqs_last_rows_witness :
  exists d',
    forward_seqs (Toy.model false false) toy_prompts false (Toy.decoder 1)
    = (d', Returns (Logits 6 0 3))
    /\ returned_row d' 6 3 0 = [4300; 4301; 4302]
    /\ returned_row d' 6 3 1 = [6300; 6301; 6302].
Proof.
  destruct (forward_seqs_last_rows (Toy.model false false) toy_prompts (Toy.decoder 1)
              Toy.layerNorm) as (d' & Hf & Hrows);
    [solve [vm_compute; first [reflexivity | discriminate]
           | repeat constructor; vm_compute; discriminate] .. |].
  exists d'. split; [exact Hf |]. split.
  - refine (eq_trans (Hrows 0 ltac:(cbn; lia)) _). vm_compute. reflexivity.
  - refine (eq_trans (Hrows 1 ltac:(cbn; lia)) _). vm_compute. reflexivity.
Defined.

Lemma forward_seqs_all_rows_witness :
  exists d',
    forward_seqs (Toy.model false false) toy_prompts true (Toy.decoder 1)
    = (d', Returns (Logits 6 0 3))
    /\ returned_row d' 6 3 0 = [2300; 2301; 2302]
    /\ returned_row d' 6 3 2 = [6300; 6301; 6302].
Proof.
  destruct (forward_seqs_all_rows (Toy.model false false) toy_prompts true (Toy.decoder 1)
              Toy.layerNorm) as (d' & Hf & Hrows);
    [solve [vm_compute; first [reflexivity | discriminate]
           | repeat constructor; vm_compute; discriminate
           | left; reflexivity | discriminate] .. |].
  exists d'. split; [exact Hf |]. split.
  - refine (eq_trans (Hrows 0 ltac:(cbn; lia)) _). vm_compute. reflexivity.
  - refine (eq_trans (Hrows 2 ltac:(cbn; lia)) _). vm_compute. reflexivity.
Defined.

(** ** The attention mask of OPT after a decoding step (X18) *)

Section OptMask.

Variable M : Model.

Lemma locals_batchSize_decode ids dims step la d :
  step <> 0 ->
  batchSize (context (fst (forward_setup M ids dims step la d)))
  = l_batchSize (locals_of M ids dims step la d).
Proof.
  intros Hs. apply Z.eqb_neq in Hs. unfold locals_of, forward_setup.
  destruct dims as [[dims0 dims1] dims2]. rewrite Hs. reflexivity.
Qed.

(** X18. On a decoder whose mask is [OptDecoder::prepareAttnMask], a call
    with [step > 0] that returns leaves a mask buffer of at least
    [batchSize * accSeqLen] entries whose first [batchSize * accSeqLen]
    entries are [0.0f], where [accSeqLen] already counts the tokens of this
    call: the mask is prepared after the accumulated length is advanced. *)
Theorem opt_decode_mask_covers_accumulated (ids : list Z) (dims : Z * Z * Z) (step : Z)
    (la : bool) (d d' : Decoder) (r : ForwardResult) :
  let L := locals_of M ids dims step la d in
  let B := l_batchSize L in
  let A := accSeqLen d' in
  prepareAttnMask M = OptDecoder.prepareAttnMask ->
  0 < step < Int.max_int ->
  forward M ids dims step la d = (d', Returns r) ->
  Int.in_range (B * A) ->
  A = accSeqLen d +i l_seqLen L
  /\ B * A <= maskSize (mask d')
  /\ forall k, 0 <= k < B * A -> attnMask (mask d') k = Some f32_zero.
Proof.
  intros L B A Hopt Hstep Hf Hrange.
  assert (Hmx : Int.max_int = 2147483647) by reflexivity.
  assert (Hmn : Int.min_int = -2147483648) by reflexivity.
  destruct (forward_state M _ _ _ _ _ _ _ Hf) as (_ & _ & Ha & Hm).
  rewrite forward_setup_acc in Ha, Hm.
  assert (Hs : (step =? 0) = false) by (apply Z.eqb_neq; lia).
  rewrite Hs in Ha, Hm. rewrite locals_step in Hm.
  rewrite Hopt in Hm. unfold OptDecoder.prepareAttnMask in Hm.
  assert (Hstep' : (step +i Int.of_bool
                      (prefixSharing (fst (forward_setup M ids dims step la d))) =? 0)
                   = false).
  { apply Z.eqb_neq. rewrite add_exact.
    - destruct (prefixSharing _); cbn; lia.
    - unfold Int.in_range. destruct (prefixSharing _); cbn; lia. }
  rewrite Hstep', (locals_batchSize_decode ids dims step la d) in Hm by lia.
  fold L in Ha, Hm. fold B in Hm. rewrite <- Ha in Hm. fold A in Hm, Ha.
  rewrite (mul_exact B A) in Hm by exact Hrange.
  split; [exact Ha |]. rewrite Hm. cbn [maskSize attnMask]. split.
  - apply getAttnMask_size.
  - intros k Hk. apply mask_fill_in. lia.
Qed.

End OptMask.

Lemma opt_decode_mask_covers_accumulated_witness :
  accSeqLen (fst (forward (Toy.model false false) [4] (1, 1, 1) 1 false Toy.start)) = 8
  /\ attnMask (mask (fst (forward (Toy.model false false) [4] (1, 1, 1) 1 false Toy.start)))
              7
     = Some f32_zero.
Proof.
  destruct (opt_decode_mask_covers_accumulated (Toy.model false false) [4] (1, 1, 1) 1 false
              Toy.start
              (fst (forward (Toy.model false false) [4] (1, 1, 1) 1 false Toy.start))
              (Logits 2 0 3))
    as (Ha & _ & Hk);
    [solve [run_forward | reflexivity
           | vm_compute; first [discriminate | split; discriminate
                               | split; reflexivity]] .. |].
  split.
  - rewrite Ha. vm_compute. reflexivity.
  - apply Hk. rewrite Ha. vm_compute. split; [discriminate | reflexivity].
Defined.
